(** * schema_updates.py: the organizationId schema rewriter

    A shallow embedding of [src/schema_updates.py].  The script reads a
    Prisma schema, runs three [re.sub] passes per model name over the text
    held in memory, and writes the text back.

    Text is a Python [str]: a list of Unicode code points.  The three
    patterns of the script only use literal characters, the classes
    [[^}]], [\s], [[a-zA-Z_]], [[a-zA-Z0-9_]] and the quantifiers [*?],
    [*] and [+] on single-character classes, inside two capture groups that
    follow one another.  The matcher below is the backtracking matcher of
    [re] for that fragment, as an ordered list of successes: the first
    element is the match [re] reports. *)

From Stdlib Require Import List NArith Ascii String Bool Arith Lia.
From Stdlib Require Import DecimalString.
From stdpp Require Import base list strings gmap.
Import ListNotations.

Set Default Proof Using "Type".

(** ** Text *)

Definition char : Type := N.
Definition str : Type := list char.

(** The code points of a source literal. *)
Definition chars (s : string) : str :=
  map N_of_ascii (list_ascii_of_string s).

(** [nl] is what [\n] denotes in a replacement template. *)
Definition nl : str := [10%N].

(** ** Character classes *)

(** [\s] on [str] patterns: the ASCII white space and the Unicode
    white-space code points. *)
Definition is_space (c : char) : bool :=
  ((9 <=? c) && (c <=? 13) || (28 <=? c) && (c <=? 32)
   || (c =? 133) || (c =? 160) || (c =? 5760)
   || (8192 <=? c) && (c <=? 8202)
   || (c =? 8232) || (c =? 8233) || (c =? 8239) || (c =? 8287)
   || (c =? 12288))%N.

(** [[^}]] *)
Definition not_brace (c : char) : bool := negb (c =? 125)%N.

(** [[a-zA-Z_]] *)
Definition ident_start (c : char) : bool :=
  ((97 <=? c) && (c <=? 122) || (65 <=? c) && (c <=? 90) || (c =? 95))%N.

(** [[a-zA-Z0-9_]] *)
Definition ident_char (c : char) : bool :=
  (ident_start c || (48 <=? c) && (c <=? 57))%N.

(** ** Patterns *)

Inductive atom : Type :=
| Lit (l : str)                    (* literal characters *)
| One (p : char -> bool)           (* one character of a class *)
| StarLazy (p : char -> bool)      (* class*? *)
| StarGreedy (p : char -> bool)    (* class* *)
| PlusGreedy (p : char -> bool).   (* class+ *)

(** A pattern of the shape [(grp1)(grp2)]. *)
Record pattern : Type := Pattern { grp1 : list atom; grp2 : list atom }.

(** The items of a replacement template. *)
Inductive titem : Type :=
| TGroup1                          (* \1 *)
| TGroup2                          (* \2 *)
| TText (t : str).

(** ** The backtracking matcher *)

(** [strip l s] is the rest of [s] after the literal [l], when [s] starts
    with it. *)
Fixpoint strip (l s : str) : option str :=
  match l, s with
  | [], _ => Some s
  | _ :: _, [] => None
  | a :: l', c :: s' => if (a =? c)%N then strip l' s' else None
  end.

Definition cons_fst (c : char) (r : str * str) : str * str :=
  (c :: fst r, snd r).

(** Every way of matching [class*?] at the head of [s], shortest first. *)
Fixpoint lazy_run (p : char -> bool) (s : str) : list (str * str) :=
  ([], s) ::
  match s with
  | c :: s' => if p c then map (cons_fst c) (lazy_run p s') else []
  | [] => []
  end.

(** Every way of matching [class*] at the head of [s], longest first. *)
Fixpoint greedy_run (p : char -> bool) (s : str) : list (str * str) :=
  match s with
  | c :: s' =>
      if p c then map (cons_fst c) (greedy_run p s') ++ [([], s)]
      else [([], s)]
  | [] => [([], [])]
  end.

(** The ways of matching one atom at the head of [s], in the order the
    backtracking matcher tries them: (consumed text, rest). *)
Definition match_atom (a : atom) (s : str) : list (str * str) :=
  match a with
  | Lit l => match strip l s with Some r => [(l, r)] | None => [] end
  | One p =>
      match s with
      | c :: s' => if p c then [([c], s')] else []
      | [] => []
      end
  | StarLazy p => lazy_run p s
  | StarGreedy p => greedy_run p s
  | PlusGreedy p =>
      match s with
      | c :: s' => if p c then map (cons_fst c) (greedy_run p s') else []
      | [] => []
      end
  end.

Definition app_fst (m : str) (r : str * str) : str * str :=
  (m ++ fst r, snd r).

(** The ways of matching a sequence of atoms, in backtracking order. *)
Fixpoint match_seq (atoms : list atom) (s : str) : list (str * str) :=
  match atoms with
  | [] => [([], s)]
  | a :: rest =>
      flat_map (fun r => map (app_fst (fst r)) (match_seq rest (snd r)))
               (match_atom a s)
  end.

(** A successful match at the head of the text: the two groups and the
    text after the match. *)
Record rmatch : Type := RMatch { group1 : str; group2 : str; after : str }.

Definition match_groups (pat : pattern) (s : str) : list rmatch :=
  flat_map (fun r1 =>
              map (fun r2 => RMatch (fst r1) (fst r2) (snd r2))
                  (match_seq (grp2 pat) (snd r1)))
           (match_seq (grp1 pat) s).

(** [re.match] at the head of [s]: the first success. *)
Definition re_match (pat : pattern) (s : str) : option rmatch :=
  head (match_groups pat s).

(** The expansion of a template for a match. *)
Fixpoint expand (tmpl : list titem) (m : rmatch) : str :=
  match tmpl with
  | [] => []
  | TGroup1 :: t => group1 m ++ expand t m
  | TGroup2 :: t => group2 m ++ expand t m
  | TText x :: t => x ++ expand t m
  end.

(** [re.sub]: scan from the left; where the pattern matches, emit the
    expanded template and go on after the match; elsewhere copy one
    character.  The patterns of the script start with a literal, so a
    match is never empty and the scan ends within [S (length s)] steps
    (lemma [sub_scan_fuel]). *)
Fixpoint sub_scan (fuel : nat) (pat : pattern) (tmpl : list titem)
    (s : str) : str :=
  match fuel with
  | O => s
  | S fuel' =>
      match re_match pat s with
      | Some m => expand tmpl m ++ sub_scan fuel' pat tmpl (after m)
      | None =>
          match s with
          | [] => []
          | c :: s' => c :: sub_scan fuel' pat tmpl s'
          end
      end
  end.

Definition re_sub (pat : pattern) (tmpl : list titem) (s : str) : str :=
  sub_scan (S (length s)) pat tmpl s.

(** ** add_organization_id_to_model *)

(** The characters with a meaning of their own in a pattern.  The model
    name is pasted into the pattern text by an f-string; a name without
    any of them stands for itself. *)
Definition is_meta (c : char) : bool :=
  existsb (N.eqb c) (chars ".^$*+?{}[]\|()").

Definition plain_name (name : str) : bool :=
  forallb (fun c => negb (is_meta c)) name.

(** [model {model_name} \{] *)
Definition header_atoms (name : str) : list atom :=
  [Lit (chars "model "); Lit name; Lit (chars " {")].

(** The text the header atoms match. *)
Definition header (name : str) : str :=
  chars "model " ++ name ++ chars " {".

Definition marker : str := chars "// Relations".

(** [(model N \{[^}]*?createdById\s+String[^}]*?)(\s+// Relations)] *)
Definition model_pattern (name : str) : pattern :=
  {| grp1 := header_atoms name ++
             [StarLazy not_brace; Lit (chars "createdById");
              PlusGreedy is_space; Lit (chars "String");
              StarLazy not_brace];
     grp2 := [PlusGreedy is_space; Lit marker] |}.

Definition field_text : str :=
  nl ++ chars "  organizationId  String?   // Made optional for safe migration".

Definition replacement : list titem :=
  [TGroup1; TText field_text; TGroup2].

(** [(model N \{[^}]*?// Relations[^}]*?createdBy[^}]*?)
     (\s+[a-zA-Z_][a-zA-Z0-9_]*\s+[^}]*?\[\])] *)
Definition relation_pattern (name : str) : pattern :=
  {| grp1 := header_atoms name ++
             [StarLazy not_brace; Lit marker;
              StarLazy not_brace; Lit (chars "createdBy");
              StarLazy not_brace];
     grp2 := [PlusGreedy is_space; One ident_start; StarGreedy ident_char;
              PlusGreedy is_space; StarLazy not_brace; Lit (chars "[]")] |}.

Definition relation_text : str :=
  nl ++ chars "  organization    Organization? @relation(fields: [organizationId], references: [id])".

Definition org_relation : list titem :=
  [TGroup1; TText relation_text; TGroup2].

(** [(model N \{[^}]*?)(\})] *)
Definition index_pattern (name : str) : pattern :=
  {| grp1 := header_atoms name ++ [StarLazy not_brace];
     grp2 := [Lit (chars "}")] |}.

Definition index_text : str :=
  nl ++ nl ++ chars "  @@index([organizationId])".

Definition index_replacement : list titem :=
  [TGroup1; TText index_text; TGroup2].

(** The three passes, in the order of the function body. *)
Definition field_pass (name : str) (content : str) : str :=
  re_sub (model_pattern name) replacement content.

Definition relation_pass (name : str) (content : str) : str :=
  re_sub (relation_pattern name) org_relation content.

Definition index_pass (name : str) (content : str) : str :=
  re_sub (index_pattern name) index_replacement content.

(** [add_organization_id_to_model(content, model_name)].  [None] stands
    for a name with a pattern metacharacter in it: the pattern the
    f-string builds is then no longer the one above. *)
Definition add_organization_id_to_model (content name : str) : option str :=
  if plain_name name then
    Some (index_pass name (relation_pass name (field_pass name content)))
  else None.

(** ** The driver *)

Definition models_to_update : list str :=
  map chars
    ["Segment"; "EmailTemplate"; "SMSCampaign"; "WhatsAppCampaign";
     "Workflow"; "Task"; "Journey"; "AI_ContentAnalysis";
     "AI_CustomerSegment"; "AI_ChatHistory"; "LeadPulseVisitor";
     "LeadPulseTouchpoint"; "ConversionEvent"; "ConversionTracking";
     "ConversionFunnel"; "PredictionModel"; "ChurnPrediction";
     "LifetimeValuePrediction"; "ContactJourney"]%string.

(** The [for model in models_to_update] loop of [main]. *)
Fixpoint update_models (models : list str) (content : str) : option str :=
  match models with
  | [] => Some content
  | model :: rest =>
      match add_organization_id_to_model content model with
      | Some content' => update_models rest content'
      | None => None
      end
  end.

Definition rewrite_all (content : str) : option str :=
  update_models models_to_update content.

(** ** What a pattern matches *)

(** The texts an atom matches, whatever the order of the attempts. *)
Definition atom_matches (a : atom) (m : str) : Prop :=
  match a with
  | Lit l => m = l
  | One p => exists c, m = [c] /\ p c = true
  | StarLazy p => forallb p m = true
  | StarGreedy p => forallb p m = true
  | PlusGreedy p => m <> [] /\ forallb p m = true
  end.

Fixpoint seq_matches (atoms : list atom) (m : str) : Prop :=
  match atoms with
  | [] => m = []
  | a :: rest =>
      exists m1 m2, m = m1 ++ m2 /\ atom_matches a m1 /\ seq_matches rest m2
  end.

(** The positions at which the literal [p] starts in [s], counted from
    [i]. *)
Fixpoint occurrences_from (i : nat) (p s : str) : list nat :=
  match strip p s with Some _ => [i] | None => [] end ++
  match s with
  | [] => []
  | _ :: s' => occurrences_from (S i) p s'
  end.

Definition occurrences (p s : str) : list nat := occurrences_from 0 p s.

(** The matches of [atoms] handed on to what follows in the pattern: [k]
    receives the consumed text and the rest, and the attempts keep their
    order. *)
Definition match_k {R : Type} (atoms : list atom) (s : str)
    (k : str -> str -> list R) : list R :=
  flat_map (fun r => k (fst r) (snd r)) (match_seq atoms s).

(** A class stops at the head of [y]: the text ends there or goes on with
    a character outside the class. *)
Definition stops (p : char -> bool) (y : str) : bool :=
  match y with
  | [] => true
  | c :: _ => negb (p c)
  end.

(** A pattern [headed] by [name] has the header atoms in front of its
    first group, as the three patterns of the script have. *)
Definition headed (name : str) (pat : pattern) : Prop :=
  exists rest, grp1 pat = header_atoms name ++ rest.

(** The literal [l] starts nowhere in [x] when it is read in front of
    [z]. *)
Definition starts_nowhere (l x z : str) : Prop :=
  forall x1 x2, x = x1 ++ x2 -> x2 <> [] -> strip l (x2 ++ z) = None.

(** Whether the literal [p] occurs in [s]. *)
Definition occursb (p s : str) : bool :=
  match occurrences p s with
  | [] => false
  | _ :: _ => true
  end.

(** The closing brace of a block. *)
Definition close : str := chars "}".

(** [last_stops p b]: the text [b] is empty or ends with a character
    outside the class [p]. *)
Definition last_stops (p : char -> bool) (b : str) : bool := stops p (rev b).

(** [clash p t]: the literal [p] and the text [t] differ at a position
    both have. *)
Fixpoint clash (p t : str) : bool :=
  match p, t with
  | a :: p', c :: t' => if (a =? c)%N then clash p' t' else true
  | _, _ => false
  end.

(** The literal [p] cannot start inside the text [t], whatever follows
    [t]. *)
Definition never_starts_in (p t : str) : bool :=
  forallb (fun j => clash p (drop j t)) (seq 0 (length t)).

(** ** Well-formed blocks

    The parts of the body of a block [model X { ... }] that the patterns
    of the script look for, in the order of the text:

    [before_field  createdById  gap1  String  after_field
     gap2  // Relations
     before_relation  createdBy  relation_tail
     gap3  name  gap4  type_text  []
     block_rest]  *)
Record block : Type := Block {
  before_field : str;      (* fields in front of [createdById] *)
  gap1 : str;              (* white space between the name and [String] *)
  after_field : str;       (* the rest of the fields *)
  gap2 : str;              (* white space in front of the marker *)
  before_relation : str;   (* text between the marker and [createdBy] *)
  relation_tail : str;     (* what is written right behind [createdBy] *)
  gap3 : str;              (* white space *)
  name_head : char;        (* an identifier: first character *)
  name_tail : str;         (* ... and the others *)
  gap4 : str;              (* white space *)
  type_text : str;         (* text up to the first [[]] *)
  block_rest : str         (* text up to the closing brace *)
}.

Definition fields_text (k : block) : str :=
  before_field k ++ chars "createdById" ++ gap1 k ++ chars "String"
    ++ after_field k.

Definition relations_text (k : block) : str :=
  before_relation k ++ chars "createdBy" ++ relation_tail k.

(** What the second group of the relation pattern matches: white space,
    an identifier, white space and the text up to the first list type. *)
Definition list_text (k : block) : str :=
  gap3 k ++ (name_head k :: name_tail k) ++ gap4 k ++ type_text k
    ++ chars "[]".

Definition body (k : block) : str :=
  fields_text k ++ gap2 k ++ marker ++ relations_text k ++ list_text k
    ++ block_rest k.

(** The body with the three insertions. *)
Definition body_rewritten (k : block) : str :=
  fields_text k ++ field_text ++ gap2 k ++ marker ++ relations_text k
    ++ relation_text ++ list_text k ++ block_rest k ++ index_text.

Definition spaces (w : str) : Prop := w <> [] /\ forallb is_space w = true.

(** A block is well formed when its parts are what their names say: no
    part holds a closing brace, the gaps are white space, [createdById],
    the marker, [createdBy] and [[]] are where they first occur, the
    white space in front of the marker starts behind a character that is
    not white space, and nothing but the name follows [createdBy] before
    the next white space. *)
Definition well_formed (k : block) : Prop :=
  (forallb not_brace (before_field k) = true) /\
  (forallb not_brace (after_field k) = true) /\
  (forallb not_brace (before_relation k) = true) /\
  (forallb (fun ch => not_brace ch && negb (is_space ch)) (relation_tail k)
   = true) /\
  (forallb not_brace (type_text k) = true) /\
  (forallb not_brace (block_rest k) = true) /\
  spaces (gap1 k) /\ spaces (gap2 k) /\ spaces (gap3 k) /\ spaces (gap4 k) /\
  (ident_start (name_head k) = true) /\
  (forallb ident_char (name_tail k) = true) /\
  (occurrences (chars "createdById") (before_field k ++ chars "createdById")
   = [length (before_field k)]) /\
  (occurrences marker (fields_text k ++ gap2 k ++ marker)
   = [length (fields_text k ++ gap2 k)]) /\
  (last_stops is_space (after_field k) = true) /\
  (occurrences (chars "createdBy") (before_relation k ++ chars "createdBy")
   = [length (before_relation k)]) /\
  (stops is_space (type_text k ++ chars "[]") = true) /\
  (occurrences (chars "[]") (type_text k ++ chars "[]")
   = [length (type_text k)]).

(** An atom that cannot match a closing brace. *)
Definition atom_brace_free (a : atom) : Prop :=
  match a with
  | Lit l => forallb not_brace l = true
  | One p | StarLazy p | StarGreedy p | PlusGreedy p => p 125%N = false
  end.

(** The literal [p] starts nowhere in [s]. *)
Definition absent (p s : str) : Prop :=
  forall x1 x2, s = x1 ++ x2 -> strip p x2 = None.

(** ** A fixture

    [model Segment {
       id String @id
       createdById String

       // Relations
       createdBy User @relation(fields: [createdById], references: [id])
       members SegmentMember[]
     }]  *)
Definition fixture_block : block :=
  {| before_field := nl ++ chars "  id String @id" ++ nl ++ chars "  ";
     gap1 := chars " ";
     after_field := [];
     gap2 := nl ++ nl ++ chars "  ";
     before_relation := nl ++ chars "  ";
     relation_tail := [];
     gap3 := chars " ";
     name_head := 85%N;
     name_tail := chars "ser";
     gap4 := chars " ";
     type_text :=
       chars "@relation(fields: [createdById], references: [id])" ++ nl
         ++ chars "  members SegmentMember";
     block_rest := nl |}.

Definition fixture : str :=
  header (chars "Segment") ++ body fixture_block ++ close ++ nl.

(** The fixture after one run of the script. *)
Definition fixture_once : str :=
  header (chars "Segment") ++ body_rewritten fixture_block ++ close ++ nl.

(** A block with neither anchor nor marker. *)
Definition bare_document : str := chars "model Task { id Int }".

(** A match of the field or of the relation pattern is the header and
    then text without a closing brace that holds the marker. *)
Definition marker_tail (rest1 grp2' : list atom) : Prop :=
  Forall atom_brace_free (rest1 ++ grp2') /\ In (Lit marker) (rest1 ++ grp2').

(** ** Lines

    The lines of a text, as [str.split('\n')] gives them. *)
Fixpoint lines (s : str) : list str :=
  match s with
  | [] => [[]]
  | c :: s' =>
      if (c =? 10)%N then [] :: lines s'
      else match lines s' with
           | l :: ls => (c :: l) :: ls
           | [] => [[c]]
           end
  end.

(** The fixture with an optional creator:

    [model Segment {
       id String @id
       createdById String?

       // Relations
       createdBy User? @relation(fields: [createdById], references: [id])
       members SegmentMember[]
     }]  *)
Definition optional_fixture : str :=
  chars "model Segment {" ++ nl
    ++ chars "  id String @id" ++ nl
    ++ chars "  createdById String?" ++ nl
    ++ nl
    ++ chars "  // Relations" ++ nl
    ++ chars "  createdBy User? @relation(fields: [createdById], references: [id])" ++ nl
    ++ chars "  members SegmentMember[]" ++ nl
    ++ chars "}" ++ nl.

(** A block with the anchor field and the marker, and no white space in
    front of the marker. *)
Definition tight_document : str :=
  chars "model Task { createdById String// Relations }".

(** ** Files, console and [main]

    The world of the script, as far as the script can tell it apart.

    - [files]: what is on disk, as text.  A file opened with
      [open(path, 'r')] is decoded with the encoding of the locale and
      its line ends are translated; [garbled] holds the paths whose
      bytes that encoding does not decode.
    - [read_only]: the paths that cannot be opened for writing.
    - [room]: how many characters a write can put on the disk before it
      is full ([None]: as many as it likes).
    - [locale], [console]: the characters beyond ASCII that the encoding
      of the locale (used by [open]) and the encoding of [sys.stdout]
      have; every encoding Python offers for either has the ASCII
      characters.
    - [alarm] lets the run be cut short from outside after a number of
      steps, so that "at any point" can be said: every operation on the
      world first takes one step.
    - [log]: what the script did, in order.

    The system is a POSIX one, as the path of the schema says: a line end
    is written as it is. *)

Inductive event : Type :=
| EPrint (line : str)                (* print(line) *)
| ERead (path : string)              (* a file read to its end *)
| EOpenW (path : string)             (* open(path, 'w'): file emptied *)
| EWrite (path : string) (text : str). (* text that reached the file *)

Inductive error : Type :=
| FileNotFound (path : string)
| PermissionDenied (path : string)
| DecodeError (path : string)        (* UnicodeDecodeError *)
| EncodeError (c : char)             (* UnicodeEncodeError *)
| WriteFailed (path : string)        (* OSError while writing *)
| PatternError (name : str)
| Interrupted.

Record world : Type := World {
  files : gmap string str;
  garbled : gset string;
  read_only : gset string;
  room : option nat;
  locale : char -> bool;
  console : char -> bool;
  alarm : option nat;
  log : list event
}.

Inductive outcome (A : Type) : Type :=
| Ok (a : A) (w : world)
| Raise (e : error) (w : world).
Arguments Ok {A} a w.
Arguments Raise {A} e w.

Definition M (A : Type) : Type := world -> outcome A.

Definition ret {A : Type} (a : A) : M A := fun w => Ok a w.

Definition bind {A B : Type} (m : M A) (f : A -> M B) : M B := fun w =>
  match m w with
  | Ok a w' => f a w'
  | Raise e w' => Raise e w'
  end.

Notation "'let!' x ':=' m 'in' k" := (bind m (fun x => k))
  (at level 10, x name, m at level 100, k at level 200).
Notation "m >> k" := (bind m (fun _ => k))
  (at level 90, right associativity).

Definition raise {A : Type} (e : error) : M A := fun w => Raise e w.

(** [w] a step later, with more in its log, with another text in a
    file. *)
Definition wound (w : world) (n : nat) : world :=
  World (files w) (garbled w) (read_only w) (room w) (locale w) (console w)
        (Some n) (log w).

Definition logged (w : world) (evs : list event) : world :=
  World (files w) (garbled w) (read_only w) (room w) (locale w) (console w)
        (alarm w) (log w ++ evs).

(** A file that has just been written is text in the encoding of the
    locale. *)
Definition stored (w : world) (path : string) (text : str) : world :=
  World (<[path := text]> (files w)) (garbled w ∖ {[path]}) (read_only w)
        (room w) (locale w) (console w) (alarm w) (log w).

Definition tick : M unit := fun w =>
  match alarm w with
  | Some O => Raise Interrupted w
  | Some (S n) => Ok tt (wound w n)
  | None => Ok tt w
  end.

Definition emit (e : event) : M unit := fun w => Ok tt (logged w [e]).

Definition set_file (path : string) (text : str) : M unit := fun w =>
  Ok tt (stored w path text).

(** Whether an encoding with the characters [repertoire] beyond ASCII
    has the character [c]. *)
Definition encodable (repertoire : char -> bool) (c : char) : bool :=
  (c <? 128)%N || repertoire c.

(** The first character of [text] that the encoding lacks. *)
Definition unencodable (repertoire : char -> bool) (text : str)
    : option char :=
  find (fun c => negb (encodable repertoire c)) text.

(** A text of ASCII characters. *)
Definition is_ascii (text : str) : bool := forallb (fun c => (c <? 128)%N) text.

(** [print(line)]: the line is encoded for the console as a whole, or
    not written at all. *)
Definition print (line : str) : M unit :=
  tick >>
  fun w =>
    match unencodable (console w) line with
    | Some c => Raise (EncodeError c) w
    | None => emit (EPrint line) w
    end.

(** The line ends of a file opened for reading in text mode: [\r\n] and
    [\r] are read as [\n]. *)
Fixpoint universal_newlines (s : str) : str :=
  match s with
  | [] => []
  | c :: rest =>
      if (c =? 13)%N then
        10%N :: match rest with
                | d :: rest' =>
                    if (d =? 10)%N then universal_newlines rest'
                    else universal_newlines rest
                | [] => []
                end
      else c :: universal_newlines rest
  end.

Definition read_file (filepath : string) : M str :=
  tick >>
  fun w =>
    match files w !! filepath with
    | Some text =>
        if decide (filepath ∈ garbled w)
        then Raise (DecodeError filepath) w
        else (emit (ERead filepath) >> ret (universal_newlines text)) w
    | None => Raise (FileNotFound filepath) w
    end.

(** What fits on the disk of [content]. *)
Definition fitting (w : world) (content : str) : str :=
  match room w with
  | Some n => take n content
  | None => content
  end.

(** [open(filepath, 'w')] empties the file.  [f.write(content)] encodes
    the whole text first; the text then reaches the disk as far as there
    is room for it. *)
Definition write_file (filepath : string) (content : str) : M unit :=
  tick >>
  (fun w => if decide (filepath ∈ read_only w)
            then Raise (PermissionDenied filepath) w
            else (set_file filepath [] >> emit (EOpenW filepath)) w) >>
  tick >>
  (fun w =>
     match unencodable (locale w) content with
     | Some c => Raise (EncodeError c) w
     | None =>
         (set_file filepath (fitting w content) >>
          emit (EWrite filepath (fitting w content)) >>
          if (length (fitting w content) <? length content)%nat
          then raise (WriteFailed filepath)
          else ret tt) w
     end).

Definition schema_path : string :=
  "/Users/supreme/Desktop/marketsage/prisma/schema.prisma".

Definition update (content model : str) : M str :=
  tick >>
  match add_organization_id_to_model content model with
  | Some content' => ret content'
  | None => raise (PatternError model)
  end.

Fixpoint for_models (models : list str) (content : str) : M str :=
  match models with
  | [] => ret content
  | model :: rest =>
      print (chars "  Adding organizationId to " ++ model) >>
      let! content' := update content model in
      for_models rest content'
  end.

Definition decimal (n : nat) : str :=
  chars (NilEmpty.string_of_uint (Nat.to_uint n)).

Definition before_write : M str :=
  print (chars "Reading schema from " ++ chars schema_path) >>
  let! content := read_file schema_path in
  print (chars "Processing " ++ decimal (length models_to_update)
           ++ chars " models...") >>
  let! content := for_models models_to_update content in
  print (chars "Writing updated schema...") >>
  ret content.

(** The lines [main] prints when the file is written. *)
Definition after_write : M unit :=
  print ([226; 339; 8230]%N ++ chars " Schema update complete!") >>
  print (nl ++ chars "Next steps:") >>
  print (chars "1. Run: npx prisma db push") >>
  print (chars "2. Test super admin login") >>
  print (chars "3. Verify tenant isolation").

Definition main : M unit :=
  let! content := before_write in
  write_file schema_path content >>
  after_write.

Definition world_of {A : Type} (o : outcome A) : world :=
  match o with
  | Ok _ w => w
  | Raise _ w => w
  end.

(** From [w] to [w'] nothing but the alarm and the log changed. *)
Definition same_disk (w w' : world) : Prop :=
  files w' = files w /\ garbled w' = garbled w /\
  read_only w' = read_only w /\ room w' = room w /\
  locale w' = locale w /\ console w' = console w.

(** [m] run in [w] leaves the disk alone and logs [evs]: all of them
    when it returns, with a result in [Q], and the first of them when it
    raises. *)
Definition traces {A : Type} (m : M A) (w : world) (evs : list event)
    (Q : A -> Prop) : Prop :=
  match m w with
  | Ok a w' => same_disk w w' /\ log w' = log w ++ evs /\ Q a
  | Raise _ w' =>
      same_disk w w' /\
      exists done, log w' = log w ++ done /\ done `prefix_of` evs
  end.

(** Turns the class tests into bounds on the code point. *)
Ltac class_facts :=
  unfold is_space, not_brace, ident_char, ident_start in *;
  repeat match goal with
         | H : _ = false |- _ => apply not_true_iff_false in H
         | |- _ = false => apply not_true_iff_false; intros ?
         end;
  rewrite ?negb_true_iff, ?orb_true_iff, ?andb_true_iff, ?N.leb_le,
    ?N.eqb_eq, ?N.eqb_neq in *;
  lia.

(** ** What a run of [main] logs *)

Definition events_before_write : list event :=
  [EPrint (chars "Reading schema from " ++ chars schema_path);
   ERead schema_path;
   EPrint (chars "Processing " ++ decimal (length models_to_update)
             ++ chars " models...")]
  ++ map (fun model => EPrint (chars "  Adding organizationId to " ++ model))
         models_to_update
  ++ [EPrint (chars "Writing updated schema...")].

Definition events_after_write : list event :=
  [EPrint ([226; 339; 8230]%N ++ chars " Schema update complete!");
   EPrint (nl ++ chars "Next steps:");
   EPrint (chars "1. Run: npx prisma db push");
   EPrint (chars "2. Test super admin login");
   EPrint (chars "3. Verify tenant isolation")].

(** A world in which nothing cuts the run short. *)
Definition calm (w : world) : Prop := alarm w = None.

(** The whole of [content] fits on the disk. *)
Definition fits (w : world) (content : str) : Prop :=
  match room w with
  | Some n => length content <= n
  | None => True
  end.

(** ** Worlds for the examples *)

(** The schema file holds [text]; nothing else is on disk, every path
    can be written, and locale and console have every character. *)
Definition world_with (text : str) : world :=
  World {[ schema_path := text ]} ∅ ∅ None (fun _ => true) (fun _ => true)
        None [].

Definition first_world : world := world_with fixture.

(** The run is cut short while the names are being worked through. *)
Definition interrupted_world : world := wound first_world 20.

(** Other things on disk and on the console, a console that has the
    characters of the completion line and no others beyond ASCII, a disk
    with some room, and an alarm that rings too late. *)
Definition second_world : world :=
  World (<[ "notes.txt"%string := chars "x" ]> {[ schema_path := fixture ]})
        {[ "notes.txt"%string ]} ∅ (Some 1000) (fun _ => true)
        (fun c => (c =? 226)%N || (c =? 339)%N || (c =? 8230)%N)
        (Some 100) [EPrint (chars "earlier")].

(** The schema file is missing. *)
Definition empty_world : world :=
  World ∅ ∅ ∅ None (fun _ => true) (fun _ => true) None [].

(** The disk has room for a hundred characters. *)
Definition full_world : world :=
  World {[ schema_path := fixture ]} ∅ ∅ (Some 100) (fun _ => true)
        (fun _ => true) None [].

(** The schema file is read-only. *)
Definition locked_world : world :=
  World {[ schema_path := fixture ]} ∅ {[ schema_path ]} None
        (fun _ => true) (fun _ => true) None [].

(** The console has ASCII only. *)
Definition narrow_world : world :=
  World {[ schema_path := fixture ]} ∅ ∅ None (fun _ => true)
        (fun _ => false) None [].

(** The schema file has the line ends of another system. *)
Definition crlf_text : str :=
  chars "enum Role {" ++ [13; 10]%N ++ chars "  ADMIN" ++ [13; 10]%N
    ++ chars "}" ++ [13; 10]%N.

Definition lf_text : str :=
  chars "enum Role {" ++ nl ++ chars "  ADMIN" ++ nl ++ chars "}" ++ nl.

(** ** Insertions

    [inserted t n s r]: the text [r] is [s] with [n] copies of [t] put
    in. *)
Inductive inserted (t : str) : nat -> str -> str -> Prop :=
| inserted_nil : inserted t 0 [] []
| inserted_keep (c : char) (s r : str) (n : nat) :
    inserted t n s r -> inserted t n (c :: s) (c :: r)
| inserted_copy (s r : str) (n : nat) :
    inserted t n s r -> inserted t (S n) s (t ++ r).

(** How often the character [c] occurs in [s]. *)
Definition count_char (c : char) (s : str) : nat := count_occ N.eq_dec s c.

(** [r] with a closing brace and [t] behind it. *)
Definition behind_brace (t : str) (r : str * str) : str * str :=
  (fst r, snd r ++ 125%N :: t).

(** An unclosed block in front of another one. *)
Definition unclosed_stretch : str := chars "model Task { id Int model Other { x ".

(** A block whose creator is kept in a field of another name:

    [model Task {
       authorId Int

       // Relations
       createdBy User @relation(fields: [authorId], references: [id])
       steps Step[]
     }]  *)
Definition fieldless_front : str :=
  nl ++ chars "  authorId Int" ++ nl ++ nl ++ chars "  ".

Definition fieldless_type : str :=
  chars "@relation(fields: [authorId], references: [id])" ++ nl
    ++ chars "  steps Step".

Definition fieldless_document : str :=
  header (chars "Task") ++ fieldless_front ++ marker ++ nl ++ chars "  "
    ++ chars "createdBy" ++ chars " " ++ chars "User" ++ chars " "
    ++ fieldless_type ++ chars "[]" ++ nl ++ close ++ nl.

(** * Properties *)

(** ** Literals *)

Lemma strip_app_same (l r : str) : strip l (l ++ r) = Some r.
Proof.
  induction l as [|a l IH]; simpl; [reflexivity|].
  rewrite N.eqb_refl. exact IH.
Qed.

Lemma strip_Some (l s r : str) : strip l s = Some r -> s = l ++ r.
Proof.
  revert s. induction l as [|a l IH]; intros s H; simpl in *.
  - congruence.
  - destruct s as [|c s]; [discriminate|].
    destruct (N.eqb_spec a c) as [->|]; [|discriminate].
    f_equal. auto.
Qed.

Lemma strip_app (a b s : str) :
  strip (a ++ b) s =
  match strip a s with Some r => strip b r | None => None end.
Proof.
  revert s. induction a as [|x a IH]; intros s; simpl.
  - destruct b; reflexivity.
  - destruct s as [|c s]; [reflexivity|].
    destruct (x =? c)%N; [apply IH | reflexivity].
Qed.

Lemma strip_None_app (l s t : str) :
  strip l (s ++ t) = None -> strip l s = None.
Proof.
  revert s. induction l as [|a l IH]; intros s; simpl.
  - discriminate.
  - destruct s as [|c s]; simpl; [reflexivity|].
    destruct (a =? c)%N; [apply IH | reflexivity].
Qed.

(** ** Soundness and completeness of the matcher *)

Lemma lazy_run_sound p s m r :
  In (m, r) (lazy_run p s) -> s = m ++ r /\ forallb p m = true.
Proof.
  revert m r. induction s as [|c s IH]; intros m r; simpl.
  - intros [H|[]]. inversion H; subst. auto.
  - intros [H|H]; [inversion H; subst; auto|].
    destruct (p c) eqn:Hp; [|destruct H].
    apply in_map_iff in H as [[m' r'] [E H]].
    inversion E; subst. simpl.
    apply IH in H as [-> ?]. rewrite Hp. auto.
Qed.

Lemma lazy_run_complete p m r :
  forallb p m = true -> In (m, r) (lazy_run p (m ++ r)).
Proof.
  induction m as [|c m IH]; simpl.
  - destruct r; simpl; auto.
  - intros H. apply andb_true_iff in H as [Hc Hm]. rewrite Hc.
    right. apply in_map_iff. exists (m, r). split; [reflexivity | auto].
Qed.

Lemma greedy_run_sound p s m r :
  In (m, r) (greedy_run p s) -> s = m ++ r /\ forallb p m = true.
Proof.
  revert m r. induction s as [|c s IH]; intros m r; simpl.
  - intros [H|[]]. inversion H; subst. auto.
  - destruct (p c) eqn:Hp.
    + intros H. apply in_app_iff in H as [H|[H|[]]].
      * apply in_map_iff in H as [[m' r'] [E H]].
        inversion E; subst. simpl.
        apply IH in H as [-> ?]. rewrite Hp. auto.
      * inversion H; subst. auto.
    + intros [H|[]]. inversion H; subst. auto.
Qed.

Lemma greedy_run_complete p m r :
  forallb p m = true -> In (m, r) (greedy_run p (m ++ r)).
Proof.
  induction m as [|c m IH]; simpl.
  - intros _. destruct r as [|c r]; simpl; auto.
    destruct (p c); [apply in_app_iff; right|]; simpl; auto.
  - intros H. apply andb_true_iff in H as [Hc Hm]. rewrite Hc.
    apply in_app_iff. left.
    apply in_map_iff. exists (m, r). split; [reflexivity | auto].
Qed.

Lemma match_atom_sound a s m r :
  In (m, r) (match_atom a s) -> s = m ++ r /\ atom_matches a m.
Proof.
  destruct a as [l|p|p|p|p]; simpl.
  - destruct (strip l s) as [r'|] eqn:E; [|intros []].
    intros [H|[]]. inversion H; subst. split; [|reflexivity].
    apply strip_Some. exact E.
  - destruct s as [|c s]; [intros []|].
    destruct (p c) eqn:Hp; [|intros []].
    intros [H|[]]. inversion H; subst. split; [reflexivity|].
    exists c. auto.
  - apply lazy_run_sound.
  - apply greedy_run_sound.
  - destruct s as [|c s]; [intros []|].
    destruct (p c) eqn:Hp; [|intros []].
    intros H. apply in_map_iff in H as [[m' r'] [E H]].
    inversion E; subst. simpl.
    apply greedy_run_sound in H as [-> ?].
    repeat split; [discriminate | rewrite Hp; auto].
Qed.

Lemma match_atom_complete a m r :
  atom_matches a m -> In (m, r) (match_atom a (m ++ r)).
Proof.
  destruct a as [l|p|p|p|p]; simpl.
  - intros ->. rewrite strip_app_same. simpl. auto.
  - intros [c [-> Hc]]. simpl. rewrite Hc. simpl. auto.
  - apply lazy_run_complete.
  - apply greedy_run_complete.
  - intros [Hne H]. destruct m as [|c m]; [congruence|].
    simpl in *. apply andb_true_iff in H as [Hc Hm]. rewrite Hc.
    apply in_map_iff. exists (m, r). split; [reflexivity|].
    apply greedy_run_complete. exact Hm.
Qed.

Lemma match_seq_sound atoms s m r :
  In (m, r) (match_seq atoms s) -> s = m ++ r /\ seq_matches atoms m.
Proof.
  revert s m r. induction atoms as [|a atoms IH]; intros s m r; simpl.
  - intros [H|[]]. inversion H; subst. auto.
  - intros H. apply in_flat_map in H as [[m1 s1] [H1 H2]].
    apply in_map_iff in H2 as [[m2 s2] [E H2]].
    inversion E; subst. simpl in *.
    apply match_atom_sound in H1 as [-> Ha].
    apply IH in H2 as [-> Hs].
    split; [apply app_assoc|]. exists m1, m2. auto.
Qed.

Lemma match_seq_complete atoms m r :
  seq_matches atoms m -> In (m, r) (match_seq atoms (m ++ r)).
Proof.
  revert m. induction atoms as [|a atoms IH]; intros m; simpl.
  - intros ->. simpl. auto.
  - intros [m1 [m2 [-> [Ha Hs]]]].
    apply in_flat_map. exists (m1, m2 ++ r). split.
    + rewrite <- app_assoc. apply match_atom_complete. exact Ha.
    + apply in_map_iff. exists (m2, r). split; [reflexivity|].
      apply IH. exact Hs.
Qed.

Lemma match_groups_sound pat s m :
  In m (match_groups pat s) ->
  s = group1 m ++ group2 m ++ after m /\
  seq_matches (grp1 pat) (group1 m) /\ seq_matches (grp2 pat) (group2 m).
Proof.
  unfold match_groups. intros H.
  apply in_flat_map in H as [[m1 s1] [H1 H2]].
  apply in_map_iff in H2 as [[m2 s2] [E H2]].
  subst m. simpl in *.
  apply match_seq_sound in H1 as [-> ?].
  apply match_seq_sound in H2 as [-> ?]. auto.
Qed.

Lemma match_groups_complete pat m1 m2 r :
  seq_matches (grp1 pat) m1 -> seq_matches (grp2 pat) m2 ->
  In (RMatch m1 m2 r) (match_groups pat (m1 ++ m2 ++ r)).
Proof.
  intros H1 H2. unfold match_groups.
  apply in_flat_map. exists (m1, m2 ++ r). split.
  - apply match_seq_complete. exact H1.
  - apply in_map_iff. exists (m2, r). split; [reflexivity|].
    apply match_seq_complete. exact H2.
Qed.

Lemma re_match_sound pat s m :
  re_match pat s = Some m ->
  s = group1 m ++ group2 m ++ after m /\
  seq_matches (grp1 pat) (group1 m) /\ seq_matches (grp2 pat) (group2 m).
Proof.
  unfold re_match. intros H. apply match_groups_sound.
  destruct (match_groups pat s); [discriminate|].
  inversion H; subst. left. reflexivity.
Qed.

Lemma re_match_complete pat m1 m2 r :
  seq_matches (grp1 pat) m1 -> seq_matches (grp2 pat) m2 ->
  exists m, re_match pat (m1 ++ m2 ++ r) = Some m.
Proof.
  intros H1 H2. unfold re_match.
  pose proof (match_groups_complete pat m1 m2 r H1 H2) as H.
  destruct (match_groups pat (m1 ++ m2 ++ r)) as [|m l]; [destruct H|].
  exists m. reflexivity.
Qed.

(** ** Patterns that start with the model header *)

Lemma lit_match (l : str) (rest : list atom) (s : str) :
  match_seq (Lit l :: rest) s =
  match strip l s with
  | Some r => map (app_fst l) (match_seq rest r)
  | None => []
  end.
Proof.
  simpl. destruct (strip l s); simpl; [apply app_nil_r | reflexivity].
Qed.

Lemma lit3_match (a b c : str) (rest : list atom) (s : str) :
  match_seq (Lit a :: Lit b :: Lit c :: rest) s =
  match strip (a ++ b ++ c) s with
  | Some r => map (app_fst (a ++ b ++ c)) (match_seq rest r)
  | None => []
  end.
Proof.
  rewrite lit_match, (strip_app a).
  destruct (strip a s) as [s1|]; [|reflexivity].
  rewrite lit_match, (strip_app b).
  destruct (strip b s1) as [s2|]; [|reflexivity].
  rewrite lit_match.
  destruct (strip c s2) as [s3|]; [|reflexivity].
  rewrite !map_map.
  apply map_ext. intros [m r]. unfold app_fst. simpl.
  rewrite <- !app_assoc. reflexivity.
Qed.

Lemma header_atoms_match (name : str) (rest : list atom) (s : str) :
  match_seq (header_atoms name ++ rest) s =
  match strip (header name) s with
  | Some r => map (app_fst (header name)) (match_seq rest r)
  | None => []
  end.
Proof. apply lit3_match. Qed.

Lemma model_pattern_headed name : headed name (model_pattern name).
Proof. eexists. reflexivity. Qed.

Lemma relation_pattern_headed name : headed name (relation_pattern name).
Proof. eexists. reflexivity. Qed.

Lemma index_pattern_headed name : headed name (index_pattern name).
Proof. eexists. reflexivity. Qed.

Lemma headed_no_header name pat s :
  headed name pat -> strip (header name) s = None -> re_match pat s = None.
Proof.
  intros [rest Hg] Hs. unfold re_match, match_groups.
  rewrite Hg, header_atoms_match, Hs. reflexivity.
Qed.

Lemma header_length name : 0 < length (header name).
Proof. unfold header. rewrite length_app. simpl. lia. Qed.

Lemma headed_match_header name pat s m :
  headed name pat -> re_match pat s = Some m ->
  exists r, strip (header name) s = Some r.
Proof.
  intros Hh Hm.
  destruct (strip (header name) s) as [r|] eqn:E; [eauto|].
  rewrite (headed_no_header _ _ _ Hh E) in Hm. discriminate.
Qed.

(** A match of a headed pattern consumes at least the header. *)
Lemma headed_consumes name pat s m :
  headed name pat -> re_match pat s = Some m ->
  length (after m) < length s.
Proof.
  intros Hh Hm.
  destruct (headed_match_header _ _ _ _ Hh Hm) as [r Hr].
  apply strip_Some in Hr.
  apply re_match_sound in Hm as (Hs & H1 & _).
  destruct Hh as [rest Hg]. rewrite Hg in H1.
  assert (Hlen : length (header name) <= length (group1 m)).
  { clear - H1. unfold header_atoms in H1. simpl in H1.
    destruct H1 as (a1 & r1 & -> & -> & a2 & r2 & -> & -> & a3 & r3 & -> & -> & _).
    unfold header. rewrite !length_app. lia. }
  pose proof (header_length name).
  rewrite Hs, !length_app. lia.
Qed.

(** ** The scan of [re.sub] *)

Section Scan.
Variables (name : str) (pat : pattern) (tmpl : list titem).
Hypothesis Hhead : headed name pat.

(** More fuel than [S (length s)] changes nothing. *)
Lemma sub_scan_fuel (fuel : nat) (s : str) :
  length s < fuel -> sub_scan fuel pat tmpl s = re_sub pat tmpl s.
Proof using Hhead.
  unfold re_sub.
  remember (length s) as n eqn:Hn. revert s Hn fuel.
  induction n as [n IH] using lt_wf_ind. intros s Hn fuel Hf.
  destruct fuel as [|fuel]; [lia|]. simpl.
  destruct (re_match pat s) as [m|] eqn:Hm.
  - pose proof (headed_consumes _ _ _ _ Hhead Hm) as Hlt.
    f_equal.
    rewrite (IH (length (after m)) ltac:(lia) _ eq_refl fuel ltac:(lia)).
    rewrite (IH (length (after m)) ltac:(lia) _ eq_refl n ltac:(lia)).
    reflexivity.
  - destruct s as [|c s]; [reflexivity|]. simpl in Hn. f_equal.
    rewrite (IH (length s) ltac:(lia) _ eq_refl fuel ltac:(lia)).
    rewrite (IH (length s) ltac:(lia) _ eq_refl n ltac:(lia)).
    reflexivity.
Qed.

Lemma re_sub_nil : re_sub pat tmpl [] = [].
Proof using Hhead.
  unfold re_sub. simpl.
  rewrite (headed_no_header name); [reflexivity | exact Hhead |].
  pose proof (header_length name).
  destruct (header name); simpl in *; [lia | reflexivity].
Qed.

Lemma re_sub_match (s : str) (m : rmatch) :
  re_match pat s = Some m ->
  re_sub pat tmpl s = expand tmpl m ++ re_sub pat tmpl (after m).
Proof using Hhead.
  intros Hm. unfold re_sub at 1. simpl. rewrite Hm. f_equal.
  apply sub_scan_fuel.
  apply (headed_consumes _ _ _ _ Hhead Hm).
Qed.

Lemma re_sub_skip (c : char) (s : str) :
  re_match pat (c :: s) = None ->
  re_sub pat tmpl (c :: s) = c :: re_sub pat tmpl s.
Proof using Hhead.
  intros Hm. unfold re_sub at 1. simpl. rewrite Hm. f_equal.
Qed.

(** The scan copies a stretch of text in which the header starts
    nowhere. *)
Lemma re_sub_copy (x t : str) :
  (forall x1 x2, x = x1 ++ x2 -> x2 <> [] ->
                 strip (header name) (x2 ++ t) = None) ->
  re_sub pat tmpl (x ++ t) = x ++ re_sub pat tmpl t.
Proof using Hhead.
  induction x as [|c x IH]; intros H; [reflexivity|]. simpl.
  rewrite re_sub_skip.
  - f_equal. apply IH. intros x1 x2 -> Hne.
    apply (H (c :: x1) x2); [reflexivity | exact Hne].
  - apply (headed_no_header name); [exact Hhead|].
    apply (H [] (c :: x)); [reflexivity | discriminate].
Qed.

(** The scan copies a stretch of text in which no attempt succeeds. *)
Lemma re_sub_pass (x t : str) :
  (forall x1 x2, x = x1 ++ x2 -> x2 <> [] -> re_match pat (x2 ++ t) = None) ->
  re_sub pat tmpl (x ++ t) = x ++ re_sub pat tmpl t.
Proof using Hhead.
  induction x as [|c x IH]; intros H; [reflexivity|]. simpl.
  rewrite re_sub_skip.
  - f_equal. apply IH. intros x1 x2 -> Hne.
    apply (H (c :: x1) x2); [reflexivity | exact Hne].
  - apply (H [] (c :: x)); [reflexivity | discriminate].
Qed.

Lemma re_sub_pass_all (s : str) :
  (forall x1 x2, s = x1 ++ x2 -> re_match pat x2 = None) ->
  re_sub pat tmpl s = s.
Proof using Hhead.
  intros H. rewrite <- (app_nil_r s) at 1.
  rewrite re_sub_pass, re_sub_nil; [apply app_nil_r|].
  intros x1 x2 E _. rewrite app_nil_r. eauto.
Qed.

Lemma re_sub_copy_all (s : str) :
  (forall x1 x2, s = x1 ++ x2 -> strip (header name) x2 = None) ->
  re_sub pat tmpl s = s.
Proof using Hhead.
  intros H. rewrite <- (app_nil_r s) at 1.
  rewrite re_sub_copy, re_sub_nil; [apply app_nil_r|].
  intros x1 x2 E _. rewrite app_nil_r. eauto.
Qed.
End Scan.

(** ** Occurrences of a literal *)

Lemma occurrences_from_complete (p x y : str) (i : nat) :
  In (i + length x) (occurrences_from i p (x ++ p ++ y)).
Proof.
  revert i. induction x as [|c x IH]; intros i.
  - replace (i + length (@nil char)) with i by (simpl; lia).
    destruct y as [|d y], p as [|a p]; simpl;
      try (rewrite N.eqb_refl, ?app_nil_r, ?strip_app_same); simpl; auto.
    + pose proof (strip_app_same p []) as E. rewrite app_nil_r in E.
      rewrite E. simpl. auto.
  - simpl. apply in_app_iff. right.
    replace (i + S (length x)) with (S i + length x) by lia. apply IH.
Qed.

Lemma occurrences_none (p s : str) :
  occurrences p s = [] ->
  forall x1 x2, s = x1 ++ x2 -> strip p x2 = None.
Proof.
  intros H x1 x2 ->.
  destruct (strip p x2) as [r|] eqn:E; [|reflexivity].
  apply strip_Some in E. subst x2.
  pose proof (occurrences_from_complete p x1 r 0) as Hin.
  unfold occurrences in H. rewrite H in Hin. destruct Hin.
Qed.

Lemma occurrences_single (p s : str) (n : nat) :
  occurrences p s = [n] ->
  forall x y, s = x ++ p ++ y -> length x = n.
Proof.
  intros H x y ->.
  pose proof (occurrences_from_complete p x y 0) as Hin.
  unfold occurrences in H. rewrite H in Hin.
  destruct Hin as [E|[]]. simpl in E. symmetry. exact E.
Qed.

(** ** A name that occurs nowhere *)

Lemma re_sub_absent name pat tmpl s :
  headed name pat -> occurrences (header name) s = [] ->
  re_sub pat tmpl s = s.
Proof.
  intros Hh Ho. apply (re_sub_copy_all name); [exact Hh|].
  apply occurrences_none. exact Ho.
Qed.

(** C4: when the text [model X {] occurs nowhere in the document, the
    three passes match nothing and [add_organization_id_to_model] returns
    the document as it is.  [X] ranges over the names that stand for
    themselves in a pattern. *)
Theorem absent_model_unchanged (content X : str) :
  plain_name X = true ->
  occurrences (header X) content = [] ->
  field_pass X content = content /\
  relation_pass X content = content /\
  index_pass X content = content /\
  add_organization_id_to_model content X = Some content.
Proof.
  intros Hp Ho.
  assert (H1 : field_pass X content = content)
    by (apply (re_sub_absent X); [apply model_pattern_headed | exact Ho]).
  assert (H2 : relation_pass X content = content)
    by (apply (re_sub_absent X); [apply relation_pattern_headed | exact Ho]).
  assert (H3 : index_pass X content = content)
    by (apply (re_sub_absent X); [apply index_pattern_headed | exact Ho]).
  repeat split; try assumption.
  unfold add_organization_id_to_model. rewrite Hp, H1, H2, H3. reflexivity.
Qed.

Lemma absent_model_unchanged_witness :
  add_organization_id_to_model fixture (chars "Task") = Some fixture.
Proof.
  apply (absent_model_unchanged fixture (chars "Task"));
    vm_compute; reflexivity.
Defined.

(** ** Insertion only *)

Lemma expand_insert (t : str) (m : rmatch) :
  expand [TGroup1; TText t; TGroup2] m = group1 m ++ t ++ group2 m.
Proof. simpl. rewrite app_nil_r. reflexivity. Qed.

Lemma sub_scan_sublist (fuel : nat) (pat : pattern) (t s : str) :
  s `sublist_of` sub_scan fuel pat [TGroup1; TText t; TGroup2] s.
Proof.
  revert s. induction fuel as [|fuel IH]; intros s; cbn [sub_scan];
    [reflexivity|].
  destruct (re_match pat s) as [m|] eqn:Hm.
  - apply re_match_sound in Hm as (Hs & _ & _).
    rewrite Hs at 1. rewrite expand_insert, <- !app_assoc.
    apply sublist_app; [reflexivity|].
    apply sublist_inserts_l, sublist_app; [reflexivity | apply IH].
  - destruct s as [|c s]; [reflexivity|].
    apply sublist_skip, IH.
Qed.

(** C10: [add_organization_id_to_model] only inserts text.  The result is
    at least as long as the input, and the input is what is left of the
    result when the inserted characters are taken out, in the same
    order. *)
Theorem add_organization_id_inserts_only (content X : str) :
  plain_name X = true ->
  exists result,
    add_organization_id_to_model content X = Some result /\
    length content <= length result /\
    content `sublist_of` result.
Proof.
  intros Hp. unfold add_organization_id_to_model. rewrite Hp.
  eexists. split; [reflexivity|].
  assert (Hsub : content `sublist_of`
            index_pass X (relation_pass X (field_pass X content))).
  { unfold index_pass, relation_pass, field_pass, re_sub.
    etransitivity; [apply sub_scan_sublist|].
    etransitivity; [apply sub_scan_sublist|].
    apply sub_scan_sublist. }
  split; [apply sublist_length|]; exact Hsub.
Qed.

Lemma add_organization_id_inserts_only_witness :
  exists result,
    add_organization_id_to_model fixture (chars "Segment") = Some result /\
    length fixture <= length result /\
    fixture `sublist_of` result.
Proof.
  apply (add_organization_id_inserts_only fixture (chars "Segment")).
  vm_compute. reflexivity.
Defined.

(** ** The order of the attempts *)

Lemma flat_map_map {A B C : Type} (f : B -> list C) (g : A -> B) l :
  flat_map f (map g l) = flat_map (fun x => f (g x)) l.
Proof. induction l as [|x l IH]; simpl; [|rewrite IH]; reflexivity. Qed.

Lemma flat_map_flat_map {A B C : Type} (f : B -> list C) (g : A -> list B) l :
  flat_map f (flat_map g l) = flat_map (fun x => flat_map f (g x)) l.
Proof.
  induction l as [|x l IH]; simpl; [reflexivity|].
  rewrite flat_map_app, IH. reflexivity.
Qed.

Lemma flat_map_single {A B : Type} (f : A -> B) l :
  flat_map (fun x => [f x]) l = map f l.
Proof. induction l as [|x l IH]; simpl; [|rewrite IH]; reflexivity. Qed.

Section MatchK.
Context {R : Type}.
Implicit Types (k : str -> str -> list R) (rest : list atom).

Lemma match_k_nil s k : match_k [] s k = k [] s.
Proof. unfold match_k. simpl. apply app_nil_r. Qed.

Lemma match_k_cons a rest s k :
  match_k (a :: rest) s k =
  flat_map (fun r => match_k rest (snd r) (fun m s' => k (fst r ++ m) s'))
           (match_atom a s).
Proof.
  unfold match_k. simpl. rewrite flat_map_flat_map.
  apply flat_map_ext. intros [m1 s1]. simpl.
  rewrite flat_map_map. reflexivity.
Qed.

Lemma match_k_ext atoms s k k' :
  (forall m s', k m s' = k' m s') -> match_k atoms s k = match_k atoms s k'.
Proof. intros H. unfold match_k. apply flat_map_ext. intros []; apply H. Qed.

Lemma match_k_sound atoms s k r :
  In r (match_k atoms s k) ->
  exists m s', s = m ++ s' /\ seq_matches atoms m /\ In r (k m s').
Proof.
  unfold match_k. intros H.
  apply in_flat_map in H as [[m s'] [H1 H2]].
  apply match_seq_sound in H1 as [-> Hm]. eauto.
Qed.

Lemma match_k_empty atoms s k :
  (forall m s', s = m ++ s' -> seq_matches atoms m -> k m s' = []) ->
  match_k atoms s k = [].
Proof.
  intros H. destruct (match_k atoms s k) as [|r l] eqn:E; [reflexivity|].
  assert (Hin : In r (match_k atoms s k)) by (rewrite E; left; reflexivity).
  apply match_k_sound in Hin as (m & s' & Hs & Hm & Hin).
  rewrite (H m s' Hs Hm) in Hin. destruct Hin.
Qed.

Lemma match_k_lit l rest z k :
  match_k (Lit l :: rest) (l ++ z) k =
  match_k rest z (fun m s' => k (l ++ m) s').
Proof.
  rewrite match_k_cons. simpl. rewrite strip_app_same. simpl.
  apply app_nil_r.
Qed.

Lemma match_k_lit_fail l rest s k :
  strip l s = None -> match_k (Lit l :: rest) s k = [].
Proof. intros H. rewrite match_k_cons. simpl. rewrite H. reflexivity. Qed.

Lemma match_k_one p rest c s k :
  p c = true ->
  match_k (One p :: rest) (c :: s) k =
  match_k rest s (fun m s' => k (c :: m) s').
Proof.
  intros H. rewrite match_k_cons. simpl. rewrite H. simpl.
  apply app_nil_r.
Qed.

Lemma match_k_lazy p rest s k :
  match_k (StarLazy p :: rest) s k =
  match_k rest s k ++
  match s with
  | c :: s' =>
      if p c then match_k (StarLazy p :: rest) s' (fun m s'' => k (c :: m) s'')
      else []
  | [] => []
  end.
Proof.
  rewrite match_k_cons.
  destruct s as [|c s]; simpl; [reflexivity|].
  f_equal. destruct (p c); [|reflexivity].
  rewrite match_k_cons. simpl. rewrite flat_map_map. reflexivity.
Qed.

(** [class*?] goes past a stretch [x] of the class when what follows in
    the pattern fails at every earlier point. *)
Lemma match_k_lazy_skip p rest x y k :
  forallb p x = true ->
  (forall x1 x2, x = x1 ++ x2 -> x2 <> [] ->
     match_k rest (x2 ++ y) (fun m s' => k (x1 ++ m) s') = []) ->
  match_k (StarLazy p :: rest) (x ++ y) k =
  match_k (StarLazy p :: rest) y (fun m s' => k (x ++ m) s').
Proof.
  revert k. induction x as [|c x IH]; intros k Hp Hskip.
  - reflexivity.
  - simpl in Hp. apply andb_true_iff in Hp as [Hc Hx].
    rewrite match_k_lazy. simpl. rewrite Hc.
    assert (E : match_k rest (c :: x ++ y) k = [])
      by exact (Hskip [] (c :: x) eq_refl ltac:(discriminate)).
    rewrite E. simpl.
    rewrite IH; [reflexivity | exact Hx |].
    intros x1 x2 -> Hne. apply (Hskip (c :: x1) x2 eq_refl Hne).
Qed.

Lemma head_app_some (l1 l2 : list R) r :
  head l1 = Some r -> head (l1 ++ l2) = Some r.
Proof. destruct l1; simpl; [discriminate | auto]. Qed.

Lemma match_k_lazy_first p rest x y k r :
  forallb p x = true ->
  (forall x1 x2, x = x1 ++ x2 -> x2 <> [] ->
     match_k rest (x2 ++ y) (fun m s' => k (x1 ++ m) s') = []) ->
  head (match_k rest y (fun m s' => k (x ++ m) s')) = Some r ->
  head (match_k (StarLazy p :: rest) (x ++ y) k) = Some r.
Proof.
  intros Hp Hskip Hr.
  rewrite match_k_lazy_skip by assumption.
  rewrite match_k_lazy. apply head_app_some. exact Hr.
Qed.

Lemma greedy_run_head p w y :
  forallb p w = true -> stops p y = true ->
  exists l, greedy_run p (w ++ y) = (w, y) :: l.
Proof.
  intros Hw Hy. induction w as [|c w IH]; simpl.
  - destruct y as [|d y]; simpl in *; [eauto|].
    apply negb_true_iff in Hy. rewrite Hy. eauto.
  - simpl in Hw. apply andb_true_iff in Hw as [Hc Hw]. rewrite Hc.
    destruct (IH Hw) as [l ->]. simpl. eauto.
Qed.

Lemma match_k_plus_first p rest w y k r :
  w <> [] -> forallb p w = true -> stops p y = true ->
  head (match_k rest y (fun m s' => k (w ++ m) s')) = Some r ->
  head (match_k (PlusGreedy p :: rest) (w ++ y) k) = Some r.
Proof.
  intros Hne Hw Hy Hr. rewrite match_k_cons.
  destruct w as [|c w]; [congruence|]. simpl in *.
  apply andb_true_iff in Hw as [Hc Hw]. rewrite Hc.
  destruct (greedy_run_head p w y Hw Hy) as [l ->]. simpl.
  apply head_app_some. exact Hr.
Qed.

Lemma match_k_star_first p rest w y k r :
  forallb p w = true -> stops p y = true ->
  head (match_k rest y (fun m s' => k (w ++ m) s')) = Some r ->
  head (match_k (StarGreedy p :: rest) (w ++ y) k) = Some r.
Proof.
  intros Hw Hy Hr. rewrite match_k_cons. simpl.
  destruct (greedy_run_head p w y Hw Hy) as [l ->]. simpl.
  apply head_app_some. exact Hr.
Qed.
End MatchK.

Lemma match_groups_k pat s :
  match_groups pat s =
  match_k (grp1 pat) s (fun m1 s1 =>
    match_k (grp2 pat) s1 (fun m2 s2 => [RMatch m1 m2 s2])).
Proof.
  unfold match_groups, match_k. apply flat_map_ext. intros [m1 s1].
  simpl. symmetry. apply flat_map_single.
Qed.

Lemma match_k_header {R : Type} name rest s (k : str -> str -> list R) :
  match_k (header_atoms name ++ rest) s k =
  match strip (header name) s with
  | Some r => match_k rest r (fun m s' => k (header name ++ m) s')
  | None => []
  end.
Proof.
  unfold match_k. rewrite header_atoms_match.
  destruct (strip (header name) s); [|reflexivity].
  rewrite flat_map_map. reflexivity.
Qed.

(** ** Where a literal can start *)

Lemma strip_extend (l u v r : str) :
  strip l u = Some r -> strip l (u ++ v) = Some (r ++ v).
Proof.
  intros H. apply strip_Some in H. subst u.
  rewrite <- app_assoc. apply strip_app_same.
Qed.

Lemma strip_local (l u v r : str) :
  strip l (u ++ v) = Some r -> length l <= length u ->
  exists r', strip l u = Some r' /\ r = r' ++ v.
Proof.
  revert u. induction l as [|a l IH]; intros u H Hlen; simpl in *.
  - inversion H. eauto.
  - destruct u as [|c u]; simpl in *; [lia|].
    destruct (a =? c)%N; [|discriminate].
    apply IH; [exact H | lia].
Qed.

(** A literal without the character [c] cannot reach across it. *)
Lemma strip_barrier (l u v r : str) (c : char) :
  ~ In c l -> strip l (u ++ c :: v) = Some r ->
  exists r', strip l u = Some r' /\ r = r' ++ c :: v.
Proof.
  revert u. induction l as [|a l IH]; intros u Hc H; simpl in *.
  - inversion H. eauto.
  - destruct u as [|d u]; simpl in *.
    + destruct (N.eqb_spec a c) as [->|]; [|discriminate].
      exfalso. apply Hc. left. reflexivity.
    + destruct (a =? d)%N; [|discriminate].
      apply IH; [tauto | exact H].
Qed.

Lemma strip_head_mismatch (l s : str) (a c : char) :
  a <> c -> strip (a :: l) (c :: s) = None.
Proof. intros H. simpl. destruct (N.eqb_spec a c); congruence. Qed.

Lemma first_occurrence_skip (l x z : str) :
  occurrences l (x ++ l) = [length x] -> starts_nowhere l x (l ++ z).
Proof.
  intros Ho x1 x2 -> Hne.
  destruct (strip l (x2 ++ l ++ z)) as [r|] eqn:E; [|reflexivity].
  exfalso. rewrite app_assoc in E.
  apply strip_local in E as (r' & E & _); [|rewrite length_app; lia].
  apply strip_Some in E.
  assert (Hlen : length x1 = length (x1 ++ x2)).
  { apply (occurrences_single _ _ _ Ho x1 r').
    rewrite <- app_assoc, E. reflexivity. }
  rewrite length_app in Hlen.
  destruct x2; [congruence | simpl in Hlen; lia].
Qed.

Lemma unique_occurrence_before (l pre z : str) :
  occurrences l (pre ++ l ++ z) = [length pre] ->
  starts_nowhere l pre (l ++ z).
Proof.
  intros Ho x1 x2 -> Hne.
  destruct (strip l (x2 ++ l ++ z)) as [r|] eqn:E; [|reflexivity].
  exfalso. apply strip_Some in E.
  assert (Hlen : length x1 = length (x1 ++ x2)).
  { apply (occurrences_single _ _ _ Ho x1 r).
    rewrite <- app_assoc, E. reflexivity. }
  rewrite length_app in Hlen.
  destruct x2; [congruence | simpl in Hlen; lia].
Qed.

Lemma unique_occurrence_after (l pre z : str) :
  occurrences l (pre ++ l ++ z) = [length pre] ->
  forall z1 z2, l ++ z = z1 ++ z2 -> z1 <> [] -> strip l z2 = None.
Proof.
  intros Ho z1 z2 Hz Hne.
  destruct (strip l z2) as [r|] eqn:E; [|reflexivity].
  exfalso. apply strip_Some in E. subst z2.
  assert (Hlen : length (pre ++ z1) = length pre).
  { apply (occurrences_single _ _ _ Ho (pre ++ z1) r).
    rewrite Hz, <- app_assoc. reflexivity. }
  rewrite length_app in Hlen.
  destruct z1; [congruence | simpl in Hlen; lia].
Qed.

(** ** Names and braces *)

Lemma plain_name_no_brace (X : str) :
  plain_name X = true -> ~ In 125%N (header X).
Proof.
  intros Hp Hin. unfold header in Hin.
  apply in_app_iff in Hin as [Hin|Hin].
  { revert Hin. vm_compute. intuition discriminate. }
  apply in_app_iff in Hin as [Hin|Hin].
  - unfold plain_name in Hp. rewrite forallb_forall in Hp.
    apply Hp in Hin. vm_compute in Hin. discriminate.
  - revert Hin. vm_compute. intuition discriminate.
Qed.

Lemma not_brace_In (s : str) :
  forallb not_brace s = true <-> ~ In 125%N s.
Proof.
  induction s as [|c s IH]; simpl; [tauto|].
  rewrite andb_true_iff, IH. unfold not_brace.
  destruct (N.eqb_spec c 125); simpl; intuition congruence.
Qed.

Lemma not_brace_app (s t : str) :
  forallb not_brace (s ++ t) = true <->
  forallb not_brace s = true /\ forallb not_brace t = true.
Proof. rewrite forallb_app, andb_true_iff. tauto. Qed.

Lemma header_not_brace (X : str) :
  plain_name X = true -> forallb not_brace (header X) = true.
Proof. intros H. apply not_brace_In, plain_name_no_brace, H. Qed.

Lemma header_no_start_at_brace (X t : str) :
  strip (header X) (125%N :: t) = None.
Proof. unfold header. simpl. reflexivity. Qed.

Lemma occurrences_from_nil_shift (p s : str) (i j : nat) :
  occurrences_from i p s = [] -> occurrences_from j p s = [].
Proof.
  revert i j. induction s as [|c s IH]; intros i j; simpl.
  - destruct (strip p []); [discriminate | reflexivity].
  - destruct (strip p (c :: s)); [discriminate|]. simpl. apply IH.
Qed.

Lemma occursb_cons (p s : str) (c : char) :
  occursb p (c :: s) =
  match strip p (c :: s) with
  | Some _ => true
  | None => occursb p s
  end.
Proof.
  unfold occursb, occurrences. simpl.
  destruct (strip p (c :: s)); simpl; [reflexivity|].
  destruct (occurrences_from 1 p s) eqn:E1, (occurrences_from 0 p s) eqn:E0;
    try reflexivity.
  - rewrite (occurrences_from_nil_shift _ _ _ 0 E1) in E0. discriminate.
  - rewrite (occurrences_from_nil_shift _ _ _ 1 E0) in E1. discriminate.
Qed.

Lemma occursb_app (p x y : str) : occursb p (x ++ p ++ y) = true.
Proof.
  unfold occursb, occurrences.
  pose proof (occurrences_from_complete p x y 0) as H.
  destruct (occurrences_from 0 p (x ++ p ++ y)); [destruct H | reflexivity].
Qed.

Lemma occursb_true_split (p s : str) :
  occursb p s = true -> exists x y, s = x ++ p ++ y.
Proof.
  induction s as [|c s IH].
  - unfold occursb, occurrences. simpl.
    destruct (strip p []) as [r|] eqn:E; [|discriminate].
    intros _. apply strip_Some in E. exists [], r. exact E.
  - rewrite occursb_cons.
    destruct (strip p (c :: s)) as [r|] eqn:E.
    + intros _. apply strip_Some in E. exists [], r. exact E.
    + intros H. destruct (IH H) as (x & y & ->).
      exists (c :: x), y. reflexivity.
Qed.

Lemma occursb_longer (l l' s : str) :
  occursb l s = false -> occursb (l ++ l') s = false.
Proof.
  intros H. destruct (occursb (l ++ l') s) eqn:E; [|reflexivity].
  apply occursb_true_split in E as (x & y & ->).
  rewrite <- app_assoc, occursb_app in H. discriminate.
Qed.

(** A pass changes nothing in a document that lacks one of the literals
    of its pattern. *)

(** ** The index pass *)

Lemma index_match (X seg post : str) :
  plain_name X = true -> forallb not_brace seg = true ->
  re_match (index_pattern X) (header X ++ seg ++ close ++ post) =
  Some (RMatch (header X ++ seg) close post).
Proof.
  intros Hp Hseg. unfold re_match. rewrite match_groups_k.
  cbn [index_pattern grp1 grp2].
  rewrite match_k_header, strip_app_same.
  apply match_k_lazy_first; [exact Hseg | |].
  - intros x1 x2 -> Hne. rewrite match_k_nil.
    apply match_k_lit_fail.
    destruct x2 as [|c x2]; [congruence|].
    apply not_brace_app in Hseg as [_ Hx2]. simpl in Hx2.
    apply andb_true_iff in Hx2 as [Hc _].
    change close with [125%N]. apply strip_head_mismatch.
    intros <-. vm_compute in Hc. discriminate.
  - rewrite match_k_nil. unfold close at 1.
    rewrite match_k_lit, match_k_nil, !app_nil_r. reflexivity.
Qed.

Lemma index_no_match (X s : str) :
  forallb not_brace s = true -> re_match (index_pattern X) s = None.
Proof.
  intros Hs. destruct (re_match (index_pattern X) s) as [m|] eqn:E;
    [|reflexivity].
  exfalso. apply re_match_sound in E as (Es & _ & H2).
  simpl in H2. destruct H2 as (m1 & m2 & E2 & -> & ->).
  apply not_brace_In in Hs. apply Hs. rewrite Es, E2.
  apply in_app_iff. right. left. reflexivity.
Qed.

(** Text without a closing brace goes through the index pass as it
    is. *)
Lemma index_pass_open (X s : str) :
  forallb not_brace s = true -> index_pass X s = s.
Proof.
  intros Hs. apply (re_sub_pass_all X); [apply index_pattern_headed|].
  intros x1 x2 ->. apply index_no_match.
  apply not_brace_app in Hs. tauto.
Qed.

(** The index pass on a stretch [seg] of text that runs up to a closing
    brace: the annotation goes in front of the brace exactly when the
    header occurs in the stretch. *)
Lemma index_pass_segment (X seg rest : str) :
  plain_name X = true -> forallb not_brace seg = true ->
  index_pass X (seg ++ close ++ rest) =
  seg ++ (if occursb (header X) seg then index_text else []) ++
  close ++ index_pass X rest.
Proof.
  intros Hp. induction seg as [|c seg IH]; intros Hseg.
  - simpl. unfold index_pass.
    rewrite (re_sub_skip X); [reflexivity | apply index_pattern_headed |].
    apply (headed_no_header X); [apply index_pattern_headed|].
    apply header_no_start_at_brace.
  - destruct (strip (header X) ((c :: seg) ++ close ++ rest)) as [r|] eqn:E.
    + apply strip_barrier in E as (r' & E & _);
        [|apply plain_name_no_brace, Hp].
      rewrite occursb_cons, E.
      apply strip_Some in E. rewrite E in *.
      apply not_brace_app in Hseg as [_ Hr'].
      unfold index_pass, index_replacement. rewrite <- app_assoc.
      rewrite (re_sub_match X _ _ (index_pattern_headed X) _ _
                 (index_match X r' rest Hp Hr')).
      rewrite expand_insert. cbn [group1 group2 after].
      rewrite <- !app_assoc. reflexivity.
    + rewrite occursb_cons.
      rewrite (strip_None_app _ _ _ E).
      simpl in Hseg. apply andb_true_iff in Hseg as [_ Hseg].
      unfold index_pass in *. simpl.
      rewrite (re_sub_skip X); [| apply index_pattern_headed |].
      * f_equal. apply IH. exact Hseg.
      * apply (headed_no_header X); [apply index_pattern_headed | exact E].
Qed.

(** A text either has no closing brace or splits at its first one. *)
Lemma first_brace (s : str) :
  forallb not_brace s = true \/
  exists seg t, s = seg ++ close ++ t /\ forallb not_brace seg = true.
Proof.
  induction s as [|c s IH]; [left; reflexivity|].
  destruct (N.eqb_spec c 125) as [->|Hc].
  - right. exists [], s. split; reflexivity.
  - destruct IH as [IH|(seg & t & -> & Hseg)].
    + left. simpl. rewrite IH. unfold not_brace.
      destruct (N.eqb_spec c 125); [congruence | reflexivity].
    + right. exists (c :: seg), t. split; [reflexivity|].
      simpl. rewrite Hseg. unfold not_brace.
      destruct (N.eqb_spec c 125); [congruence | reflexivity].
Qed.

(** The index pass needs the block markers only: a header, a body
    without a closing brace, and the closing brace. *)
Lemma index_pass_block (X pre body post : str) :
  plain_name X = true -> forallb not_brace body = true ->
  index_pass X (pre ++ header X ++ body ++ close ++ post) =
  index_pass X pre ++ header X ++ body ++ index_text ++ close ++
  index_pass X post.
Proof.
  intros Hp Hbody.
  remember (length pre) as n eqn:Hn. revert pre Hn.
  induction n as [n IH] using lt_wf_ind. intros pre Hn.
  destruct (first_brace pre) as [Hpre|(seg & t & -> & Hseg)].
  - rewrite (index_pass_open X pre Hpre).
    rewrite !app_assoc, <- (app_assoc _ close post).
    rewrite index_pass_segment; [|exact Hp|].
    + rewrite <- !app_assoc, occursb_app. reflexivity.
    + rewrite !not_brace_app. auto using header_not_brace.
  - rewrite <- !app_assoc.
    rewrite index_pass_segment by assumption.
    rewrite (index_pass_segment X seg t) by assumption.
    rewrite <- !app_assoc. do 3 f_equal.
    apply (IH (length t)); [|reflexivity].
    rewrite Hn, !length_app. simpl. lia.
Qed.

(** ** Character classes against one another *)

Lemma space_not_brace (c : char) : is_space c = true -> not_brace c = true.
Proof. intros H. class_facts. Qed.

Lemma ident_start_not_space (c : char) :
  ident_start c = true -> is_space c = false.
Proof. intros H. class_facts. Qed.

Lemma space_not_ident (c : char) : is_space c = true -> ident_char c = false.
Proof. intros H. class_facts. Qed.

Lemma ident_not_brace (c : char) : ident_char c = true -> not_brace c = true.
Proof. intros H. class_facts. Qed.

Lemma ident_start_char (c : char) : ident_start c = true -> ident_char c = true.
Proof. intros H. unfold ident_char. rewrite H. reflexivity. Qed.

Lemma forallb_impl (p q : char -> bool) (s : str) :
  (forall c, p c = true -> q c = true) ->
  forallb p s = true -> forallb q s = true.
Proof. rewrite !forallb_forall. auto. Qed.

Lemma tail_not_brace (d : str) :
  forallb (fun ch => not_brace ch && negb (is_space ch)) d = true ->
  forallb not_brace d = true.
Proof.
  apply forallb_impl. intros ch H. apply andb_true_iff in H. tauto.
Qed.

Lemma spaces_not_brace (w : str) :
  forallb is_space w = true -> forallb not_brace w = true.
Proof.
  rewrite !forallb_forall. intros H c Hc. apply space_not_brace, H, Hc.
Qed.

Lemma stops_app (p : char -> bool) (e l r : str) :
  l <> [] -> stops p (e ++ l) = true -> stops p (e ++ l ++ r) = true.
Proof.
  intros Hl. destruct e as [|c e]; [|auto].
  destruct l as [|c l]; [congruence | auto].
Qed.

Lemma stops_spaces (p : char -> bool) (w r : str) :
  w <> [] -> forallb is_space w = true ->
  (forall c, is_space c = true -> p c = false) ->
  stops p (w ++ r) = true.
Proof.
  intros Hne Hw Hp. destruct w as [|c w]; [congruence|].
  simpl in *. apply andb_true_iff in Hw as [Hc _].
  rewrite (Hp c Hc). reflexivity.
Qed.

(** ** The matcher in front of a closing brace *)

Lemma lazy_run_brace (p : char -> bool) (s t : str) :
  p 125%N = false ->
  lazy_run p (s ++ 125%N :: t) = map (behind_brace t) (lazy_run p s).
Proof.
  intros Hp. induction s as [|c s IH]; simpl.
  - rewrite Hp. reflexivity.
  - f_equal. destruct (p c); [|reflexivity].
    rewrite IH, !map_map. reflexivity.
Qed.

Lemma greedy_run_brace (p : char -> bool) (s t : str) :
  p 125%N = false ->
  greedy_run p (s ++ 125%N :: t) = map (behind_brace t) (greedy_run p s).
Proof.
  intros Hp. induction s as [|c s IH]; simpl.
  - rewrite Hp. reflexivity.
  - destruct (p c); [|reflexivity].
    rewrite IH, map_app, !map_map. reflexivity.
Qed.

Lemma match_atom_brace (a : atom) (s t : str) :
  atom_brace_free a ->
  match_atom a (s ++ 125%N :: t) = map (behind_brace t) (match_atom a s).
Proof.
  destruct a as [l|p|p|p|p]; simpl; intros Hf.
  - destruct (strip l s) as [r|] eqn:E.
    + rewrite (strip_extend _ _ (125%N :: t) _ E). reflexivity.
    + destruct (strip l (s ++ 125%N :: t)) as [r|] eqn:E'; [|reflexivity].
      apply strip_barrier in E' as (r' & E' & _);
        [congruence | apply not_brace_In, Hf].
  - destruct s as [|c s]; simpl; [rewrite Hf; reflexivity|].
    destruct (p c); reflexivity.
  - apply lazy_run_brace, Hf.
  - apply greedy_run_brace, Hf.
  - destruct s as [|c s]; simpl; [rewrite Hf; reflexivity|].
    destruct (p c); [|reflexivity].
    rewrite greedy_run_brace by exact Hf. rewrite !map_map. reflexivity.
Qed.

Lemma match_seq_brace (atoms : list atom) (s t : str) :
  Forall atom_brace_free atoms ->
  match_seq atoms (s ++ 125%N :: t) = map (behind_brace t) (match_seq atoms s).
Proof.
  intros Hf. revert s. induction Hf as [|a atoms Ha Hf IH]; intros s.
  - reflexivity.
  - simpl. rewrite (match_atom_brace a s t Ha), flat_map_map.
    rewrite <- flat_map_single, flat_map_flat_map.
    apply flat_map_ext. intros [m1 s1]. simpl.
    rewrite IH, flat_map_single, !map_map. reflexivity.
Qed.

Lemma re_match_brace (pat : pattern) (s t : str) :
  Forall atom_brace_free (grp1 pat) -> Forall atom_brace_free (grp2 pat) ->
  re_match pat (s ++ 125%N :: t) =
  match re_match pat s with
  | Some m => Some (RMatch (group1 m) (group2 m) (after m ++ 125%N :: t))
  | None => None
  end.
Proof.
  intros H1 H2. unfold re_match, match_groups.
  rewrite (match_seq_brace _ s t H1), flat_map_map.
  set (L := flat_map
              (fun r1 => map (fun r2 => RMatch (fst r1) (fst r2) (snd r2))
                             (match_seq (grp2 pat) (snd r1)))
              (match_seq (grp1 pat) s)).
  assert (E : flat_map
                (fun x => map (fun r2 => RMatch (fst (behind_brace t x))
                                                (fst r2) (snd r2))
                              (match_seq (grp2 pat) (snd (behind_brace t x))))
                (match_seq (grp1 pat) s) =
              map (fun m => RMatch (group1 m) (group2 m)
                                   (after m ++ 125%N :: t)) L).
  { unfold L. rewrite <- (flat_map_single _ (flat_map _ _)), flat_map_flat_map.
    apply flat_map_ext. intros [m1 s1]. simpl.
    rewrite (match_seq_brace _ s1 t H2), flat_map_single, !map_map.
    reflexivity. }
  rewrite E. destruct L; reflexivity.
Qed.

Lemma expand_groups (tmpl : list titem) (m m' : rmatch) :
  group1 m = group1 m' -> group2 m = group2 m' ->
  expand tmpl m = expand tmpl m'.
Proof.
  intros E1 E2. induction tmpl as [|[| |x] tmpl IH]; simpl;
    rewrite ?E1, ?E2, ?IH; reflexivity.
Qed.

(** [re.sub] with a pattern that cannot match a closing brace rewrites
    the text in front of a brace and the text behind it each on its
    own. *)
Lemma re_sub_brace (X : str) (pat : pattern) (tmpl : list titem) (s t : str) :
  headed X pat ->
  Forall atom_brace_free (grp1 pat) -> Forall atom_brace_free (grp2 pat) ->
  re_sub pat tmpl (s ++ 125%N :: t) =
  re_sub pat tmpl s ++ 125%N :: re_sub pat tmpl t.
Proof.
  intros Hh H1 H2. remember (length s) as n eqn:Hn. revert s Hn.
  induction n as [n IH] using lt_wf_ind. intros s Hn.
  pose proof (re_match_brace pat s t H1 H2) as Hm.
  destruct (re_match pat s) as [m|] eqn:E.
  - rewrite (re_sub_match X _ _ Hh _ _ Hm), (re_sub_match X _ _ Hh _ _ E).
    cbn [after].
    rewrite (expand_groups tmpl
               (RMatch (group1 m) (group2 m) (after m ++ 125%N :: t)) m
               eq_refl eq_refl).
    rewrite <- app_assoc. f_equal.
    apply (IH (length (after m))); [|reflexivity].
    rewrite Hn. apply (headed_consumes X pat s m Hh E).
  - destruct s as [|c s].
    + simpl in *. rewrite (re_sub_skip X _ _ Hh _ _ Hm).
      rewrite (re_sub_nil X _ _ Hh). reflexivity.
    + simpl in *. rewrite (re_sub_skip X _ _ Hh _ _ Hm).
      rewrite (re_sub_skip X _ _ Hh _ _ E). simpl. f_equal.
      apply (IH (length s)); [|reflexivity]. rewrite Hn. lia.
Qed.

Lemma plain_name_not_brace (X : str) :
  plain_name X = true -> forallb not_brace X = true.
Proof.
  unfold plain_name. apply forallb_impl. intros c Hc. unfold not_brace.
  destruct (N.eqb_spec c 125) as [->|]; [|reflexivity].
  vm_compute in Hc. discriminate.
Qed.

(** ** Insertions of a text *)

Lemma inserted_refl (t s : str) : inserted t 0 s s.
Proof. induction s; constructor; assumption. Qed.

Lemma inserted_app (t s1 r1 s2 r2 : str) (n1 n2 : nat) :
  inserted t n1 s1 r1 -> inserted t n2 s2 r2 ->
  inserted t (n1 + n2) (s1 ++ s2) (r1 ++ r2).
Proof.
  intros H1 H2. induction H1; simpl.
  - exact H2.
  - constructor. assumption.
  - rewrite <- app_assoc. constructor. assumption.
Qed.

Lemma inserted_length (t s r : str) (n : nat) :
  inserted t n s r -> length r = length s + n * length t.
Proof.
  induction 1; simpl; rewrite ?length_app; lia.
Qed.

Lemma count_char_app (c : char) (s t : str) :
  count_char c (s ++ t) = count_char c s + count_char c t.
Proof. apply count_occ_app. Qed.

Lemma inserted_count (t s r : str) (n : nat) (c : char) :
  count_char c t = 0 -> inserted t n s r -> count_char c r = count_char c s.
Proof.
  intros Hc. induction 1 as [|d s r n H IH|s r n H IH].
  - reflexivity.
  - unfold count_char in *. simpl. destruct (N.eq_dec d c); congruence.
  - rewrite count_char_app, Hc. exact IH.
Qed.

Lemma sub_scan_inserted (fuel : nat) (pat : pattern) (t s : str) :
  exists n, inserted t n s (sub_scan fuel pat [TGroup1; TText t; TGroup2] s).
Proof.
  revert s. induction fuel as [|fuel IH]; intros s; cbn [sub_scan].
  - exists 0. apply inserted_refl.
  - destruct (re_match pat s) as [m|] eqn:Hm.
    + apply re_match_sound in Hm as (Hs & _ & _).
      destruct (IH (after m)) as [n Hn].
      exists (0 + S (0 + n)). rewrite Hs at 1.
      rewrite expand_insert, <- !app_assoc.
      apply inserted_app; [apply inserted_refl|].
      constructor. apply inserted_app; [apply inserted_refl | exact Hn].
    + destruct s as [|c s]; [exists 0; constructor|].
      destruct (IH s) as [n Hn]. exists n. constructor. exact Hn.
Qed.

(** ** The field pass on a block *)

Lemma class_prefix_bound (p : char -> bool) (w s1 u s2 : str) (c : char) :
  forallb p w = true -> p c = false -> w ++ s1 = u ++ c :: s2 ->
  length w <= length u.
Proof.
  revert u. induction w as [|x w IH]; intros u Hw Hc E; simpl; [lia|].
  simpl in Hw. apply andb_true_iff in Hw as [Hx Hw].
  destruct u as [|y u]; simpl in E.
  - inversion E; subst. congruence.
  - inversion E; subst. simpl. apply le_n_S. eapply IH; eauto.
Qed.

Lemma app_prefix_split (u r v s : str) :
  u ++ r = v ++ s -> length v <= length u -> exists t, u = v ++ t.
Proof.
  revert u. induction v as [|x v IH]; intros u E Hlen; [eauto|].
  destruct u as [|y u]; simpl in *; [lia|].
  injection E as -> E. destruct (IH u E ltac:(lia)) as [t ->]. eauto.
Qed.

Lemma last_stops_snoc (p : char -> bool) (b : str) (c : char) :
  last_stops p (b ++ [c]) = negb (p c).
Proof. unfold last_stops. rewrite rev_app_distr. reflexivity. Qed.

Lemma forallb_last (p : char -> bool) (x : str) :
  x <> [] -> forallb p x = true ->
  exists x' c, x = x' ++ [c] /\ p c = true.
Proof.
  intros Hne Hx. destruct (exists_last Hne) as (x' & c & ->).
  rewrite forallb_app in Hx. apply andb_true_iff in Hx as [_ Hc].
  simpl in Hc. rewrite andb_true_r in Hc. eauto.
Qed.

Section FieldMatch.
Variables (X a w1 b w2 rest : str).

Hypothesis Ha : forallb not_brace a = true.
Hypothesis Hb : forallb not_brace b = true.
Hypothesis Hw1 : w1 <> [] /\ forallb is_space w1 = true.
Hypothesis Hw2 : w2 <> [] /\ forallb is_space w2 = true.
Hypothesis Hfirst_field :
  occurrences (chars "createdById") (a ++ chars "createdById") = [length a].
Hypothesis Hfirst_marker :
  occurrences marker ((a ++ chars "createdById" ++ w1 ++ chars "String" ++ b) ++ w2 ++ marker) =
  [length ((a ++ chars "createdById" ++ w1 ++ chars "String" ++ b) ++ w2)].
Hypothesis Hb_end : last_stops is_space b = true.

(** White space and the marker do not match before [w2]. *)
Lemma marker_not_earlier (x1 x2 m s' : str) :
  b = x1 ++ x2 -> x2 <> [] ->
  x2 ++ w2 ++ marker ++ rest = m ++ s' ->
  seq_matches [PlusGreedy is_space; Lit marker] m -> False.
Proof using Hfirst_marker Hb_end.
  intros Eb Hne E (w' & m2 & -> & [Hw'ne Hw'] & m3 & m4 & -> & -> & ->).
  rewrite app_nil_r, <- app_assoc in E.
  assert (Hlen : length w' <= length (x2 ++ w2)).
  { apply (class_prefix_bound is_space w' (marker ++ s') (x2 ++ w2)
             (tl marker ++ rest) 47%N Hw'); [reflexivity|].
    rewrite <- E, <- app_assoc. reflexivity. }
  assert (Hsplit : exists t, (x2 ++ w2) ++ marker = (w' ++ marker) ++ t).
  { apply (app_prefix_split _ rest _ s').
    - rewrite <- !app_assoc. exact E.
    - rewrite !length_app in *. lia. }
  destruct Hsplit as [t Ht].
  assert (Hpos : length (a ++ chars "createdById" ++ w1 ++ chars "String"
                           ++ x1 ++ w') = length ((a ++ chars "createdById" ++ w1 ++ chars "String" ++ b) ++ w2)).
  { apply (occurrences_single _ _ _ Hfirst_marker _ t).
    rewrite Eb, <- !app_assoc.
    do 5 f_equal. rewrite <- !app_assoc in Ht. exact Ht. }
  rewrite Eb, !length_app in Hpos.
  assert (Hw'eq : w' = x2 ++ w2).
  { rewrite <- (app_assoc w') in Ht.
    apply app_inj_1 in Ht as [Ht _]; [auto|].
    rewrite length_app. lia. }
  destruct (exists_last Hne) as (x2' & ch & Ex2).
  rewrite Ex2 in *. rewrite Hw'eq, !forallb_app in Hw'.
  simpl in Hw'. rewrite andb_true_r in Hw'.
  apply andb_true_iff in Hw' as [Hx2 _].
  apply andb_true_iff in Hx2 as [_ Hch].
  rewrite Eb, app_assoc, last_stops_snoc, Hch in Hb_end. discriminate.
Qed.

Lemma field_match :
  re_match (model_pattern X)
    (header X ++ (a ++ chars "createdById" ++ w1 ++ chars "String" ++ b) ++ w2 ++ marker ++ rest) =
  Some (RMatch (header X ++ (a ++ chars "createdById" ++ w1 ++ chars "String" ++ b)) (w2 ++ marker) rest).
Proof using Ha Hb Hw1 Hw2 Hfirst_field Hfirst_marker Hb_end.
  destruct Hw1 as [Hw1n Hw1s], Hw2 as [Hw2n Hw2s].
  unfold re_match. rewrite match_groups_k.
  cbn [model_pattern grp1 grp2].
  rewrite match_k_header, strip_app_same.
  rewrite <- !app_assoc.
  apply match_k_lazy_first; [exact Ha | |].
  { intros x1 x2 E Hne. apply match_k_lit_fail.
    apply (first_occurrence_skip _ _ _ Hfirst_field x1 x2 E Hne). }
  rewrite match_k_lit.
  apply match_k_plus_first; [exact Hw1n | exact Hw1s | reflexivity |].
  rewrite match_k_lit.
  apply match_k_lazy_first; [exact Hb | |].
  { intros x1 x2 E Hne. rewrite match_k_nil.
    apply match_k_empty. intros m s' Em Hm. exfalso.
    exact (marker_not_earlier x1 x2 m s' E Hne Em Hm). }
  rewrite match_k_nil.
  apply match_k_plus_first; [exact Hw2n | exact Hw2s | reflexivity |].
  rewrite match_k_lit, match_k_nil.
  rewrite ?app_nil_r, <- ?app_assoc. reflexivity.
Qed.
End FieldMatch.

(** The field pass on a document whose only block for [X] has the
    anchor field and the marker. *)
Lemma field_pass_block
    (X pre a w1 b w2 c post : str) :
  let block := a ++ chars "createdById" ++ w1 ++ chars "String" ++ b in
  let content :=
    pre ++ header X ++ block ++ w2 ++ marker ++ c ++ close ++ post in
  plain_name X = true ->
  occurrences (header X) content = [length pre] ->
  forallb not_brace a = true ->
  forallb not_brace b = true ->
  w1 <> [] /\ forallb is_space w1 = true ->
  w2 <> [] /\ forallb is_space w2 = true ->
  occurrences (chars "createdById") (a ++ chars "createdById") = [length a] ->
  occurrences marker (block ++ w2 ++ marker) = [length (block ++ w2)] ->
  last_stops is_space b = true ->
  field_pass X content =
  pre ++ header X ++ block ++ field_text ++ w2 ++ marker ++ c ++ close ++ post.
Proof.
  intros block content _ Huniq Ha Hb Hw1 Hw2 Hfield Hmarker Hbend.
  subst content. unfold field_pass.
  rewrite (re_sub_copy X);
    [| apply model_pattern_headed
     | apply unique_occurrence_before; exact Huniq].
  f_equal.
  rewrite (re_sub_match X _ _ (model_pattern_headed X) _ _
             (field_match X a w1 b w2 (c ++ close ++ post)
                Ha Hb Hw1 Hw2 Hfield Hmarker Hbend)).
  unfold replacement. rewrite expand_insert. cbn [group1 group2 after].
  fold block. rewrite <- !app_assoc. do 5 f_equal.
  apply (re_sub_copy_all X); [apply model_pattern_headed|].
  intros x1 x2 E.
  apply (unique_occurrence_after _ _ _ Huniq
           (header X ++ block ++ w2 ++ marker ++ x1) x2).
  - rewrite E, <- !app_assoc. reflexivity.
  - pose proof (header_length X). destruct (header X); simpl in *;
      [lia | discriminate].
Qed.

(** ** Attempts that end in the same match *)

Section SameMatch.
Context {R : Type}.
Implicit Types (k : str -> str -> list R) (r : R).

(** [class*?] may succeed before it has gone past [x], as long as every
    success on the way is the match [r]. *)
Lemma match_k_lazy_head p rest x y k r :
  forallb p x = true ->
  (forall x1 x2, x = x1 ++ x2 -> x2 <> [] ->
     match_k rest (x2 ++ y) (fun m s' => k (x1 ++ m) s') = [] \/
     head (match_k rest (x2 ++ y) (fun m s' => k (x1 ++ m) s')) = Some r) ->
  head (match_k rest y (fun m s' => k (x ++ m) s')) = Some r ->
  head (match_k (StarLazy p :: rest) (x ++ y) k) = Some r.
Proof.
  revert k. induction x as [|c x IH]; intros k Hp Hskip Hr.
  - rewrite match_k_lazy. apply head_app_some. exact Hr.
  - simpl in Hp. apply andb_true_iff in Hp as [Hc Hx].
    rewrite match_k_lazy. simpl. rewrite Hc.
    destruct (Hskip [] (c :: x) eq_refl ltac:(discriminate)) as [E|E].
    + change (match_k rest (c :: x ++ y) k = []) in E.
      rewrite E. simpl. apply IH; [exact Hx | | exact Hr].
      intros x1 x2 -> Hne. apply (Hskip (c :: x1) x2 eq_refl Hne).
    + apply head_app_some. exact E.
Qed.

Lemma match_k_plus_fail p rest s k :
  stops p s = true -> match_k (PlusGreedy p :: rest) s k = [].
Proof.
  intros Hs. rewrite match_k_cons. destruct s as [|c s]; [reflexivity|].
  simpl in *. apply negb_true_iff in Hs. rewrite Hs. reflexivity.
Qed.

(** Of the ways [class*] can match a run, only the longest leaves a
    rest that does not start with a character of the class. *)
Lemma greedy_run_only_longest p w y (F : str * str -> list R) :
  forallb p w = true -> stops p y = true ->
  (forall m c s, p c = true -> F (m, c :: s) = []) ->
  flat_map F (greedy_run p (w ++ y)) = F (w, y).
Proof.
  revert F. induction w as [|c w IH]; intros F Hw Hy HF.
  - simpl. destruct y as [|d y]; simpl in *; [apply app_nil_r|].
    apply negb_true_iff in Hy. rewrite Hy. simpl. apply app_nil_r.
  - simpl in Hw. apply andb_true_iff in Hw as [Hc Hw].
    cbn [greedy_run app]. rewrite Hc, flat_map_app, flat_map_map.
    cbn [flat_map].
    rewrite (HF _ _ _ Hc), !app_nil_r.
    rewrite (IH (fun q => F (cons_fst c q)) Hw Hy); [reflexivity|].
    intros m d s Hd. apply (HF (c :: m) d s Hd).
Qed.

(** [class+] in front of a literal that starts outside the class takes
    the whole run. *)
Lemma match_k_plus_lit p c0 l rest w y k :
  p c0 = false -> w <> [] -> forallb p w = true -> stops p y = true ->
  match_k (PlusGreedy p :: Lit (c0 :: l) :: rest) (w ++ y) k =
  match_k (Lit (c0 :: l) :: rest) y (fun m s' => k (w ++ m) s').
Proof.
  intros Hc0 Hne Hw Hy. rewrite match_k_cons.
  destruct w as [|c w]; [congruence|]. simpl in Hw.
  apply andb_true_iff in Hw as [Hc Hw]. simpl. rewrite Hc, flat_map_map.
  rewrite (greedy_run_only_longest p w y _ Hw Hy); [reflexivity|].
  intros m d s Hd. apply match_k_lit_fail. apply strip_head_mismatch.
  intros ->. congruence.
Qed.
End SameMatch.

(** A text starts with a run of white space, which may be empty. *)
Lemma leading_spaces (s : str) :
  exists ws r, s = ws ++ r /\ forallb is_space ws = true /\
               stops is_space r = true.
Proof.
  induction s as [|c s (ws & r & -> & Hws & Hr)].
  - exists [], []. auto.
  - destruct (is_space c) eqn:Hc.
    + exists (c :: ws), r. simpl. rewrite Hc. auto.
    + exists [], (c :: ws ++ r). simpl. rewrite Hc. auto.
Qed.

(** An anchor [createdById], white space, [String] that starts in front
    of another [createdById] ends in front of it. *)
Lemma anchor_ends_before (x2 z ws r2 : str) :
  x2 <> [] -> forallb is_space ws = true ->
  x2 ++ chars "createdById" ++ z =
    chars "createdById" ++ ws ++ chars "String" ++ r2 ->
  exists x3, x2 = chars "createdById" ++ ws ++ chars "String" ++ x3 /\
             r2 = x3 ++ chars "createdById" ++ z.
Proof.
  intros Hne Hws E.
  assert (E' : x2 ++ (chars "createdById" ++ z) =
               (chars "createdById" ++ ws ++ chars "String") ++ r2)
    by (rewrite E, <- !app_assoc; reflexivity).
  clear E. apply app_eq_app in E' as [l [[E1 E2]|[E1 E2]]].
  - exists l. split; [|exact E2]. rewrite E1, <- !app_assoc. reflexivity.
  - destruct l as [|c l].
    + exists []. rewrite app_nil_r in E1. rewrite app_nil_r.
      split; [symmetry; exact E1 | symmetry; exact E2].
    + exfalso.
      assert (Ec : c = 99%N)
        by (cbn in E2; inversion E2; reflexivity).
      subst c. destruct x2 as [|h x2]; [congruence|].
      assert (Hin : In 99%N (chars "reatedById" ++ ws ++ chars "String")).
      { cbn in E1. injection E1 as Eh E1.
        change (chars "reatedById" ++ ws ++ chars "String" = x2 ++ 99%N :: l)
          in E1.
        rewrite E1. apply in_elt. }
      rewrite !in_app_iff in Hin. destruct Hin as [H|[H|H]].
      * simpl in H. intuition discriminate.
      * rewrite forallb_forall in Hws. specialize (Hws _ H). discriminate.
      * simpl in H. intuition discriminate.
Qed.

(** ** The field pattern on a block with an anchor, wherever it is *)

Section FieldAnchor.
Variables (X B w2 rest : str).

Hypothesis HB : forallb not_brace B = true.
Hypothesis Hw2 : spaces w2.
Hypothesis Hfirst_marker :
  occurrences marker (B ++ w2 ++ marker) = [length (B ++ w2)].
Hypothesis HB_end : last_stops is_space B = true.

(** White space and the marker do not match in front of [w2]. *)
Lemma marker_not_before (x1 x2 m s' : str) :
  B = x1 ++ x2 -> x2 <> [] ->
  x2 ++ w2 ++ marker ++ rest = m ++ s' ->
  seq_matches [PlusGreedy is_space; Lit marker] m -> False.
Proof using Hfirst_marker HB_end.
  intros EB Hne E (w' & m2 & -> & [Hw'ne Hw'] & m3 & m4 & -> & -> & ->).
  rewrite app_nil_r, <- app_assoc in E.
  assert (Hlen : length w' <= length (x2 ++ w2)).
  { apply (class_prefix_bound is_space w' (marker ++ s') (x2 ++ w2)
             (tl marker ++ rest) 47%N Hw'); [reflexivity|].
    rewrite <- E, <- app_assoc. reflexivity. }
  assert (Hsplit : exists t, (x2 ++ w2) ++ marker = (w' ++ marker) ++ t).
  { apply (app_prefix_split _ rest _ s').
    - rewrite <- !app_assoc. exact E.
    - rewrite !length_app in *. lia. }
  destruct Hsplit as [t Ht].
  assert (Hpos : length (x1 ++ w') = length (B ++ w2)).
  { apply (occurrences_single _ _ _ Hfirst_marker _ t).
    rewrite EB, <- !app_assoc. f_equal.
    rewrite <- !app_assoc in Ht. exact Ht. }
  rewrite EB, !length_app in Hpos.
  assert (Hw'eq : w' = x2 ++ w2).
  { rewrite <- (app_assoc w') in Ht.
    apply app_inj_1 in Ht as [Ht _]; [auto|].
    rewrite length_app. lia. }
  destruct (exists_last Hne) as (x2' & ch & Ex2).
  rewrite Ex2 in *. rewrite Hw'eq, !forallb_app in Hw'.
  simpl in Hw'. rewrite andb_true_r in Hw'.
  apply andb_true_iff in Hw' as [Hx2 _].
  apply andb_true_iff in Hx2 as [_ Hch].
  rewrite EB, app_assoc, last_stops_snoc, Hch in HB_end. discriminate.
Qed.

(** From any point of the block, the rest of the field pattern finds the
    white space in front of the marker first. *)
Lemma lazy_marker_first (k : str -> str -> list rmatch) (G y0 v : str) :
  B = y0 ++ v ->
  (forall m s', k m s' =
     match_k [PlusGreedy is_space; Lit marker] s'
             (fun m2 s2 => [RMatch (G ++ m) m2 s2])) ->
  head (match_k [StarLazy not_brace] (v ++ w2 ++ marker ++ rest) k) =
  Some (RMatch (G ++ v) (w2 ++ marker) rest).
Proof using HB Hw2 Hfirst_marker HB_end.
  intros EB Hk. destruct Hw2 as [Hw2n Hw2s].
  assert (Hv : forallb not_brace v = true).
  { rewrite EB, not_brace_app in HB. tauto. }
  apply match_k_lazy_first; [exact Hv | |].
  { intros x1 x2 E Hne. rewrite match_k_nil, Hk.
    apply match_k_empty. intros m s' Em Hm. exfalso.
    apply (marker_not_before (y0 ++ x1) x2 m s'); auto.
    rewrite EB, E, <- app_assoc. reflexivity. }
  rewrite match_k_nil, Hk.
  apply match_k_plus_first; [exact Hw2n | exact Hw2s | reflexivity |].
  rewrite match_k_lit, match_k_nil.
  rewrite ?app_nil_r, <- ?app_assoc. reflexivity.
Qed.

Variables (a w1 b : str).
Hypothesis Hw1 : spaces w1.
Hypothesis HBa : B = a ++ chars "createdById" ++ w1 ++ chars "String" ++ b.

Lemma field_match_any :
  re_match (model_pattern X) (header X ++ B ++ w2 ++ marker ++ rest) =
  Some (RMatch (header X ++ B) (w2 ++ marker) rest).
Proof using HB Hw2 Hfirst_marker HB_end Hw1 HBa.
  destruct Hw1 as [Hw1n Hw1s].
  assert (Ha : forallb not_brace a = true).
  { rewrite HBa, not_brace_app in HB. tauto. }
  unfold re_match. rewrite match_groups_k.
  cbn [model_pattern grp1 grp2].
  rewrite match_k_header, strip_app_same.
  rewrite HBa at 1. rewrite <- !app_assoc.
  apply match_k_lazy_head; [exact Ha | |].
  - intros x1 x2 Ea Hne.
    destruct (strip (chars "createdById")
                (x2 ++ chars "createdById" ++ w1 ++ chars "String" ++ b
                   ++ w2 ++ marker ++ rest)) as [r0|] eqn:Hs0;
      [|left; apply match_k_lit_fail; exact Hs0].
    apply strip_Some in Hs0. rewrite Hs0, match_k_lit.
    destruct (leading_spaces r0) as (ws & r1 & -> & Hws & Hr1).
    destruct ws as [|c0 ws'] eqn:Ews;
      [left; apply match_k_plus_fail; exact Hr1|].
    rewrite <- Ews in *.
    assert (Hwsn : ws <> []) by (rewrite Ews; discriminate).
    clear Ews.
    change (chars "String") with (83%N :: chars "tring").
    rewrite (match_k_plus_lit is_space 83%N) by (auto; reflexivity).
    change (83%N :: chars "tring") with (chars "String").
    destruct (strip (chars "String") r1) as [r2|] eqn:Hs1;
      [|left; apply match_k_lit_fail; exact Hs1].
    apply strip_Some in Hs1. subst r1. rewrite match_k_lit.
    destruct (anchor_ends_before x2 _ ws r2 Hne Hws Hs0) as (x3 & Ex2 & Er2).
    right. subst r2.
    rewrite <- ?app_assoc.
    assert (Ev : x3 ++ chars "createdById" ++ w1 ++ chars "String" ++ b
                   ++ w2 ++ marker ++ rest =
                 (x3 ++ chars "createdById" ++ w1 ++ chars "String" ++ b)
                   ++ w2 ++ marker ++ rest)
      by (rewrite <- !app_assoc; reflexivity).
    rewrite Ev.
    rewrite (lazy_marker_first _
               (header X ++ x1 ++ chars "createdById" ++ ws ++ chars "String")
               (x1 ++ chars "createdById" ++ ws ++ chars "String")).
    + f_equal. f_equal. rewrite HBa, Ea, Ex2, <- !app_assoc. reflexivity.
    + rewrite HBa, Ea, Ex2, <- !app_assoc. reflexivity.
    + intros m s'. rewrite <- !app_assoc. reflexivity.
  - rewrite match_k_lit.
    apply match_k_plus_first; [exact Hw1n | exact Hw1s | reflexivity |].
    rewrite match_k_lit.
    rewrite (lazy_marker_first _
               (header X ++ a ++ chars "createdById" ++ w1 ++ chars "String")
               (a ++ chars "createdById" ++ w1 ++ chars "String") b).
    + f_equal. f_equal. rewrite HBa, <- !app_assoc. reflexivity.
    + rewrite HBa, <- !app_assoc. reflexivity.
    + intros m s'. rewrite <- !app_assoc. reflexivity.
Qed.
End FieldAnchor.

(** The field pass on a document.  In front of the block its header
    starts nowhere since the last closing brace; behind the marker the
    scan goes on. *)
Lemma field_pass_anchor (X p t a w1 b w2 c post : str) :
  let block := a ++ chars "createdById" ++ w1 ++ chars "String" ++ b in
  plain_name X = true ->
  p = [] \/ (exists p', p = p' ++ close) ->
  occurrences (header X) (t ++ header X) = [length t] ->
  forallb not_brace block = true ->
  spaces w1 -> spaces w2 ->
  last_stops is_space block = true ->
  occurrences marker (block ++ w2 ++ marker) = [length (block ++ w2)] ->
  field_pass X
    (p ++ t ++ header X ++ block ++ w2 ++ marker ++ c ++ close ++ post) =
  field_pass X p ++ t ++ header X ++ block ++ field_text ++ w2 ++ marker
    ++ field_pass X c ++ close ++ field_pass X post.
Proof.
  intros block Hp Hclosed Hfirst Hblock Hw1 Hw2 Hend Hmarker.
  pose proof (plain_name_not_brace X Hp) as HX.
  assert (Hbrace : forall u v, field_pass X (u ++ close ++ v) =
                               field_pass X u ++ close ++ field_pass X v).
  { intros u v. apply (re_sub_brace X); [apply model_pattern_headed | |];
      repeat constructor; exact HX. }
  assert (Hblk : field_pass X
                   (t ++ header X ++ block ++ w2 ++ marker ++ c ++ close
                      ++ post) =
                 t ++ header X ++ block ++ field_text ++ w2 ++ marker
                   ++ field_pass X c ++ close ++ field_pass X post).
  { rewrite <- Hbrace. unfold field_pass.
    rewrite (re_sub_copy X);
      [| apply model_pattern_headed
       | apply first_occurrence_skip; exact Hfirst].
    f_equal.
    rewrite (re_sub_match X _ _ (model_pattern_headed X) _ _
               (field_match_any X block w2 (c ++ close ++ post)
                  Hblock Hw2 Hmarker Hend a w1 b Hw1 eq_refl)).
    unfold replacement. rewrite expand_insert. cbn [group1 group2 after].
    rewrite <- !app_assoc. reflexivity. }
  assert (Hnil : field_pass X [] = [])
    by exact (re_sub_nil X _ _ (model_pattern_headed X)).
  destruct Hclosed as [->|[p' ->]].
  - rewrite Hnil. exact Hblk.
  - rewrite <- !app_assoc.
    rewrite (Hbrace p' (t ++ header X ++ block ++ w2 ++ marker ++ c ++ close
                          ++ post)), Hblk.
    replace (p' ++ close) with (p' ++ close ++ [])
      by (rewrite app_nil_r; reflexivity).
    rewrite (Hbrace p' []), Hnil, app_nil_r, <- !app_assoc. reflexivity.
Qed.

Lemma occursb_false_occurrences (l s : str) :
  occursb l s = false -> occurrences l s = [].
Proof. unfold occursb. destruct (occurrences l s); [reflexivity | discriminate]. Qed.





(** ** A literal across an inserted text *)

Lemma clash_strip (p t z : str) :
  clash p t = true -> strip p (t ++ z) = None.
Proof.
  revert t. induction p as [|a p IH]; intros t; simpl; [discriminate|].
  destruct t as [|c t]; simpl; [discriminate|].
  destruct (a =? c)%N; [apply IH | reflexivity].
Qed.

Lemma never_starts_in_spec (p t : str) :
  never_starts_in p t = true ->
  forall l l2 z, t = l ++ l2 -> l2 <> [] -> strip p (l2 ++ z) = None.
Proof.
  unfold never_starts_in. rewrite forallb_forall.
  intros H l l2 z -> Hne. apply clash_strip.
  specialize (H (length l)).
  rewrite drop_app_length in H. apply H.
  apply in_seq. rewrite length_app.
  destruct l2; [congruence | simpl; lia].
Qed.

Lemma marker_not_at_space (x z : str) :
  x <> [] -> forallb is_space x = true -> strip marker (x ++ z) = None.
Proof.
  intros Hne Hx. destruct x as [|ch x]; [congruence|].
  apply andb_true_iff in Hx as [Hch _].
  change marker with (47%N :: tl marker).
  change ((ch :: x) ++ z) with (ch :: (x ++ z)).
  apply strip_head_mismatch. intros <-. discriminate.
Qed.

(** Where the marker can start once the field line is in the text: the
    inserted line begins with a new line and holds no marker, and the
    white space behind it cannot begin one. *)
Lemma marker_after_insert (A w2 z : str) :
  occurrences marker (A ++ w2 ++ marker) = [length (A ++ w2)] ->
  forallb is_space w2 = true ->
  starts_nowhere marker (A ++ field_text ++ w2) (marker ++ z).
Proof.
  intros Ho Hw2 x1 x2 E Hne.
  apply app_eq_app in E as [l [[E1 E2]|[E1 E2]]].
  - (* [x2] starts in [A] *)
    subst x2. destruct l as [|ch l].
    { reflexivity. }
    destruct (strip marker (((ch :: l) ++ field_text ++ w2) ++ marker ++ z))
      as [r|] eqn:Es; [|reflexivity].
    exfalso. rewrite <- !app_assoc in Es.
    change field_text with (10%N :: tl field_text) in Es.
    apply strip_barrier in Es as (r' & Es & _);
      [|vm_compute; intuition discriminate].
    apply strip_Some in Es.
    assert (Hlen : length x1 = length (A ++ w2)).
    { apply (occurrences_single _ _ _ Ho x1 (r' ++ w2 ++ marker)).
      rewrite E1, Es, <- !app_assoc. reflexivity. }
    rewrite E1, !length_app in Hlen. simpl in Hlen. lia.
  - (* [x2] starts in the inserted line or in [w2] *)
    symmetry in E2. apply app_eq_app in E2 as [l' [[E3 E4]|[E3 E4]]].
    + (* in [w2] *)
      apply marker_not_at_space; [exact Hne|].
      rewrite E4, forallb_app in Hw2.
      apply andb_true_iff in Hw2 as [_ Hw2]. exact Hw2.
    + (* in the inserted line *)
      subst x2. destruct l' as [|ch l'].
      * apply marker_not_at_space; assumption.
      * rewrite <- app_assoc.
        apply (never_starts_in_spec marker field_text
                 ltac:(vm_compute; reflexivity) l (ch :: l'));
          [exact E3 | discriminate].
Qed.

(** ** The relation pass on a block *)

Section RelationMatch.
Variables (X A w2 c d w3 : str) (f0 : char) (fld w4 e rest : str).

Hypothesis HA : forallb not_brace A = true.
Hypothesis Hw2 : forallb is_space w2 = true.
Hypothesis Hfirst_marker :
  occurrences marker (A ++ w2 ++ marker) = [length (A ++ w2)].
Hypothesis Hc : forallb not_brace c = true.
Hypothesis Hfirst_relation :
  occurrences (chars "createdBy") (c ++ chars "createdBy") = [length c].
Hypothesis Hd : forallb (fun ch => not_brace ch && negb (is_space ch)) d = true.
Hypothesis Hw3 : w3 <> [] /\ forallb is_space w3 = true.
Hypothesis Hf0 : ident_start f0 = true.
Hypothesis Hfld : forallb ident_char fld = true.
Hypothesis Hw4 : w4 <> [] /\ forallb is_space w4 = true.
Hypothesis He : forallb not_brace e = true.
Hypothesis He_start : stops is_space (e ++ chars "[]") = true.
Hypothesis Hfirst_list :
  occurrences (chars "[]") (e ++ chars "[]") = [length e].

Lemma relation_match :
  re_match (relation_pattern X)
    (header X ++ (A ++ field_text ++ w2) ++ marker ++ c ++ chars "createdBy"
       ++ d ++ w3 ++ (f0 :: fld) ++ w4 ++ e ++ chars "[]" ++ rest) =
  Some (RMatch
          (header X ++ (A ++ field_text ++ w2) ++ marker ++ c
             ++ chars "createdBy" ++ d)
          (w3 ++ (f0 :: fld) ++ w4 ++ e ++ chars "[]")
          rest).
Proof using HA Hw2 Hfirst_marker Hc Hfirst_relation Hd Hw3 Hf0 Hfld Hw4
    He He_start Hfirst_list.
  destruct Hw3 as [Hw3n Hw3s], Hw4 as [Hw4n Hw4s].
  unfold re_match. rewrite match_groups_k.
  cbn [relation_pattern grp1 grp2].
  rewrite match_k_header, strip_app_same.
  apply match_k_lazy_first.
  { apply not_brace_app. split; [exact HA|].
    apply not_brace_app. split; [reflexivity|].
    apply spaces_not_brace, Hw2. }
  { intros x1 x2 E Hne. apply match_k_lit_fail.
    exact (marker_after_insert A w2 _ Hfirst_marker Hw2 x1 x2 E Hne). }
  rewrite match_k_lit.
  apply match_k_lazy_first; [exact Hc | |].
  { intros x1 x2 E Hne. apply match_k_lit_fail.
    apply (first_occurrence_skip _ _ _ Hfirst_relation x1 x2 E Hne). }
  rewrite match_k_lit.
  apply match_k_lazy_first.
  { rewrite forallb_forall in *. intros ch Hch.
    apply Hd in Hch. apply andb_true_iff in Hch. tauto. }
  { intros x1 x2 E Hne. rewrite match_k_nil, match_k_cons.
    destruct x2 as [|ch x2]; [congruence|].
    assert (Hch : is_space ch = false).
    { rewrite E, forallb_app in Hd. apply andb_true_iff in Hd as [_ Hx2].
      simpl in Hx2. apply andb_true_iff in Hx2 as [Hch _].
      apply andb_true_iff in Hch as [_ Hch].
      apply negb_true_iff in Hch. exact Hch. }
    cbn [match_atom app]. rewrite Hch. reflexivity. }
  rewrite match_k_nil.
  apply match_k_plus_first; [exact Hw3n | exact Hw3s | |].
  { cbn [app stops]. rewrite (ident_start_not_space _ Hf0). reflexivity. }
  change ((f0 :: fld) ++ w4 ++ e ++ chars "[]" ++ rest)
    with (f0 :: (fld ++ w4 ++ e ++ chars "[]" ++ rest)).
  rewrite match_k_one by exact Hf0.
  apply match_k_star_first; [exact Hfld | |].
  { apply stops_spaces; [exact Hw4n | exact Hw4s | apply space_not_ident]. }
  apply match_k_plus_first; [exact Hw4n | exact Hw4s | |].
  { apply stops_app; [discriminate | exact He_start]. }
  apply match_k_lazy_first; [exact He | |].
  { intros x1 x2 E Hne. apply match_k_lit_fail.
    apply (first_occurrence_skip _ _ _ Hfirst_list x1 x2 E Hne). }
  rewrite match_k_lit, match_k_nil.
  rewrite ?app_nil_r, <- ?app_assoc. reflexivity.
Qed.
End RelationMatch.

(** ** A document with one block for the name *)

Lemma starts_nowhere_any (l pre z z' : str) :
  starts_nowhere l pre (l ++ z) -> starts_nowhere l pre (l ++ z').
Proof.
  intros H x1 x2 E Hne.
  destruct (strip l (x2 ++ l ++ z')) as [r|] eqn:Es; [|reflexivity].
  rewrite app_assoc in Es.
  apply strip_local in Es as (r' & Es & _); [|rewrite length_app; lia].
  apply (strip_extend _ _ z) in Es. rewrite <- app_assoc in Es.
  rewrite (H x1 x2 E Hne) in Es. discriminate.
Qed.

Lemma unique_occurrence_pre (l pre z : str) :
  l <> [] -> occurrences l (pre ++ l ++ z) = [length pre] ->
  forall x1 x2, pre = x1 ++ x2 -> strip l x2 = None.
Proof.
  intros Hl Ho x1 x2 E.
  destruct (strip l x2) as [r|] eqn:Es; [|reflexivity].
  destruct x2 as [|ch x2].
  { destruct l; [congruence | discriminate]. }
  apply (strip_extend _ _ (l ++ z)) in Es.
  rewrite (unique_occurrence_before _ _ _ Ho x1 (ch :: x2) E) in Es;
    discriminate.
Qed.

Lemma unique_occurrence_post (l pre z1 z2 : str) :
  l <> [] -> occurrences l (pre ++ l ++ z1 ++ z2) = [length pre] ->
  forall x1 x2, z2 = x1 ++ x2 -> strip l x2 = None.
Proof.
  intros Hl Ho x1 x2 E.
  apply (unique_occurrence_after _ _ _ Ho (l ++ z1 ++ x1) x2).
  - rewrite E, <- !app_assoc. reflexivity.
  - destruct l; [congruence | discriminate].
Qed.

Lemma header_not_nil (X : str) : header X <> [].
Proof. pose proof (header_length X). destruct (header X); simpl in *; [lia | discriminate]. Qed.

Section OneBlock.
Variables (X pre post : str) (k : block).
Hypothesis Hwf : well_formed k.
Hypothesis Huniq :
  occurrences (header X) (pre ++ header X ++ body k ++ close ++ post)
  = [length pre].

Lemma one_block_field_pass :
  field_pass X (pre ++ header X ++ body k ++ close ++ post) =
  pre ++ header X ++ fields_text k ++ field_text ++ gap2 k ++ marker
    ++ relations_text k ++ list_text k ++ block_rest k ++ close ++ post.
Proof using Hwf Huniq.
  destruct Hwf as (Ha & Hb & _ & _ & _ & _ & Hw1 & Hw2 & _ & _ & _ & _
                   & Hfield & Hmarker & Hbend & _).
  pose proof (field_match X _ _ _ _
                (relations_text k ++ list_text k ++ block_rest k
                   ++ close ++ post)
                Ha Hb Hw1 Hw2 Hfield Hmarker Hbend) as Hm.
  apply (re_sub_match X _ replacement (model_pattern_headed X)) in Hm.
  unfold replacement in Hm at 2. rewrite expand_insert in Hm.
  cbn [group1 group2 after] in Hm.
  rewrite (re_sub_copy_all X _ _ (model_pattern_headed X)
             (relations_text k ++ list_text k ++ block_rest k
                ++ close ++ post)) in Hm.
  - unfold field_pass.
    rewrite (re_sub_copy X);
      [| apply model_pattern_headed
       | apply unique_occurrence_before; exact Huniq].
    f_equal. unfold body. fold (fields_text k) in Hm.
    rewrite <- !app_assoc in *. exact Hm.
  - apply (unique_occurrence_post (header X) pre
             (fields_text k ++ gap2 k ++ marker));
      [apply header_not_nil|].
    unfold body in Huniq. rewrite <- !app_assoc in *. exact Huniq.
Qed.
Lemma well_formed_fields_not_brace :
  forallb not_brace (fields_text k) = true.
Proof using Hwf.
  destruct Hwf as (Ha & Hb & _ & _ & _ & _ & [_ Hw1] & _).
  unfold fields_text. rewrite !forallb_app, Ha, Hb.
  rewrite (spaces_not_brace _ Hw1). reflexivity.
Qed.

Lemma well_formed_rewritten_not_brace :
  forallb not_brace
    (fields_text k ++ field_text ++ gap2 k ++ marker ++ relations_text k
       ++ relation_text ++ list_text k ++ block_rest k) = true.
Proof using Hwf.
  pose proof well_formed_fields_not_brace as Hf.
  destruct Hwf as (_ & _ & Hc & Hd & He & Hr & _ & [_ Hw2] & [_ Hw3]
                   & [_ Hw4] & Hn0 & Hn & _).
  unfold relations_text, list_text.
  rewrite !forallb_app, Hf, Hc, He, Hr.
  rewrite (spaces_not_brace _ Hw2), (spaces_not_brace _ Hw3),
    (spaces_not_brace _ Hw4).
  rewrite (tail_not_brace _ Hd).
  cbn [forallb].
  rewrite (ident_not_brace _ (ident_start_char _ Hn0)).
  rewrite (forallb_impl _ _ _ ident_not_brace Hn).
  reflexivity.
Qed.

Lemma one_block_relation_pass :
  relation_pass X
    (pre ++ header X ++ fields_text k ++ field_text ++ gap2 k ++ marker
       ++ relations_text k ++ list_text k ++ block_rest k ++ close ++ post) =
  pre ++ header X ++ fields_text k ++ field_text ++ gap2 k ++ marker
    ++ relations_text k ++ relation_text ++ list_text k ++ block_rest k
    ++ close ++ post.
Proof using Hwf Huniq.
  pose proof well_formed_fields_not_brace as HA.
  destruct Hwf as (_ & _ & Hc & Hd & He & _ & _ & [_ Hw2] & Hw3 & Hw4
                   & Hn0 & Hn & _ & Hmarker & _ & Hrel & Hes & Hlist).
  pose proof (relation_match X _ _ _ _ _ _ _ _ _
                (block_rest k ++ close ++ post)
                HA Hw2 Hmarker Hc Hrel Hd Hw3 Hn0 Hn Hw4 He Hes Hlist)
    as Hm.
  apply (re_sub_match X _ org_relation (relation_pattern_headed X)) in Hm.
  unfold org_relation in Hm at 2. rewrite expand_insert in Hm.
  cbn [group1 group2 after] in Hm.
  rewrite (re_sub_copy_all X _ _ (relation_pattern_headed X)
             (block_rest k ++ close ++ post)) in Hm.
  - unfold relation_pass.
    rewrite (re_sub_copy X);
      [| apply relation_pattern_headed
       | apply (starts_nowhere_any _ _ (body k ++ close ++ post)),
           unique_occurrence_before; exact Huniq].
    f_equal. unfold relations_text, list_text in *.
    rewrite <- !app_assoc in *. exact Hm.
  - apply (unique_occurrence_post (header X) pre
             (fields_text k ++ gap2 k ++ marker ++ relations_text k
                ++ list_text k));
      [apply header_not_nil|].
    unfold body in Huniq. rewrite <- !app_assoc in *. exact Huniq.
Qed.

Hypothesis Hplain : plain_name X = true.

Lemma one_block_index_pass :
  index_pass X
    (pre ++ header X ++ fields_text k ++ field_text ++ gap2 k ++ marker
       ++ relations_text k ++ relation_text ++ list_text k ++ block_rest k
       ++ close ++ post) =
  pre ++ header X ++ body_rewritten k ++ close ++ post.
Proof using Hwf Huniq Hplain.
  pose proof (index_pass_block X pre _ post Hplain
                well_formed_rewritten_not_brace) as Hi.
  unfold index_pass in *.
  rewrite (re_sub_copy_all X _ _ (index_pattern_headed X) pre) in Hi.
  2:{ apply (unique_occurrence_pre _ _ (body k ++ close ++ post));
        [apply header_not_nil | exact Huniq]. }
  rewrite (re_sub_copy_all X _ _ (index_pattern_headed X) post) in Hi.
  2:{ apply (unique_occurrence_post (header X) pre (body k ++ close));
        [apply header_not_nil|].
      rewrite <- !app_assoc. exact Huniq. }
  unfold body_rewritten. rewrite <- !app_assoc in *. exact Hi.
Qed.

(** The three passes on a document whose only block for [X] is well
    formed. *)
Lemma one_block_rewrite :
  add_organization_id_to_model
    (pre ++ header X ++ body k ++ close ++ post) X =
  Some (pre ++ header X ++ body_rewritten k ++ close ++ post).
Proof using Hwf Huniq Hplain.
  unfold add_organization_id_to_model. rewrite Hplain.
  rewrite one_block_field_pass, one_block_relation_pass,
    one_block_index_pass. reflexivity.
Qed.
End OneBlock.

(** ** What every match holds *)

Lemma class_not_brace (p : char -> bool) (m : str) :
  p 125%N = false -> forallb p m = true -> forallb not_brace m = true.
Proof.
  intros Hp. apply forallb_impl. intros c Hc. unfold not_brace.
  destruct (N.eqb_spec c 125) as [->|]; [congruence | reflexivity].
Qed.

Lemma atom_matches_not_brace (a : atom) (m : str) :
  atom_brace_free a -> atom_matches a m -> forallb not_brace m = true.
Proof.
  destruct a as [l|p|p|p|p]; simpl; intros Hf Hm.
  - subst. exact Hf.
  - destruct Hm as (c & -> & Hc). apply (class_not_brace p); [exact Hf|].
    simpl. rewrite Hc. reflexivity.
  - apply (class_not_brace p); assumption.
  - apply (class_not_brace p); assumption.
  - apply (class_not_brace p); tauto.
Qed.

Lemma seq_matches_not_brace (atoms : list atom) (m : str) :
  Forall atom_brace_free atoms -> seq_matches atoms m ->
  forallb not_brace m = true.
Proof.
  intros Hf. revert m. induction Hf as [|a atoms Ha Hf IH]; intros m; simpl.
  - intros ->. reflexivity.
  - intros (m1 & m2 & -> & H1 & H2). rewrite forallb_app.
    rewrite (atom_matches_not_brace a m1 Ha H1), (IH m2 H2). reflexivity.
Qed.

Lemma seq_matches_literal (atoms : list atom) (l m : str) :
  In (Lit l) atoms -> seq_matches atoms m -> exists x y, m = x ++ l ++ y.
Proof.
  revert m. induction atoms as [|a atoms IH]; intros m Hin; [destruct Hin|].
  simpl. intros (m1 & m2 & -> & H1 & H2). destruct Hin as [->|Hin].
  - simpl in H1. subst m1. exists [], m2. reflexivity.
  - destruct (IH m2 Hin H2) as (x & y & ->).
    exists (m1 ++ x), y. rewrite <- app_assoc. reflexivity.
Qed.

Lemma seq_matches_app (atoms1 atoms2 : list atom) (m1 m2 : str) :
  seq_matches atoms1 m1 -> seq_matches atoms2 m2 ->
  seq_matches (atoms1 ++ atoms2) (m1 ++ m2).
Proof.
  revert m1. induction atoms1 as [|a atoms1 IH]; intros m1; simpl.
  - intros ->. auto.
  - intros (x & y & -> & Hx & Hy) H2.
    exists x, (y ++ m2). rewrite <- app_assoc. auto.
Qed.

Lemma seq_matches_header (X : str) (rest : list atom) (m : str) :
  seq_matches (header_atoms X ++ rest) m ->
  exists m', m = header X ++ m' /\ seq_matches rest m'.
Proof.
  unfold header_atoms. simpl.
  intros (a1 & r1 & -> & -> & a2 & r2 & -> & -> & a3 & r3 & -> & -> & H).
  exists r3. unfold header. rewrite <- !app_assoc. auto.
Qed.

Lemma match_holds_marker (X : str) (pat : pattern) (rest1 : list atom)
    (s : str) (m : rmatch) :
  grp1 pat = header_atoms X ++ rest1 ->
  marker_tail rest1 (grp2 pat) ->
  re_match pat s = Some m ->
  exists x y, s = header X ++ (x ++ marker ++ y) ++ after m /\
              forallb not_brace (x ++ marker ++ y) = true.
Proof.
  intros Hg [Hfree Hin] Hm.
  apply re_match_sound in Hm as (Hs & H1 & H2).
  rewrite Hg in H1. apply seq_matches_header in H1 as (m' & E1 & H1).
  pose proof (seq_matches_app _ _ _ _ H1 H2) as H.
  destruct (seq_matches_literal _ _ _ Hin H) as (x & y & E).
  exists x, y. split.
  - rewrite Hs, E1, <- E, <- !app_assoc. reflexivity.
  - rewrite <- E. apply (seq_matches_not_brace _ _ Hfree H).
Qed.

Lemma model_pattern_tail (X : str) :
  exists rest1, grp1 (model_pattern X) = header_atoms X ++ rest1 /\
                marker_tail rest1 (grp2 (model_pattern X)).
Proof.
  eexists. split; [reflexivity|]. split.
  - repeat constructor.
  - simpl. tauto.
Qed.

Lemma relation_pattern_tail (X : str) :
  exists rest1, grp1 (relation_pattern X) = header_atoms X ++ rest1 /\
                marker_tail rest1 (grp2 (relation_pattern X)).
Proof.
  eexists. split; [reflexivity|]. split.
  - repeat constructor.
  - simpl. tauto.
Qed.

(** A stretch of text without a closing brace that is read in front of
    one ends before it. *)
Lemma before_brace (m t inner post : str) :
  forallb not_brace m = true -> m ++ t = inner ++ close ++ post ->
  exists i2, inner = m ++ i2.
Proof.
  intros Hm E. apply (app_prefix_split inner (close ++ post) m t);
    [symmetry; exact E|].
  apply (class_prefix_bound not_brace m t inner post 125%N Hm);
    [reflexivity | exact E].
Qed.

Lemma occursb_false_absent_marker (inner x y i2 : str) :
  occursb marker inner = false -> inner <> (x ++ marker ++ y) ++ i2.
Proof.
  intros Ho E. rewrite E, <- !app_assoc, occursb_app in Ho. discriminate.
Qed.

(** In a document whose only block for [X] has no marker before its
    closing brace, a pattern that needs the marker matches nowhere. *)
Lemma no_marker_no_match (X pre inner post : str) (pat : pattern)
    (tmpl : list titem) :
  (exists rest1, grp1 pat = header_atoms X ++ rest1 /\
                 marker_tail rest1 (grp2 pat)) ->
  occurrences (header X) (pre ++ header X ++ inner ++ close ++ post)
  = [length pre] ->
  occursb marker inner = false ->
  re_sub pat tmpl (pre ++ header X ++ inner ++ close ++ post) =
  pre ++ header X ++ inner ++ close ++ post.
Proof.
  intros (rest1 & Hg & Htail) Huniq Hno.
  assert (Hh : headed X pat) by (exists rest1; exact Hg).
  apply (re_sub_pass_all X); [exact Hh|].
  intros x1 x2 E.
  destruct (re_match pat x2) as [m|] eqn:Hm; [|reflexivity].
  exfalso.
  destruct (match_holds_marker X pat rest1 x2 m Hg Htail Hm)
    as (x & y & Ex2 & Hfree).
  assert (Hlen : length x1 = length pre).
  { apply (occurrences_single _ _ _ Huniq x1 ((x ++ marker ++ y) ++ after m)).
    rewrite E, Ex2. reflexivity. }
  rewrite Ex2 in E.
  apply app_inj_1 in E as [_ E]; [|symmetry; exact Hlen].
  apply app_inv_head in E. symmetry in E.
  apply before_brace in E as [i2 E]; [|exact Hfree].
  exact (occursb_false_absent_marker _ _ _ _ Hno E).
Qed.

(** In a document without the marker, a pattern that needs the marker
    matches nowhere. *)
Lemma marker_needed (X content : str) (pat : pattern) (tmpl : list titem) :
  (exists rest1, grp1 pat = header_atoms X ++ rest1 /\
                 marker_tail rest1 (grp2 pat)) ->
  occursb marker content = false ->
  re_sub pat tmpl content = content.
Proof.
  intros (rest1 & Hg & Htail) Hno.
  assert (Hh : headed X pat) by (exists rest1; exact Hg).
  apply (re_sub_pass_all X); [exact Hh|].
  intros x1 x2 E.
  destruct (re_match pat x2) as [m|] eqn:Hm; [|reflexivity].
  exfalso.
  destruct (match_holds_marker X pat rest1 x2 m Hg Htail Hm)
    as (x & y & Ex2 & _).
  rewrite E, Ex2 in Hno.
  rewrite <- !app_assoc, (app_assoc x1), (app_assoc (x1 ++ header X)) in Hno.
  rewrite occursb_app in Hno. discriminate.
Qed.

(** * The claims *)

(** X13: in a document with exactly one block for [X], well formed in
    the sense of [well_formed], one call of
    [add_organization_id_to_model] puts each of its three texts in once
    and leaves every other character where it was.  The field line goes
    in front of the white space before the marker and the index
    annotation in front of the closing brace; the relation text goes
    right behind [createdBy], in front of the white space and the
    identifier that follow it: between the name of the relation and its
    type. *)
Theorem well_formed_block_three_insertions (X pre post : str) (k : block) :
  plain_name X = true ->
  well_formed k ->
  occurrences (header X) (pre ++ header X ++ body k ++ close ++ post)
  = [length pre] ->
  add_organization_id_to_model
    (pre ++ header X ++ body k ++ close ++ post) X =
  Some (pre ++ header X
        ++ before_field k ++ chars "createdById" ++ gap1 k ++ chars "String"
        ++ after_field k
        ++ (nl ++ chars "  organizationId  String?   // Made optional for safe migration")
        ++ gap2 k ++ chars "// Relations"
        ++ before_relation k ++ chars "createdBy" ++ relation_tail k
        ++ (nl ++ chars "  organization    Organization? @relation(fields: [organizationId], references: [id])")
        ++ gap3 k ++ (name_head k :: name_tail k) ++ gap4 k ++ type_text k
        ++ chars "[]" ++ block_rest k
        ++ (nl ++ nl ++ chars "  @@index([organizationId])")
        ++ close ++ post).
Proof.
  intros Hp Hwf Huniq.
  rewrite (one_block_rewrite X pre post k Hwf Huniq Hp).
  unfold body_rewritten, fields_text, relations_text, list_text.
  rewrite <- !app_assoc. reflexivity.
Qed.

Lemma fixture_well_formed : well_formed fixture_block.
Proof.
  unfold well_formed, spaces.
  repeat split; try discriminate; vm_compute; reflexivity.
Qed.

(** The fixture after the rewrite, line by line. *)
Example fixture_once_text :
  fixture_once =
  chars "model Segment {" ++ nl
    ++ chars "  id String @id" ++ nl
    ++ chars "  createdById String" ++ nl
    ++ chars "  organizationId  String?   // Made optional for safe migration" ++ nl
    ++ nl
    ++ chars "  // Relations" ++ nl
    ++ chars "  createdBy" ++ nl
    ++ chars "  organization    Organization? @relation(fields: [organizationId], references: [id])"
    ++ chars " User @relation(fields: [createdById], references: [id])" ++ nl
    ++ chars "  members SegmentMember[]" ++ nl
    ++ nl ++ nl
    ++ chars "  @@index([organizationId])}" ++ nl.
Proof. vm_compute. reflexivity. Qed.

Lemma well_formed_block_three_insertions_witness :
  add_organization_id_to_model fixture (chars "Segment") =
  Some (chars "model Segment {" ++ nl
    ++ chars "  id String @id" ++ nl
    ++ chars "  createdById String" ++ nl
    ++ chars "  organizationId  String?   // Made optional for safe migration" ++ nl
    ++ nl
    ++ chars "  // Relations" ++ nl
    ++ chars "  createdBy" ++ nl
    ++ chars "  organization    Organization? @relation(fields: [organizationId], references: [id])"
    ++ chars " User @relation(fields: [createdById], references: [id])" ++ nl
    ++ chars "  members SegmentMember[]" ++ nl
    ++ nl ++ nl
    ++ chars "  @@index([organizationId])}" ++ nl).
Proof.
  refine (eq_trans
            (well_formed_block_three_insertions (chars "Segment") [] nl
               fixture_block _ fixture_well_formed _) _).
  - vm_compute. reflexivity.
  - vm_compute. reflexivity.
  - vm_compute. reflexivity.
Defined.

(** C1: the code breaks it on the fixture.  One call puts the field
    line and the index annotation in as the claim says, but the relation
    text lands between [createdBy] and its type: the result has the line
    [  createdBy] and, behind it, a line that starts with the new
    relation and goes on with [ User @relation(...)].  No line of the
    result is the new relation declaration, and the declaration of
    [createdBy], a line of the input, is a line of the result no more. *)
Theorem relation_text_tears_createdBy :
  exists result,
    add_organization_id_to_model fixture (chars "Segment") = Some result /\
    lines fixture =
      [chars "model Segment {";
       chars "  id String @id";
       chars "  createdById String";
       [];
       chars "  // Relations";
       chars "  createdBy User @relation(fields: [createdById], references: [id])";
       chars "  members SegmentMember[]";
       chars "}";
       []] /\
    lines result =
      [chars "model Segment {";
       chars "  id String @id";
       chars "  createdById String";
       chars "  organizationId  String?   // Made optional for safe migration";
       [];
       chars "  // Relations";
       chars "  createdBy";
       chars "  organization    Organization? @relation(fields: [organizationId], references: [id]) User @relation(fields: [createdById], references: [id])";
       chars "  members SegmentMember[]";
       [];
       [];
       chars "  @@index([organizationId])}";
       []] /\
    ~ In (chars "  organization    Organization? @relation(fields: [organizationId], references: [id])")
         (lines result) /\
    ~ In (chars "  createdBy User @relation(fields: [createdById], references: [id])")
         (lines result).
Proof.
  exists fixture_once.
  split; [vm_compute; reflexivity|].
  split; [vm_compute; reflexivity|].
  split; [vm_compute; reflexivity|].
  split; intros H; vm_compute in H;
    repeat (destruct H as [H|H]; [discriminate H|]); exact H.
Qed.

(** C2, as the code has it: in a document whose only block for [X] has no
    [// Relations] marker before its closing brace, the field pass and the
    relation pass insert nothing; the index pass still puts the index
    annotation in front of the closing brace, so the document changes. *)
Theorem block_without_marker (X pre inner post : str) :
  plain_name X = true ->
  forallb not_brace inner = true ->
  occurrences (header X) (pre ++ header X ++ inner ++ close ++ post)
  = [length pre] ->
  occursb marker inner = false ->
  let content := pre ++ header X ++ inner ++ close ++ post in
  field_pass X content = content /\
  relation_pass X content = content /\
  add_organization_id_to_model content X =
  Some (pre ++ header X ++ inner ++ (nl ++ nl ++ chars "  @@index([organizationId])") ++ close ++ post).
Proof.
  change (nl ++ nl ++ chars "  @@index([organizationId])") with index_text.
  intros Hp Hinner Huniq Hno content.
  assert (H1 : field_pass X content = content)
    by exact (no_marker_no_match X pre inner post _ _
                (model_pattern_tail X) Huniq Hno).
  assert (H2 : relation_pass X content = content)
    by exact (no_marker_no_match X pre inner post _ _
                (relation_pattern_tail X) Huniq Hno).
  repeat split; try assumption.
  unfold add_organization_id_to_model. rewrite Hp, H1, H2.
  subst content. rewrite (index_pass_block X pre inner post Hp Hinner).
  unfold index_pass.
  rewrite (re_sub_copy_all X _ _ (index_pattern_headed X) pre).
  2:{ apply (unique_occurrence_pre _ _ (inner ++ close ++ post));
        [apply header_not_nil | exact Huniq]. }
  rewrite (re_sub_copy_all X _ _ (index_pattern_headed X) post).
  2:{ apply (unique_occurrence_post (header X) pre (inner ++ close));
        [apply header_not_nil|].
      rewrite <- !app_assoc. exact Huniq. }
  reflexivity.
Qed.

Lemma block_without_marker_witness :
  add_organization_id_to_model bare_document (chars "Task") =
  Some (chars "model Task { id Int " ++ (nl ++ nl ++ chars "  @@index([organizationId])") ++ chars "}").
Proof.
  change (nl ++ nl ++ chars "  @@index([organizationId])") with index_text.
  apply (block_without_marker (chars "Task") [] (chars " id Int ") []);
    vm_compute; reflexivity.
Defined.

(** C2 as it is written fails: the block of [bare_document] has neither
    the anchor field nor the marker, and the call does not return the
    document unchanged. *)
Lemma block_without_marker_changes :
  occursb marker bare_document = false /\
  occursb (chars "createdById") bare_document = false /\
  add_organization_id_to_model bare_document (chars "Task")
  <> Some bare_document.
Proof. repeat split; vm_compute; congruence. Qed.

(** ** A header that stays *)

Lemma header_no_overlap (X x1 x2 r : str) :
  plain_name X = true -> header X = x1 ++ x2 -> x1 <> [] -> x2 <> [] ->
  strip (header X) (x2 ++ r) = None.
Proof.
  intros Hp E Hx1 Hx2.
  destruct (strip (header X) (x2 ++ r)) as [r'|] eqn:Hs; [exfalso|reflexivity].
  destruct (exists_last Hx2) as (x2' & c & ->).
  assert (Hh : header X = (chars "model " ++ X ++ chars " ") ++ [123%N]).
  { unfold header. rewrite <- !app_assoc. reflexivity. }
  assert (Hc : c = 123%N /\ x1 ++ x2' = chars "model " ++ X ++ chars " ").
  { rewrite Hh in E. rewrite (app_assoc x1) in E.
    apply app_inj_tail in E as [E1 E2]. auto. }
  destruct Hc as [-> Hx].
  assert (Hno : ~ In 123%N (chars "model " ++ X ++ chars " ")).
  { rewrite !in_app_iff. intros [H|[H|H]].
    - simpl in H. intuition discriminate.
    - unfold plain_name in Hp. rewrite forallb_forall in Hp.
      specialize (Hp _ H). vm_compute in Hp. congruence.
    - simpl in H. intuition discriminate. }
  rewrite Hh, strip_app, <- app_assoc in Hs.
  change ([123%N] ++ r) with (123%N :: r) in Hs.
  destruct (strip (chars "model " ++ X ++ chars " ") (x2' ++ 123%N :: r))
    as [r0|] eqn:Hs0; [|discriminate].
  destruct (strip_barrier _ _ _ _ _ Hno Hs0) as (r1 & Hr1 & _).
  apply strip_Some in Hr1.
  assert (L : length (x1 ++ x2') = length (chars "model " ++ X ++ chars " "))
    by (rewrite Hx; reflexivity).
  rewrite Hr1, !length_app in L.
  destruct x1; [congruence | simpl in L; lia].
Qed.

Lemma occursb_nil_false (p : str) : p <> [] -> occursb p [] = false.
Proof. destruct p; [congruence | reflexivity]. Qed.

Lemma re_sub_keeps_header (X : str) (pat : pattern) (t s : str) :
  plain_name X = true -> headed X pat ->
  occursb (header X) s = true ->
  occursb (header X) (re_sub pat [TGroup1; TText t; TGroup2] s) = true.
Proof.
  intros Hp Hh.
  remember (length s) as n eqn:Hn. revert s Hn.
  induction n as [n IH] using lt_wf_ind. intros s Hn Ho.
  destruct (re_match pat s) as [m|] eqn:Hm.
  - rewrite (re_sub_match X _ _ Hh _ _ Hm), expand_insert.
    destruct (re_match_sound _ _ _ Hm) as (_ & H1 & _).
    destruct Hh as (rest1 & Hg). rewrite Hg in H1.
    destruct (seq_matches_header _ _ _ H1) as (g & -> & _).
    rewrite <- !app_assoc. apply (occursb_app (header X) []).
  - destruct s as [|c s].
    + rewrite occursb_nil_false in Ho by apply header_not_nil. discriminate.
    + rewrite occursb_cons in Ho.
      destruct (strip (header X) (c :: s)) as [r|] eqn:Hs.
      * apply strip_Some in Hs. rewrite Hs in Hm |- *.
        rewrite (re_sub_pass X _ _ Hh).
        { apply (occursb_app (header X) []). }
        intros x1 x2 E Hne. destruct x1 as [|d x1].
        { simpl in E. rewrite <- E. exact Hm. }
        apply (headed_no_header X); [exact Hh|].
        apply (header_no_overlap X (d :: x1) x2 r Hp);
          [exact E | discriminate | exact Hne].
      * rewrite (re_sub_skip X _ _ Hh _ _ Hm), occursb_cons.
        destruct (strip (header X) (c :: re_sub pat _ s)); [reflexivity|].
        apply (IH (length s)); [simpl in Hn; lia | reflexivity | exact Ho].
Qed.

Lemma inserted_forallb (p : char -> bool) (t s r : str) (n : nat) :
  forallb p t = true -> inserted t n s r ->
  forallb p s = true -> forallb p r = true.
Proof.
  intros Ht H. induction H as [|c s r n H IH|s r n H IH]; intros Hs.
  - reflexivity.
  - simpl in *. apply andb_true_iff in Hs as [Hc Hs].
    rewrite Hc. simpl. auto.
  - rewrite forallb_app, Ht. simpl. auto.
Qed.

Lemma re_sub_forallb (p : char -> bool) (pat : pattern) (t s : str) :
  forallb p t = true -> forallb p s = true ->
  forallb p (re_sub pat [TGroup1; TText t; TGroup2] s) = true.
Proof.
  intros Ht Hs. unfold re_sub.
  destruct (sub_scan_inserted (S (length s)) pat t s) as [n Hn].
  exact (inserted_forallb p t s _ n Ht Hn Hs).
Qed.

Lemma re_sub_count (c : char) (pat : pattern) (t s : str) :
  count_char c t = 0 ->
  count_char c (re_sub pat [TGroup1; TText t; TGroup2] s) = count_char c s.
Proof.
  intros Ht. unfold re_sub.
  destruct (sub_scan_inserted (S (length s)) pat t s) as [n Hn].
  exact (inserted_count t s _ n c Ht Hn).
Qed.

Lemma not_brace_count (s : str) :
  forallb not_brace s = true -> count_char 125%N s = 0.
Proof.
  intros H. unfold count_char. apply count_occ_not_In.
  apply not_brace_In. exact H.
Qed.

(** ** A block that stays a block *)

Section PassKeepsBlock.
Variables (X : str) (g : str -> str).
Hypothesis Hp : plain_name X = true.
Hypothesis g_brace : forall a b, g (a ++ close ++ b) = g a ++ close ++ g b.
Hypothesis g_open :
  forall s, forallb not_brace s = true -> forallb not_brace (g s) = true.
Hypothesis g_header :
  forall s, occursb (header X) s = true -> occursb (header X) (g s) = true.
Hypothesis g_count : forall s, count_char 125%N (g s) = count_char 125%N s.

(** A pass that inserts between closing braces and keeps a header leaves
    a block a block: behind the same closing braces there is still a
    header with no closing brace after it. *)
Lemma pass_keeps_block (pre inner : str) :
  forallb not_brace inner = true ->
  exists pre' inner',
    g (pre ++ header X ++ inner) = pre' ++ header X ++ inner' /\
    forallb not_brace inner' = true /\
    count_char 125%N pre' = count_char 125%N pre.
Proof using Hp g_brace g_open g_header g_count.
  intros Hinner.
  remember (length pre) as n eqn:Hn. revert pre Hn.
  induction n as [n IH] using lt_wf_ind. intros pre Hn.
  destruct (first_brace pre) as [Hpre|(seg & t & -> & Hseg)].
  - assert (Hs : forallb not_brace (pre ++ header X ++ inner) = true).
    { rewrite !not_brace_app. auto using header_not_brace. }
    pose proof (g_open _ Hs) as Hg.
    destruct (occursb_true_split _ _ (g_header _ (occursb_app _ pre inner)))
      as (x & y & E).
    rewrite E in Hg |- *. rewrite !not_brace_app in Hg.
    destruct Hg as (Hx & _ & Hy).
    exists x, y. repeat split; [exact Hy|].
    rewrite !not_brace_count by assumption. reflexivity.
  - rewrite <- !app_assoc, g_brace.
    destruct (IH (length t)) with (pre := t) as (pre' & inner' & E & Hi & Hc).
    { rewrite Hn, !length_app. simpl. lia. }
    { reflexivity. }
    rewrite E. exists (g seg ++ close ++ pre'), inner'.
    rewrite <- !app_assoc. repeat split; [exact Hi|].
    rewrite !count_char_app, g_count, Hc. reflexivity.
Qed.
End PassKeepsBlock.

Lemma field_pass_keeps_block (X pre inner : str) :
  plain_name X = true -> forallb not_brace inner = true ->
  exists pre' inner',
    field_pass X (pre ++ header X ++ inner) = pre' ++ header X ++ inner' /\
    forallb not_brace inner' = true /\
    count_char 125%N pre' = count_char 125%N pre.
Proof.
  intros Hp. pose proof (plain_name_not_brace X Hp) as HX.
  apply pass_keeps_block; [exact Hp | | | |].
  - intros a b. apply (re_sub_brace X); [apply model_pattern_headed | |];
      repeat constructor; exact HX.
  - intros s. apply re_sub_forallb. reflexivity.
  - intros s. apply re_sub_keeps_header;
      [exact Hp | apply model_pattern_headed].
  - intros s. apply re_sub_count. reflexivity.
Qed.

Lemma relation_pass_keeps_block (X pre inner : str) :
  plain_name X = true -> forallb not_brace inner = true ->
  exists pre' inner',
    relation_pass X (pre ++ header X ++ inner) = pre' ++ header X ++ inner' /\
    forallb not_brace inner' = true /\
    count_char 125%N pre' = count_char 125%N pre.
Proof.
  intros Hp. pose proof (plain_name_not_brace X Hp) as HX.
  apply pass_keeps_block; [exact Hp | | | |].
  - intros a b. apply (re_sub_brace X); [apply relation_pattern_headed | |];
      repeat constructor; exact HX.
  - intros s. apply re_sub_forallb. reflexivity.
  - intros s. apply re_sub_keeps_header;
      [exact Hp | apply relation_pattern_headed].
  - intros s. apply re_sub_count. reflexivity.
Qed.

Lemma re_sub_sublist (pat : pattern) (t s : str) :
  s `sublist_of` re_sub pat [TGroup1; TText t; TGroup2] s.
Proof. apply sub_scan_sublist. Qed.

(** Behind a block with a header, whatever the first two passes did to
    the document, the index pass finds the closing brace. *)
Lemma index_reaches_every_block (X pre inner post : str) :
  plain_name X = true ->
  forallb not_brace inner = true ->
  exists before after,
    add_organization_id_to_model
      (pre ++ header X ++ inner ++ close ++ post) X =
    Some (before ++ index_text ++ close ++ after) /\
    (pre ++ header X ++ inner) `sublist_of` before /\
    post `sublist_of` after /\
    count_char 125%N before = count_char 125%N pre.
Proof.
  intros Hp Hinner. pose proof (plain_name_not_brace X Hp) as HX.
  unfold add_organization_id_to_model. rewrite Hp.
  assert (Hf : forall a b, field_pass X (a ++ close ++ b) =
                           field_pass X a ++ close ++ field_pass X b).
  { intros a b. apply (re_sub_brace X); [apply model_pattern_headed | |];
      repeat constructor; exact HX. }
  assert (Hr : forall a b, relation_pass X (a ++ close ++ b) =
                           relation_pass X a ++ close ++ relation_pass X b).
  { intros a b. apply (re_sub_brace X); [apply relation_pattern_headed | |];
      repeat constructor; exact HX. }
  destruct (field_pass_keeps_block X pre inner Hp Hinner)
    as (pre1 & inner1 & E1 & Hi1 & Hc1).
  destruct (relation_pass_keeps_block X pre1 inner1 Hp Hi1)
    as (pre2 & inner2 & E2 & Hi2 & Hc2).
  rewrite !app_assoc, <- (app_assoc _ close post), Hf, Hr.
  rewrite <- !app_assoc, E1, E2, <- !app_assoc.
  rewrite (index_pass_block X pre2 inner2 _ Hp Hi2).
  exists (index_pass X pre2 ++ header X ++ inner2),
         (index_pass X (relation_pass X (field_pass X post))).
  rewrite <- !app_assoc. split; [reflexivity|].
  split; [|split].
  - transitivity (pre1 ++ header X ++ inner1);
      [rewrite <- E1; apply re_sub_sublist|].
    transitivity (pre2 ++ header X ++ inner2);
      [rewrite <- E2; apply re_sub_sublist|].
    apply sublist_app; [apply re_sub_sublist | reflexivity].
  - transitivity (field_pass X post); [apply re_sub_sublist|].
    transitivity (relation_pass X (field_pass X post));
      apply re_sub_sublist.
  - rewrite !count_char_app.
    unfold index_pass, index_replacement.
    rewrite re_sub_count by reflexivity.
    rewrite (not_brace_count _ (header_not_brace X Hp)).
    rewrite (not_brace_count _ Hi2). lia.
Qed.

(** C9: the index pass needs the block markers only.  Whatever the
    document, a header [model X {], a body without a closing brace and
    the closing brace get the index annotation in front of that brace:
    from the index pass on its own, and from the whole call, in which
    the field pass and the relation pass have run first.  The brace is
    the one the block had: as many closing braces come before it as
    before.  When the document has no [// Relations] marker at all, the
    two other passes do nothing and this is all the call does to the
    block. *)
Theorem index_needs_no_anchor (X pre inner post : str) :
  plain_name X = true ->
  forallb not_brace inner = true ->
  let content := pre ++ header X ++ inner ++ close ++ post in
  let annotation := nl ++ nl ++ chars "  @@index([organizationId])" in
  index_pass X content =
    index_pass X pre ++ header X ++ inner ++ annotation ++ close
      ++ index_pass X post /\
  (exists before after,
     add_organization_id_to_model content X =
       Some (before ++ annotation ++ close ++ after) /\
     (pre ++ header X ++ inner) `sublist_of` before /\
     post `sublist_of` after /\
     count_char 125%N before = count_char 125%N pre) /\
  (occursb marker content = false ->
   field_pass X content = content /\
   relation_pass X content = content /\
   add_organization_id_to_model content X =
     Some (index_pass X pre ++ header X ++ inner ++ annotation ++ close
             ++ index_pass X post)).
Proof.
  intros Hp Hinner content annotation.
  pose proof (index_pass_block X pre inner post Hp Hinner) as Hi.
  split; [exact Hi|].
  split; [exact (index_reaches_every_block X pre inner post Hp Hinner)|].
  intros Hno.
  assert (H1 : field_pass X content = content)
    by exact (marker_needed X content _ _ (model_pattern_tail X) Hno).
  assert (H2 : relation_pass X content = content)
    by exact (marker_needed X content _ _ (relation_pattern_tail X) Hno).
  repeat split; try assumption.
  unfold add_organization_id_to_model. rewrite Hp, H1, H2. f_equal. exact Hi.
Qed.

Lemma index_needs_no_anchor_witness :
  add_organization_id_to_model
    (chars "enum Role { A }" ++ nl ++ chars "model Task { id Int }" ++ nl)
    (chars "Task") =
  Some (chars "enum Role { A }" ++ nl ++ chars "model Task { id Int "
          ++ nl ++ nl ++ chars "  @@index([organizationId])" ++ chars "}"
          ++ nl) /\
  exists before after,
    add_organization_id_to_model fixture (chars "Segment") =
      Some (before ++ (nl ++ nl ++ chars "  @@index([organizationId])")
              ++ close ++ after) /\
    (header (chars "Segment") ++ body fixture_block) `sublist_of` before /\
    nl `sublist_of` after /\
    count_char 125%N before = 0.
Proof.
  split.
  - destruct (index_needs_no_anchor (chars "Task")
                (chars "enum Role { A }" ++ nl) (chars " id Int ") nl
                eq_refl eq_refl) as (_ & _ & H).
    destruct H as (_ & _ & H); [vm_compute; reflexivity|].
    vm_compute in H. vm_compute. exact H.
  - destruct (index_needs_no_anchor (chars "Segment") []
                (body fixture_block) nl eq_refl eq_refl) as (_ & H & _).
    exact H.
Defined.

(** C3: the driver is not idempotent.  A second run over the fixture
    inserts the field line, the relation line and the index annotation a
    second time. *)
Theorem rewrite_all_not_idempotent :
  exists once twice,
    rewrite_all fixture = Some once /\
    rewrite_all once = Some twice /\
    once <> twice /\
    length (occurrences field_text once) = 1 /\
    length (occurrences field_text twice) = 2 /\
    length (occurrences relation_text twice) = 2 /\
    length (occurrences index_text twice) = 2.
Proof.
  eexists. eexists.
  split; [vm_compute; reflexivity|].
  split; [vm_compute; reflexivity|].
  repeat split; try (vm_compute; reflexivity).
  vm_compute. congruence.
Qed.

(** ** The other names of the driver *)

Lemma add_organization_id_absent (content Y : str) :
  plain_name Y = true -> absent (header Y) content ->
  add_organization_id_to_model content Y = Some content.
Proof.
  intros Hp Ha. unfold add_organization_id_to_model. rewrite Hp.
  unfold field_pass, relation_pass, index_pass.
  rewrite (re_sub_copy_all Y _ _ (model_pattern_headed Y) _ Ha).
  rewrite (re_sub_copy_all Y _ _ (relation_pattern_headed Y) _ Ha).
  rewrite (re_sub_copy_all Y _ _ (index_pattern_headed Y) _ Ha).
  reflexivity.
Qed.

Lemma update_models_absent (models : list str) (content : str) :
  (forall Y, In Y models ->
             plain_name Y = true /\ absent (header Y) content) ->
  update_models models content = Some content.
Proof.
  induction models as [|Y models IH]; intros H; [reflexivity|]. simpl.
  destruct (H Y (or_introl eq_refl)) as [Hp Ha].
  rewrite (add_organization_id_absent _ _ Hp Ha).
  apply IH. intros Z HZ. apply H. right. exact HZ.
Qed.

Lemma update_models_app (l1 l2 : list str) (content : str) :
  update_models (l1 ++ l2) content =
  match update_models l1 content with
  | Some content' => update_models l2 content'
  | None => None
  end.
Proof.
  revert content. induction l1 as [|Y l1 IH]; intros content; simpl;
    [reflexivity|].
  destruct (add_organization_id_to_model content Y); [apply IH | reflexivity].
Qed.

(** A literal without a new line does not come into being where a text
    that begins with a new line is inserted, when the front of the
    literal can start nowhere in that text. *)
Lemma insert_keeps_absent (p p0 p1 t u v : str) :
  p = p0 ++ p1 -> ~ In 10%N p ->
  never_starts_in p0 (10%N :: t) = true ->
  absent p (u ++ v) -> absent p (u ++ (10%N :: t) ++ v).
Proof.
  intros Ep Hnl Hnever Habs x1 x2 E.
  destruct (strip p x2) as [r|] eqn:Es; [|reflexivity].
  exfalso.
  apply app_eq_app in E as [l [[E1 E2]|[E1 E2]]].
  - (* [x2] starts in [u] *)
    subst x2. change ((10%N :: t) ++ v) with (10%N :: (t ++ v)) in Es.
    apply strip_barrier in Es as (r' & Es & _); [|exact Hnl].
    apply (strip_extend _ _ v) in Es.
    rewrite (Habs x1 (l ++ v)) in Es; [discriminate|].
    rewrite E1, <- app_assoc. reflexivity.
  - symmetry in E2. apply app_eq_app in E2 as [l' [[E3 E4]|[E3 E4]]].
    + (* [x2] starts in [v] *)
      rewrite (Habs (u ++ l') x2) in Es; [discriminate|].
      rewrite E4, <- app_assoc. reflexivity.
    + (* [x2] starts in the inserted text *)
      subst x2. destruct l' as [|ch l'].
      * change ([] ++ v) with v in Es.
        rewrite (Habs u v eq_refl) in Es. discriminate.
      * rewrite Ep, strip_app in Es.
        pose proof (never_starts_in_spec p0 _ Hnever l (ch :: l') v E3
                      ltac:(discriminate)) as Hs.
        unfold str, char in *. rewrite Hs in Es. discriminate.
Qed.

Lemma three_inserts_keep_absent (p p1 u v w z : str) :
  p = chars "model " ++ p1 -> ~ In 10%N p ->
  absent p (u ++ v ++ w ++ z) ->
  absent p (u ++ field_text ++ v ++ relation_text ++ w ++ index_text ++ z).
Proof.
  intros Ep Hnl Habs.
  apply (insert_keeps_absent p _ p1 (tl field_text) u
           (v ++ relation_text ++ w ++ index_text ++ z) Ep Hnl);
    [vm_compute; reflexivity|].
  rewrite (app_assoc u v).
  apply (insert_keeps_absent p _ p1 (tl relation_text) (u ++ v)
           (w ++ index_text ++ z) Ep Hnl);
    [vm_compute; reflexivity|].
  rewrite (app_assoc (u ++ v) w).
  apply (insert_keeps_absent p _ p1 (tl index_text) ((u ++ v) ++ w) z
           Ep Hnl);
    [vm_compute; reflexivity|].
  rewrite <- !app_assoc. exact Habs.
Qed.

Lemma models_to_update_plain (Y : str) :
  In Y models_to_update ->
  plain_name Y = true /\ ~ In 10%N (header Y).
Proof.
  assert (H : forallb (fun Z => plain_name Z
                         && negb (existsb (N.eqb 10) (header Z)))
                models_to_update = true) by (vm_compute; reflexivity).
  rewrite forallb_forall in H. intros HY. apply H in HY.
  apply andb_true_iff in HY as [Hp Hn]. split; [exact Hp|].
  intros Hin. apply negb_true_iff in Hn.
  assert (Hex : existsb (N.eqb 10) (header Y) = true).
  { apply existsb_exists. exists 10%N. split; [exact Hin | reflexivity]. }
  congruence.
Qed.

Lemma models_to_update_NoDup : List.NoDup models_to_update.
Proof.
  apply NoDup_ListNoDup, (bool_decide_unpack _). vm_compute. reflexivity.
Qed.

(** The driver on a document with one target block, well formed, and no
    block of another name of the list. *)
Lemma pipeline_one_block (X pre post : str) (k : block) :
  In X models_to_update ->
  well_formed k ->
  occurrences (header X) (pre ++ header X ++ body k ++ close ++ post)
  = [length pre] ->
  (forall Y, In Y models_to_update -> Y <> X ->
     occurrences (header Y) (pre ++ header X ++ body k ++ close ++ post)
     = []) ->
  rewrite_all (pre ++ header X ++ body k ++ close ++ post) =
  Some (pre ++ header X ++
        (fields_text k ++ field_text ++ gap2 k ++ marker ++ relations_text k
           ++ relation_text ++ list_text k ++ block_rest k ++ index_text)
        ++ close ++ post).
Proof.
  intros HX Hwf Huniq Hothers.
  destruct (models_to_update_plain X HX) as [Hp _].
  destruct (in_split X _ HX) as (l1 & l2 & E).
  pose proof models_to_update_NoDup as Hnd. rewrite E in Hnd.
  apply NoDup_remove_2 in Hnd.
  assert (Hother : forall Y, In Y (l1 ++ l2) ->
            In Y models_to_update /\ Y <> X).
  { intros Y HY. split.
    - rewrite E. apply in_app_iff in HY. apply in_app_iff. simpl. tauto.
    - intros ->. exact (Hnd HY). }
  unfold rewrite_all. rewrite E, update_models_app.
  rewrite update_models_absent.
  2:{ intros Y HY.
      destruct (Hother Y ltac:(apply in_app_iff; tauto)) as [HYin HYne].
      split; [apply (models_to_update_plain Y HYin)|].
      exact (occurrences_none _ _ (Hothers Y HYin HYne)). }
  cbn [update_models].
  rewrite (one_block_rewrite X pre post k Hwf Huniq Hp).
  fold (body_rewritten k).
  apply update_models_absent. intros Y HY.
  destruct (Hother Y ltac:(apply in_app_iff; tauto)) as [HYin HYne].
  destruct (models_to_update_plain Y HYin) as [HYp HYnl].
  split; [exact HYp|].
  pose proof (occurrences_none _ _ (Hothers Y HYin HYne)) as Habs.
  pose proof (three_inserts_keep_absent (header Y) (Y ++ chars " {")
                (pre ++ header X ++ fields_text k)
                (gap2 k ++ marker ++ relations_text k)
                (list_text k ++ block_rest k) (close ++ post)
                eq_refl HYnl) as H3.
  unfold body, body_rewritten in *. rewrite <- !app_assoc in *.
  apply H3. exact Habs.
Qed.

(** X14: the full pipeline on a document with one target block.  When
    the block of the target [X] is well formed and no other name of the
    driver's list has a block in the document, the driver returns the
    document with the three texts of the call for [X] put in and nothing
    else: the names without a block change nothing, before or after.
    The relation text stands right behind [createdBy], in front of the
    white space and the identifier that follow it. *)
Theorem pipeline_on_one_target_block (X pre post : str) (k : block) :
  In X models_to_update ->
  well_formed k ->
  occurrences (header X) (pre ++ header X ++ body k ++ close ++ post)
  = [length pre] ->
  (forall Y, In Y models_to_update -> Y <> X ->
     occurrences (header Y) (pre ++ header X ++ body k ++ close ++ post)
     = []) ->
  rewrite_all (pre ++ header X ++ body k ++ close ++ post) =
  Some (pre ++ header X
        ++ before_field k ++ chars "createdById" ++ gap1 k ++ chars "String"
        ++ after_field k
        ++ (nl ++ chars "  organizationId  String?   // Made optional for safe migration")
        ++ gap2 k ++ chars "// Relations"
        ++ before_relation k ++ chars "createdBy" ++ relation_tail k
        ++ (nl ++ chars "  organization    Organization? @relation(fields: [organizationId], references: [id])")
        ++ gap3 k ++ (name_head k :: name_tail k) ++ gap4 k ++ type_text k
        ++ chars "[]" ++ block_rest k
        ++ (nl ++ nl ++ chars "  @@index([organizationId])")
        ++ close ++ post).
Proof.
  intros HX Hwf Huniq Hothers.
  rewrite (pipeline_one_block X pre post k HX Hwf Huniq Hothers).
  unfold fields_text, relations_text, list_text.
  rewrite <- !app_assoc. reflexivity.
Qed.

Lemma fixture_other_names (Y : str) :
  In Y models_to_update -> Y <> chars "Segment" ->
  occurrences (header Y) fixture = [].
Proof.
  intros HY Hne.
  repeat (destruct HY as [<-|HY];
          [first [congruence | vm_compute; reflexivity]|]).
  destruct HY.
Qed.

Lemma pipeline_on_one_target_block_witness :
  rewrite_all fixture =
  Some (chars "model Segment {" ++ nl
    ++ chars "  id String @id" ++ nl
    ++ chars "  createdById String" ++ nl
    ++ chars "  organizationId  String?   // Made optional for safe migration" ++ nl
    ++ nl
    ++ chars "  // Relations" ++ nl
    ++ chars "  createdBy" ++ nl
    ++ chars "  organization    Organization? @relation(fields: [organizationId], references: [id])"
    ++ chars " User @relation(fields: [createdById], references: [id])" ++ nl
    ++ chars "  members SegmentMember[]" ++ nl
    ++ nl ++ nl
    ++ chars "  @@index([organizationId])}" ++ nl).
Proof.
  refine (eq_trans
            (pipeline_on_one_target_block (chars "Segment") [] nl
               fixture_block (or_introl eq_refl) fixture_well_formed _
               fixture_other_names) _).
  - vm_compute. reflexivity.
  - vm_compute. reflexivity.
Defined.

(** C5: the code breaks it on the fixture, a document with one target
    block, the field [createdById String], the marker, the relation
    [createdBy] and one list-typed field.  The pipeline returns the
    fields, the new field line and the marker in this order, and the
    index annotation in front of the closing brace; but the line in
    front of the list-typed field is not the new relation declaration:
    the relation text stands between [createdBy] and its type.  On the
    same block with an optional creator ([User?]) the pattern finds the
    list-typed field, and the new declaration is a line of its own in
    front of it. *)
Theorem pipeline_misplaces_relation :
  exists result other,
    rewrite_all fixture = Some result /\
    lines result =
      [chars "model Segment {";
       chars "  id String @id";
       chars "  createdById String";
       chars "  organizationId  String?   // Made optional for safe migration";
       [];
       chars "  // Relations";
       chars "  createdBy";
       chars "  organization    Organization? @relation(fields: [organizationId], references: [id]) User @relation(fields: [createdById], references: [id])";
       chars "  members SegmentMember[]";
       [];
       [];
       chars "  @@index([organizationId])}";
       []] /\
    rewrite_all optional_fixture = Some other /\
    lines other =
      [chars "model Segment {";
       chars "  id String @id";
       chars "  createdById String?";
       chars "  organizationId  String?   // Made optional for safe migration";
       [];
       chars "  // Relations";
       chars "  createdBy User? @relation(fields: [createdById], references: [id])";
       chars "  organization    Organization? @relation(fields: [organizationId], references: [id])";
       chars "  members SegmentMember[]";
       [];
       [];
       chars "  @@index([organizationId])}";
       []].
Proof.
  eexists. eexists.
  split; [vm_compute; reflexivity|].
  split; [vm_compute; reflexivity|].
  split; [vm_compute; reflexivity|].
  vm_compute. reflexivity.
Qed.

(** ** The run of [main] *)

Lemma same_disk_refl (w : world) : same_disk w w.
Proof. repeat split. Qed.

Lemma same_disk_trans (w1 w2 w3 : world) :
  same_disk w1 w2 -> same_disk w2 w3 -> same_disk w1 w3.
Proof.
  intros (A1 & A2 & A3 & A4 & A5 & A6) (B1 & B2 & B3 & B4 & B5 & B6).
  repeat split; congruence.
Qed.

Lemma bind_ok {A B : Type} (m : M A) (f : A -> M B) (w w1 : world) (a : A) :
  m w = Ok a w1 -> bind m f w = f a w1.
Proof. unfold bind. intros ->. reflexivity. Qed.

Lemma bind_raise {A B : Type} (m : M A) (f : A -> M B) (w w1 : world)
    (e : error) :
  m w = Raise e w1 -> bind m f w = Raise e w1.
Proof. unfold bind. intros ->. reflexivity. Qed.

Lemma traces_bind {A B : Type} (m : M A) (f : A -> M B) (w : world)
    (evs1 evs2 : list event) (Q1 : A -> Prop) (Q : B -> Prop) :
  traces m w evs1 Q1 ->
  (forall a w1, same_disk w w1 -> Q1 a -> traces (f a) w1 evs2 Q) ->
  traces (bind m f) w (evs1 ++ evs2) Q.
Proof.
  unfold traces, bind. intros Hm Hf.
  destruct (m w) as [a w1|e w1].
  - destruct Hm as (Hd & Hl & Ha). specialize (Hf a w1 Hd Ha).
    destruct (f a w1) as [b w2|e w2].
    + destruct Hf as (Hd2 & Hl2 & Hb).
      split; [eauto using same_disk_trans|].
      split; [|exact Hb]. rewrite Hl2, Hl, app_assoc. reflexivity.
    + destruct Hf as (Hd2 & done & Hl2 & Hp).
      split; [eauto using same_disk_trans|].
      exists (evs1 ++ done). split; [|apply prefix_app, Hp].
      rewrite Hl2, Hl, app_assoc. reflexivity.
  - destruct Hm as (Hd & done & Hl & Hp).
    split; [exact Hd|]. exists done. split; [exact Hl|].
    apply prefix_app_r, Hp.
Qed.

Lemma traces_weaken {A : Type} (m : M A) (w : world) (evs : list event)
    (Q Q' : A -> Prop) :
  traces m w evs Q -> (forall a, Q a -> Q' a) -> traces m w evs Q'.
Proof.
  unfold traces. destruct (m w); [|auto]. intros (H1 & H2 & H3) H.
  auto.
Qed.

Lemma traces_ret {A : Type} (a : A) (w : world) (Q : A -> Prop) :
  Q a -> traces (ret a) w [] Q.
Proof.
  intros H. unfold traces, ret.
  split; [apply same_disk_refl|]. split; [symmetry; apply app_nil_r | exact H].
Qed.

Lemma traces_raise {A : Type} (e : error) (w : world) (evs : list event)
    (Q : A -> Prop) :
  traces (raise e) w evs Q.
Proof.
  unfold traces, raise. split; [apply same_disk_refl|].
  exists []. split; [symmetry; apply app_nil_r | apply prefix_nil].
Qed.

Lemma traces_tick (w : world) : traces tick w [] (fun _ => True).
Proof.
  unfold traces, tick. destruct (alarm w) as [[|n]|].
  - split; [apply same_disk_refl|]. exists [].
    split; [symmetry; apply app_nil_r | apply prefix_nil].
  - repeat split. simpl. symmetry. apply app_nil_r.
  - repeat split. symmetry. apply app_nil_r.
Qed.

Lemma traces_emit (e : event) (w : world) :
  traces (emit e) w [e] (fun _ => True).
Proof. unfold traces, emit. repeat split. Qed.

Lemma traces_print (line : str) (w : world) :
  traces (print line) w [EPrint line] (fun _ => True).
Proof.
  unfold print.
  apply (traces_bind tick _ w [] [EPrint line] (fun _ => True));
    [apply traces_tick|].
  intros _ w1 Hd _.
  destruct (unencodable (console w1) line) as [c|] eqn:E.
  - unfold traces. rewrite E. split; [apply same_disk_refl|].
    exists []. split; [symmetry; apply app_nil_r | apply prefix_nil].
  - unfold traces. rewrite E. apply traces_emit.
Qed.

Lemma traces_read_file (path : string) (w : world) :
  traces (read_file path) w [ERead path]
    (fun text => exists stored_text,
                   files w !! path = Some stored_text /\
                   (path ∉ garbled w) /\
                   text = universal_newlines stored_text).
Proof.
  unfold read_file.
  apply (traces_bind tick _ w [] [ERead path] (fun _ => True));
    [apply traces_tick|].
  intros _ w1 (Hf & Hg & _) _.
  unfold traces.
  destruct (files w1 !! path) as [text|] eqn:E.
  - destruct (decide (path ∈ garbled w1)) as [Hin|Hin].
    + split; [apply same_disk_refl|].
      exists []. split; [symmetry; apply app_nil_r | apply prefix_nil].
    + unfold bind, emit, ret. repeat split.
      exists text. rewrite <- Hf, <- Hg. auto.
  - split; [apply same_disk_refl|].
    exists []. split; [symmetry; apply app_nil_r | apply prefix_nil].
Qed.

Lemma traces_update (content model : str) (w : world) :
  traces (update content model) w []
    (fun content' =>
       add_organization_id_to_model content model = Some content').
Proof.
  unfold update.
  apply (traces_bind tick _ w [] [] (fun _ => True)); [apply traces_tick|].
  intros _ w1 _ _.
  destruct (add_organization_id_to_model content model) as [r|].
  - apply traces_ret. reflexivity.
  - apply traces_raise.
Qed.

Lemma traces_for_models (models : list str) (content : str) (w : world) :
  traces (for_models models content) w
    (map (fun model => EPrint (chars "  Adding organizationId to " ++ model))
         models)
    (fun result => update_models models content = Some result).
Proof.
  revert content w. induction models as [|model models IH]; intros content w.
  - apply traces_ret. reflexivity.
  - cbn [for_models map update_models].
    apply (traces_bind (print _) _ w [_] _ (fun _ => True));
      [apply traces_print|].
    intros _ w1 _ _.
    apply (traces_bind (update content model) _ w1 [] _
             (fun c => add_organization_id_to_model content model = Some c));
      [apply traces_update|].
    intros content' w2 _ Hc. rewrite Hc. apply IH.
Qed.

Lemma same_disk_files (w w1 : world) (path : string) :
  same_disk w w1 -> files w1 !! path = files w !! path.
Proof. intros (-> & _). reflexivity. Qed.

(** Everything [main] does before it calls [write_file] leaves the disk
    as it is, whether it gets there or not; when it gets there, it has
    read the file and run the passes for every name. *)
Lemma traces_before_write (w : world) :
  traces before_write w events_before_write
    (fun result =>
       exists content,
         files w !! schema_path = Some content /\
         (schema_path ∉ garbled w) /\
         rewrite_all (universal_newlines content) = Some result).
Proof.
  unfold before_write, events_before_write.
  apply (traces_bind (print _) _ w [_] _ (fun _ => True));
    [apply traces_print|].
  intros _ w1 Hd1 _.
  apply (traces_bind (read_file _) _ w1 [_] _
           (fun text => exists c, files w !! schema_path = Some c /\
                                  (schema_path ∉ garbled w) /\
                                  text = universal_newlines c)).
  { eapply traces_weaken; [apply traces_read_file|].
    intros text (c & Hc & Hg & ->). exists c.
    destruct Hd1 as (Hf1 & Hg1 & _). rewrite <- Hf1, <- Hg1. auto. }
  intros text w2 Hd2 (c & Hc & Hg & ->).
  apply (traces_bind (print _) _ w2 [_] _ (fun _ => True));
    [apply traces_print|].
  intros _ w3 Hd3 _.
  apply (traces_bind (for_models _ _) _ w3 _ [_]
           (fun r => rewrite_all (universal_newlines c) = Some r)).
  { apply traces_for_models. }
  intros r w4 Hd4 Hr.
  apply (traces_bind (print _) _ w4 [_] [] (fun _ => True));
    [apply traces_print|].
  intros _ w5 _ _. apply traces_ret. exists c. auto.
Qed.

Lemma traces_after_write (w : world) :
  traces after_write w events_after_write (fun _ => True).
Proof.
  unfold after_write, events_after_write.
  repeat (apply (traces_bind (print _) _ _ [_] _ (fun _ => True));
          [apply traces_print | intros _ ? _ _]).
  apply traces_print.
Qed.

(** ** The write step *)

Lemma stored_stored (w : world) (path : string) (t1 t2 : str) :
  stored (stored w path t1) path t2 = stored w path t2.
Proof.
  unfold stored. simpl. f_equal.
  - apply insert_insert_eq.
  - apply set_eq. intros x. rewrite !elem_of_difference. tauto.
Qed.

Lemma take_fits (n : nat) (content : str) :
  (length (take n content) <? length content) = false ->
  take n content = content.
Proof.
  intros H. apply Nat.ltb_ge in H. rewrite length_take in H.
  apply take_ge. lia.
Qed.

Lemma tick_ok (w w1 : world) :
  tick w = Ok tt w1 -> same_disk w w1 /\ log w1 = log w.
Proof.
  intros E. pose proof (traces_tick w) as T. unfold traces in T.
  rewrite E in T. destruct T as (Hd & Hl & _).
  rewrite app_nil_r in Hl. auto.
Qed.

Lemma tick_raise (w w1 : world) (e : error) :
  tick w = Raise e w1 -> same_disk w w1 /\ log w1 = log w.
Proof.
  intros E. pose proof (traces_tick w) as T. unfold traces in T.
  rewrite E in T. destruct T as (Hd & done & Hl & Hp).
  apply prefix_nil_inv in Hp. subst done. rewrite app_nil_r in Hl. auto.
Qed.

(** The ways [write_file] ends.  When it returns, the text is in the
    file.  When it raises, the file was not opened; or it was opened,
    and so emptied, and nothing was written; or a first part of the text
    was written. *)
Lemma write_file_ends (path : string) (content : str) (w : world) :
  match write_file path content w with
  | Ok _ w' =>
      files w' = <[path := content]> (files w) /\
      log w' = log w ++ [EOpenW path; EWrite path content]
  | Raise e w' =>
      (same_disk w w' /\ log w' = log w) \/
      (files w' = <[path := []]> (files w) /\
       log w' = log w ++ [EOpenW path]) \/
      (exists n, e = WriteFailed path /\ n < length content /\
                 files w' = <[path := take n content]> (files w) /\
                 log w' = log w ++ [EOpenW path; EWrite path (take n content)])
  end.
Proof.
  unfold write_file. unfold bind at 1.
  destruct (tick w) as [[] w1|e w1] eqn:T1.
  2:{ left. exact (tick_raise _ _ _ T1). }
  destruct (tick_ok _ _ T1) as ((Hf1 & Hg1 & Hro1 & Hr1 & Hlo1 & Hco1) & Hl1).
  unfold bind at 1.
  destruct (decide (path ∈ read_only w1)) as [Hin|Hin].
  { left. repeat split; assumption. }
  unfold bind at 2, set_file, emit. unfold bind at 1.
  set (w2 := logged (stored w1 path []) [EOpenW path]).
  assert (Hf2 : files w2 = <[path := []]> (files w))
    by (subst w2; simpl; rewrite Hf1; reflexivity).
  assert (Hl2 : log w2 = log w ++ [EOpenW path])
    by (subst w2; simpl; rewrite Hl1; reflexivity).
  assert (Hr2 : room w2 = room w) by (subst w2; exact Hr1).
  clearbody w2.
  destruct (tick w2) as [[] w3|e w3] eqn:T2.
  2:{ right. left. destruct (tick_raise _ _ _ T2) as ((Hf & _) & Hl).
      rewrite Hf, Hl. auto. }
  destruct (tick_ok _ _ T2) as ((Hf3 & Hg3 & Hro3 & Hr3 & Hlo3 & Hco3) & Hl3).
  destruct (unencodable (locale w3) content) as [c|] eqn:Hu.
  { right. left. rewrite Hf3, Hl3. auto. }
  unfold bind, set_file, emit.
  destruct (length (fitting w3 content) <? length content) eqn:Hlen.
  - right. right. unfold raise. simpl.
    unfold fitting in *.
    destruct (room w3) as [n|] eqn:Hroom.
    2:{ rewrite Nat.ltb_irrefl in Hlen. discriminate. }
    apply Nat.ltb_lt in Hlen. rewrite length_take in Hlen.
    exists n. rewrite Hf3, Hl3, Hf2, Hl2, insert_insert_eq, <- app_assoc.
    repeat split. lia.
  - unfold ret. simpl.
    assert (Hfit : fitting w3 content = content).
    { unfold fitting in *. destruct (room w3); [|reflexivity].
      apply take_fits. exact Hlen. }
    rewrite Hfit, Hf3, Hl3, Hf2, Hl2, insert_insert_eq, <- app_assoc. auto.
Qed.

(** ** How a run of [main] ends *)

Lemma main_ends (w : world) :
  match main w with
  | Ok _ w' =>
      exists content result,
        files w !! schema_path = Some content /\
        rewrite_all (universal_newlines content) = Some result /\
        log w' = log w ++ events_before_write
                   ++ [EOpenW schema_path; EWrite schema_path result]
                   ++ events_after_write /\
        files w' = <[schema_path := result]> (files w)
  | Raise e w' =>
      exists evs,
        log w' = log w ++ evs /\
        ((evs `prefix_of` events_before_write /\ files w' = files w)
         \/
         exists content result,
           files w !! schema_path = Some content /\
           rewrite_all (universal_newlines content) = Some result /\
           ((evs = events_before_write ++ [EOpenW schema_path] /\
             files w' = <[schema_path := []]> (files w))
            \/
            (exists n,
               e = WriteFailed schema_path /\
               n < length result /\
               evs = events_before_write
                       ++ [EOpenW schema_path;
                           EWrite schema_path (take n result)] /\
               files w' = <[schema_path := take n result]> (files w))
            \/
            (exists rest,
               rest `prefix_of` events_after_write /\
               evs = events_before_write
                       ++ [EOpenW schema_path; EWrite schema_path result]
                       ++ rest /\
               files w' = <[schema_path := result]> (files w))))
  end.
Proof.
  unfold main, bind at 1.
  pose proof (traces_before_write w) as T. unfold traces in T.
  destruct (before_write w) as [result w1|e w1].
  2:{ destruct T as ((Hf & _) & done & Hl & Hp).
      exists done. split; [exact Hl|]. left. auto. }
  destruct T as ((Hf1 & _) & Hl1 & content & Hc & Hg & Hr).
  unfold bind at 1.
  pose proof (write_file_ends schema_path result w1) as W.
  destruct (write_file schema_path result w1) as [[] w2|e w2].
  - destruct W as (Hf2 & Hl2).
    pose proof (traces_after_write w2) as A. unfold traces in A.
    destruct (after_write w2) as [[] w3|e w3].
    + destruct A as ((Hf3 & _) & Hl3 & _).
      exists content, result. repeat split; try assumption.
      * rewrite Hl3, Hl2, Hl1, <- !app_assoc. reflexivity.
      * congruence.
    + destruct A as ((Hf3 & _) & done & Hl3 & Hp).
      exists (events_before_write
                ++ [EOpenW schema_path; EWrite schema_path result] ++ done).
      split; [rewrite Hl3, Hl2, Hl1, <- !app_assoc; reflexivity|].
      right. exists content, result. repeat split; try assumption.
      right. right. exists done. repeat split; [exact Hp | congruence].
  - destruct W as [((Hf2 & _) & Hl2)|[(Hf2 & Hl2)|(n & -> & Hn & Hf2 & Hl2)]].
    + exists events_before_write. split; [congruence|].
      left. split; [reflexivity | congruence].
    + exists (events_before_write ++ [EOpenW schema_path]).
      split; [rewrite Hl2, Hl1, <- app_assoc; reflexivity|].
      right. exists content, result. repeat split; try assumption.
      left. split; [reflexivity | congruence].
    + exists (events_before_write
                ++ [EOpenW schema_path; EWrite schema_path (take n result)]).
      split; [rewrite Hl2, Hl1, <- app_assoc; reflexivity|].
      right. exists content, result. repeat split; try assumption.
      right. left. exists n. repeat split; [exact Hn | congruence].
Qed.

(** ** Runs that nothing cuts short *)

Lemma logged_nil (w : world) : logged w [] = w.
Proof. destruct w. unfold logged. simpl. rewrite app_nil_r. reflexivity. Qed.

Lemma logged_logged (w : world) (e1 e2 : list event) :
  logged (logged w e1) e2 = logged w (e1 ++ e2).
Proof. unfold logged. simpl. rewrite <- app_assoc. reflexivity. Qed.

Lemma stored_logged (w : world) (path : string) (text : str)
    (evs : list event) :
  stored (logged w evs) path text = logged (stored w path text) evs.
Proof. reflexivity. Qed.

Lemma calm_logged (w : world) (evs : list event) : calm w -> calm (logged w evs).
Proof. exact id. Qed.

Lemma calm_stored (w : world) (path : string) (text : str) :
  calm w -> calm (stored w path text).
Proof. exact id. Qed.

(** *** What an encoding has *)

Lemma unencodable_forallb (repertoire : char -> bool) (text : str) :
  unencodable repertoire text = None <->
  forallb (encodable repertoire) text = true.
Proof.
  unfold unencodable. induction text as [|c text IH]; simpl; [tauto|].
  destruct (encodable repertoire c); simpl; [exact IH|].
  split; discriminate.
Qed.

Lemma unencodable_app (repertoire : char -> bool) (x y : str) :
  unencodable repertoire (x ++ y) =
  match unencodable repertoire x with
  | Some c => Some c
  | None => unencodable repertoire y
  end.
Proof.
  unfold unencodable. induction x as [|c x IH]; simpl; [reflexivity|].
  destruct (encodable repertoire c); simpl; [exact IH | reflexivity].
Qed.

Lemma ascii_encodable (repertoire : char -> bool) (text : str) :
  is_ascii text = true -> forallb (encodable repertoire) text = true.
Proof.
  unfold is_ascii. apply forallb_impl. intros c Hc. unfold encodable.
  rewrite Hc. reflexivity.
Qed.

Lemma ascii_unencodable (repertoire : char -> bool) (text : str) :
  is_ascii text = true -> unencodable repertoire text = None.
Proof. intros H. apply unencodable_forallb, ascii_encodable, H. Qed.

Lemma universal_newlines_forallb (p : char -> bool) (s : str) :
  p 10%N = true -> forallb p s = true ->
  forallb p (universal_newlines s) = true.
Proof.
  intros Hnl. remember (length s) as n eqn:Hn. revert s Hn.
  induction n as [n IH] using lt_wf_ind. intros s Hn Hs.
  destruct s as [|c s]; [reflexivity|]. simpl in *.
  apply andb_true_iff in Hs as [Hc Hs].
  destruct (c =? 13)%N.
  - simpl. rewrite Hnl. simpl. destruct s as [|d s]; [reflexivity|].
    simpl in Hs. apply andb_true_iff in Hs as [Hd Hs'].
    destruct (d =? 10)%N.
    + apply (IH (length s)); [simpl in Hn; lia | reflexivity | exact Hs'].
    + apply (IH (length (d :: s))); [simpl in *; lia | reflexivity |].
      simpl. rewrite Hd. exact Hs'.
  - simpl. rewrite Hc. simpl.
    apply (IH (length s)); [lia | reflexivity | exact Hs].
Qed.

Lemma universal_newlines_id (s : str) :
  ~ In 13%N s -> universal_newlines s = s.
Proof.
  induction s as [|c s IH]; intros H; [reflexivity|]. simpl.
  destruct (N.eqb_spec c 13) as [->|_]; [destruct H; left; reflexivity|].
  rewrite IH; [reflexivity|]. intros Hin. apply H. right. exact Hin.
Qed.

Lemma add_organization_id_forallb (p : char -> bool) (content X r : str) :
  (forall c, (c <? 128)%N = true -> p c = true) ->
  forallb p content = true ->
  add_organization_id_to_model content X = Some r ->
  forallb p r = true.
Proof.
  intros Hp Hc. unfold add_organization_id_to_model.
  destruct (plain_name X); [|discriminate]. intros [= <-].
  assert (Ht : forall t, is_ascii t = true -> forallb p t = true)
    by (intros t; apply forallb_impl; exact Hp).
  unfold index_pass, relation_pass, field_pass.
  repeat apply re_sub_forallb; try (apply Ht; reflexivity). exact Hc.
Qed.

Lemma update_models_forallb (p : char -> bool) (models : list str)
    (content r : str) :
  (forall c, (c <? 128)%N = true -> p c = true) ->
  forallb p content = true ->
  update_models models content = Some r ->
  forallb p r = true.
Proof.
  intros Hp. revert content. induction models as [|X l IH]; intros content Hc.
  - intros [= <-]. exact Hc.
  - simpl.
    destruct (add_organization_id_to_model content X) as [c'|] eqn:E;
      [|discriminate].
    apply IH. exact (add_organization_id_forallb p content X c' Hp Hc E).
Qed.

(** The driver writes no character that the file did not hold, apart
    from ASCII: what was read in an encoding can be written in it. *)
Lemma rewrite_all_encodable (repertoire : char -> bool) (content r : str) :
  unencodable repertoire content = None ->
  rewrite_all (universal_newlines content) = Some r ->
  unencodable repertoire r = None.
Proof.
  rewrite !unencodable_forallb. intros Hc Hr.
  assert (Hp : forall c, (c <? 128)%N = true -> encodable repertoire c = true)
    by (intros c H; unfold encodable; rewrite H; reflexivity).
  apply (update_models_forallb _ _ _ _ Hp) in Hr; [exact Hr|].
  apply universal_newlines_forallb; [reflexivity | exact Hc].
Qed.

(** *** The steps of [main] *)

Lemma print_calm (line : str) (w : world) :
  calm w -> unencodable (console w) line = None ->
  print line w = Ok tt (logged w [EPrint line]).
Proof.
  unfold calm, print, bind, tick, emit. intros -> ->. reflexivity.
Qed.

Lemma print_narrow (line : str) (c : char) (w : world) :
  calm w -> unencodable (console w) line = Some c ->
  print line w = Raise (EncodeError c) w.
Proof.
  unfold calm, print, bind, tick. intros -> ->. reflexivity.
Qed.

Lemma update_calm (content model result : str) (w : world) :
  calm w -> add_organization_id_to_model content model = Some result ->
  update content model w = Ok result w.
Proof.
  unfold calm, update, bind, tick. intros -> ->. reflexivity.
Qed.

Lemma for_models_calm (models : list str) (content result : str) (w : world) :
  calm w ->
  (forall model, In model models -> is_ascii model = true) ->
  update_models models content = Some result ->
  for_models models content w =
  Ok result
     (logged w (map (fun model =>
                       EPrint (chars "  Adding organizationId to " ++ model))
                    models)).
Proof.
  revert content w. induction models as [|model models IH];
    intros content w Hw Ha Hr.
  - simpl in *. injection Hr as <-. rewrite logged_nil. reflexivity.
  - cbn [for_models map update_models] in *.
    destruct (add_organization_id_to_model content model) as [c'|] eqn:E;
      [|discriminate].
    erewrite bind_ok.
    2:{ apply print_calm; [exact Hw|]. apply ascii_unencodable.
        pose proof (Ha model (or_introl eq_refl)) as Hm.
        unfold is_ascii in *. rewrite forallb_app.
        apply andb_true_iff. split; [reflexivity | exact Hm]. }
    erewrite bind_ok by (apply update_calm; [apply calm_logged, Hw | exact E]).
    rewrite (IH c' _ (calm_logged _ _ Hw)
                (fun m Hm => Ha m (or_intror Hm)) Hr).
    rewrite logged_logged. reflexivity.
Qed.

Lemma models_to_update_ascii (model : str) :
  In model models_to_update -> is_ascii model = true.
Proof.
  intros H. repeat (destruct H as [<-|H]; [reflexivity|]). destruct H.
Qed.

Lemma read_file_calm (path : string) (text : str) (w : world) :
  calm w -> files w !! path = Some text -> path ∉ garbled w ->
  read_file path w = Ok (universal_newlines text) (logged w [ERead path]).
Proof.
  unfold calm, read_file, bind, tick. intros -> -> Hg.
  destruct (decide (path ∈ garbled w)); [contradiction | reflexivity].
Qed.

Lemma read_file_missing (path : string) (w : world) :
  calm w -> files w !! path = None ->
  read_file path w = Raise (FileNotFound path) w.
Proof.
  unfold calm, read_file, bind, tick. intros -> ->. reflexivity.
Qed.

Lemma read_file_garbled (path : string) (text : str) (w : world) :
  calm w -> files w !! path = Some text -> path ∈ garbled w ->
  read_file path w = Raise (DecodeError path) w.
Proof.
  unfold calm, read_file, bind, tick. intros -> -> Hg.
  destruct (decide (path ∈ garbled w)); [reflexivity | contradiction].
Qed.

(** The passes of the driver never fail: every name of the list stands
    for itself in a pattern. *)
Lemma rewrite_all_total (content : str) :
  exists result, rewrite_all content = Some result.
Proof.
  unfold rewrite_all.
  assert (H : forall Y, In Y models_to_update -> plain_name Y = true)
    by (intros Y HY; apply (models_to_update_plain Y HY)).
  revert content H. generalize models_to_update.
  induction l as [|Y l IH]; intros content H; simpl; [eauto|].
  unfold add_organization_id_to_model.
  rewrite (H Y (or_introl eq_refl)).
  apply IH. intros Z HZ. apply H. right. exact HZ.
Qed.

Lemma before_write_calm (content result : str) (w : world) :
  calm w -> files w !! schema_path = Some content ->
  schema_path ∉ garbled w ->
  rewrite_all (universal_newlines content) = Some result ->
  before_write w = Ok result (logged w events_before_write).
Proof.
  intros Hw Hf Hg Hr. unfold before_write.
  erewrite bind_ok
    by (apply print_calm; [exact Hw | apply ascii_unencodable; reflexivity]).
  erewrite bind_ok
    by (apply read_file_calm; [apply calm_logged, Hw | exact Hf | exact Hg]).
  erewrite bind_ok
    by (apply print_calm;
        [do 2 apply calm_logged; exact Hw
        | apply ascii_unencodable; reflexivity]).
  erewrite bind_ok.
  2:{ apply for_models_calm;
        [do 3 apply calm_logged; exact Hw
        | exact models_to_update_ascii | exact Hr]. }
  erewrite bind_ok
    by (apply print_calm;
        [do 4 apply calm_logged; exact Hw
        | apply ascii_unencodable; reflexivity]).
  unfold ret. rewrite !logged_logged. reflexivity.
Qed.

Lemma fits_fitting (w : world) (content : str) :
  fits w content -> fitting w content = content.
Proof.
  unfold fits, fitting. destruct (room w); [|reflexivity].
  intros H. apply take_ge. exact H.
Qed.

Lemma write_file_calm (path : string) (content : str) (w : world) :
  calm w -> path ∉ read_only w ->
  unencodable (locale w) content = None -> fits w content ->
  write_file path content w =
  Ok tt (logged (stored w path content)
                [EOpenW path; EWrite path content]).
Proof.
  unfold calm, write_file, bind, tick. intros Hw Hro Hu Hfit. rewrite Hw.
  destruct (decide (path ∈ read_only w)); [contradiction|].
  unfold set_file, emit. cbn [alarm logged stored locale]. rewrite Hw.
  cbn [locale logged stored]. rewrite Hu.
  assert (E : fitting (logged (stored w path []) [EOpenW path]) content
              = content) by (apply fits_fitting; exact Hfit).
  rewrite E, Nat.ltb_irrefl. unfold ret.
  rewrite stored_logged, stored_stored, logged_logged. reflexivity.
Qed.

Lemma write_file_locked (path : string) (content : str) (w : world) :
  calm w -> path ∈ read_only w ->
  write_file path content w = Raise (PermissionDenied path) w.
Proof.
  unfold calm, write_file, bind, tick. intros -> Hin.
  destruct (decide (path ∈ read_only w)); [reflexivity | contradiction].
Qed.

Lemma write_file_short (path : string) (content : str) (n : nat) (w : world) :
  calm w -> path ∉ read_only w ->
  unencodable (locale w) content = None ->
  room w = Some n -> n < length content ->
  write_file path content w =
  Raise (WriteFailed path)
        (logged (stored w path (take n content))
                [EOpenW path; EWrite path (take n content)]).
Proof.
  unfold calm, write_file, bind, tick. intros Hw Hro Hu Hroom Hn. rewrite Hw.
  destruct (decide (path ∈ read_only w)); [contradiction|].
  unfold set_file, emit. cbn [alarm logged stored locale]. rewrite Hw.
  cbn [locale logged stored]. rewrite Hu.
  assert (E : fitting (logged (stored w path []) [EOpenW path]) content
              = take n content)
    by (unfold fitting; cbn [room logged stored]; rewrite Hroom; reflexivity).
  rewrite E.
  assert (L : (length (take n content) <? length content) = true)
    by (apply Nat.ltb_lt; rewrite length_take; lia).
  rewrite L. unfold raise.
  rewrite stored_logged, stored_stored, logged_logged. reflexivity.
Qed.

Lemma after_write_calm (w : world) :
  calm w -> unencodable (console w) [226; 339; 8230]%N = None ->
  after_write w = Ok tt (logged w events_after_write).
Proof.
  intros Hw Hu. unfold after_write.
  erewrite bind_ok.
  2:{ apply print_calm; [exact Hw|].
      rewrite unencodable_app, Hu. apply ascii_unencodable. reflexivity. }
  do 3 (erewrite bind_ok
          by (apply print_calm;
              [repeat apply calm_logged; exact Hw
              | apply ascii_unencodable; reflexivity])).
  rewrite print_calm;
    [| repeat apply calm_logged; exact Hw
     | apply ascii_unencodable; reflexivity].
  rewrite !logged_logged. reflexivity.
Qed.

Lemma after_write_narrow (w : world) (c : char) :
  calm w -> unencodable (console w) [226; 339; 8230]%N = Some c ->
  after_write w = Raise (EncodeError c) w.
Proof.
  intros Hw Hu. unfold after_write.
  erewrite bind_raise; [reflexivity|].
  apply print_narrow; [exact Hw|]. rewrite unencodable_app, Hu. reflexivity.
Qed.

Lemma stored_same (w : world) (path : string) (text : str) :
  files w !! path = Some text -> path ∉ garbled w ->
  stored w path text = w.
Proof.
  intros H Hg. destruct w. unfold stored. simpl in *. f_equal.
  - apply insert_id. exact H.
  - apply set_eq. intros x. rewrite elem_of_difference, elem_of_singleton.
    split; [tauto|]. intros Hx. split; [exact Hx|]. congruence.
Qed.

(** A run that nothing stands in the way of returns. *)
Lemma main_calm (w : world) (content result : str) :
  calm w ->
  files w !! schema_path = Some content ->
  schema_path ∉ garbled w ->
  schema_path ∉ read_only w ->
  unencodable (locale w) content = None ->
  unencodable (console w) [226; 339; 8230]%N = None ->
  rewrite_all (universal_newlines content) = Some result ->
  fits w result ->
  main w =
  Ok tt (logged (stored w schema_path result)
                (events_before_write
                   ++ [EOpenW schema_path; EWrite schema_path result]
                   ++ events_after_write)).
Proof.
  intros Hw Hf Hg Hro Hlo Hco Hr Hfit. unfold main.
  erewrite bind_ok by exact (before_write_calm _ _ _ Hw Hf Hg Hr).
  erewrite bind_ok.
  2:{ apply write_file_calm;
        [apply calm_logged, Hw | exact Hro
        | exact (rewrite_all_encodable _ _ _ Hlo Hr) | exact Hfit]. }
  rewrite after_write_calm; [| exact Hw | exact Hco].
  rewrite stored_logged, !logged_logged. reflexivity.
Qed.

(** C7: the file is written once, after every pass has run on the text
    in memory.  A run of [main] that returns has logged the read, the
    line of every name of the list, one opening of the file and one
    write of the fully rewritten text, in this order, and the file holds
    that text.  A run that raises has either logged no more than the
    lines and the read that come before the write step, and then every
    file is as it was: this is where a failed read, a failed pass, a
    failed print and a run cut short at any of these points end.  Or it
    has logged all of them and got into the write step: the file was
    then opened and so emptied, and nothing, a first part of the text or
    the text was written, once.  The run does return when nothing stands
    in its way. *)
Theorem file_written_once_at_the_end (w : world) :
  match main w with
  | Ok _ w' =>
      exists content result,
        files w !! schema_path = Some content /\
        rewrite_all (universal_newlines content) = Some result /\
        log w' = log w ++ events_before_write
                   ++ [EOpenW schema_path; EWrite schema_path result]
                   ++ events_after_write /\
        files w' = <[schema_path := result]> (files w)
  | Raise e w' =>
      exists evs,
        log w' = log w ++ evs /\
        ((evs `prefix_of` events_before_write /\ files w' = files w)
         \/
         exists content result,
           files w !! schema_path = Some content /\
           rewrite_all (universal_newlines content) = Some result /\
           ((evs = events_before_write ++ [EOpenW schema_path] /\
             files w' = <[schema_path := []]> (files w))
            \/
            (exists n,
               e = WriteFailed schema_path /\
               n < length result /\
               evs = events_before_write
                       ++ [EOpenW schema_path;
                           EWrite schema_path (take n result)] /\
               files w' = <[schema_path := take n result]> (files w))
            \/
            (exists rest,
               rest `prefix_of` events_after_write /\
               evs = events_before_write
                       ++ [EOpenW schema_path; EWrite schema_path result]
                       ++ rest /\
               files w' = <[schema_path := result]> (files w))))
  end /\
  (forall content result,
     calm w ->
     files w !! schema_path = Some content ->
     schema_path ∉ garbled w ->
     schema_path ∉ read_only w ->
     unencodable (locale w) content = None ->
     unencodable (console w) [226; 339; 8230]%N = None ->
     rewrite_all (universal_newlines content) = Some result ->
     fits w result ->
     exists w', main w = Ok tt w').
Proof.
  split; [exact (main_ends w)|].
  intros content result Hw Hf Hg Hro Hlo Hco Hr Hfit.
  eexists. exact (main_calm w content result Hw Hf Hg Hro Hlo Hco Hr Hfit).
Qed.

Lemma file_written_once_at_the_end_witness :
  files (world_of (main interrupted_world)) = files interrupted_world /\
  (exists w', main first_world = Ok tt w') /\
  files (world_of (main first_world)) !! schema_path = Some fixture_once.
Proof.
  split; [|split].
  - destruct (file_written_once_at_the_end interrupted_world) as [H _].
    destruct (main interrupted_world) as [u w'|e w'] eqn:E;
      vm_compute in E; [discriminate|].
    injection E as _ <-.
    destruct H as (evs & Hl & [[_ Hf]|(c & r & _ & _ & H)]); [exact Hf|].
    exfalso. apply (f_equal (@length event)) in Hl.
    destruct H as [[-> _]|[(n & _ & _ & -> & _)|(rest & _ & -> & _)]];
      rewrite !length_app in Hl; vm_compute in Hl; lia.
  - destruct (file_written_once_at_the_end first_world) as [_ H].
    apply (H fixture fixture_once);
      first [reflexivity | vm_compute; discriminate
            | vm_compute; reflexivity | exact I].
  - destruct (file_written_once_at_the_end first_world) as [H _].
    destruct (main first_world) as [u w'|e w'] eqn:E;
      [|vm_compute in E; discriminate].
    destruct H as (c & r & Hc & Hr & _ & Hf). simpl.
    rewrite Hf, lookup_insert_eq.
    vm_compute in Hc. injection Hc as <-.
    rewrite <- Hr. vm_compute. reflexivity.
Defined.

(** C8: the driver is deterministic.  Two runs of [main] that return,
    from worlds that agree on the text of the schema file (and may differ
    in everything else), leave the same text in it: the result of
    [rewrite_all] on the text read. *)
Theorem driver_deterministic (w1 w2 w1' w2' : world) :
  files w1 !! schema_path = files w2 !! schema_path ->
  main w1 = Ok tt w1' ->
  main w2 = Ok tt w2' ->
  files w1' !! schema_path = files w2' !! schema_path /\
  exists content result,
    files w1 !! schema_path = Some content /\
    rewrite_all (universal_newlines content) = Some result /\
    files w1' !! schema_path = Some result.
Proof.
  intros Hin H1 H2.
  pose proof (main_ends w1) as S1. pose proof (main_ends w2) as S2.
  rewrite H1 in S1. rewrite H2 in S2.
  destruct S1 as (c1 & r1 & Hc1 & Hr1 & _ & Hf1).
  destruct S2 as (c2 & r2 & Hc2 & Hr2 & _ & Hf2).
  assert (c1 = c2) by congruence. subst c2.
  assert (r1 = r2) by congruence. subst r2.
  rewrite Hf1, Hf2, !lookup_insert_eq. split; [reflexivity|].
  exists c1, r1. auto.
Qed.

Lemma driver_deterministic_witness :
  files (world_of (main first_world)) !! schema_path =
  files (world_of (main second_world)) !! schema_path.
Proof.
  apply (driver_deterministic first_world second_world);
    vm_compute; reflexivity.
Defined.

(** * Further properties *)

(** ** The ways [main] ends *)



(** X2: when the schema file is missing, [main] raises the error of
    [open] right after its first line of output; no file is created or
    changed and no pass is run. *)
Theorem main_missing_file (w : world) :
  calm w ->
  files w !! schema_path = None ->
  main w =
  Raise (FileNotFound schema_path)
        (logged w [EPrint (chars "Reading schema from " ++ chars schema_path)]).
Proof.
  intros Hw Hf. unfold main, before_write.
  erewrite bind_raise; [reflexivity|].
  erewrite bind_ok
    by (apply print_calm; [exact Hw | apply ascii_unencodable; reflexivity]).
  erewrite bind_raise; [reflexivity|].
  apply read_file_missing; [apply calm_logged, Hw | exact Hf].
Qed.

Lemma main_missing_file_witness :
  main empty_world =
  Raise (FileNotFound schema_path)
        (logged empty_world
                [EPrint (chars "Reading schema from " ++ chars schema_path)]).
Proof. apply (main_missing_file empty_world); reflexivity. Defined.

(** X3: when the schema file cannot be opened for writing, [main] raises
    only after it has read the file, run every pass and printed every
    progress line; the files are as they were. *)
Theorem main_read_only (w : world) (content : str) :
  calm w ->
  schema_path ∈ read_only w ->
  files w !! schema_path = Some content ->
  schema_path ∉ garbled w ->
  main w =
  Raise (PermissionDenied schema_path) (logged w events_before_write) /\
  files (world_of (main w)) = files w.
Proof.
  intros Hw Hro Hf Hg.
  destruct (rewrite_all_total (universal_newlines content)) as [result Hr].
  assert (E : main w = Raise (PermissionDenied schema_path)
                             (logged w events_before_write)).
  { unfold main.
    erewrite bind_ok by exact (before_write_calm _ _ _ Hw Hf Hg Hr).
    erewrite bind_raise; [reflexivity|].
    apply write_file_locked; [apply calm_logged, Hw | exact Hro]. }
  rewrite E. split; reflexivity.
Qed.

Lemma main_read_only_witness :
  files (world_of (main locked_world)) = files locked_world.
Proof.
  apply (main_read_only locked_world fixture);
    first [reflexivity | vm_compute; reflexivity | vm_compute; discriminate].
Defined.



(** X15: on a console whose encoding lacks a character of the completion
    line, [main] raises when it prints that line: the schema file has
    been rewritten by then, and the next steps are never printed. *)
Theorem main_narrow_console (w : world) (content result : str) (c : char) :
  calm w ->
  files w !! schema_path = Some content ->
  schema_path ∉ garbled w ->
  schema_path ∉ read_only w ->
  unencodable (locale w) content = None ->
  rewrite_all (universal_newlines content) = Some result ->
  fits w result ->
  unencodable (console w) [226; 339; 8230]%N = Some c ->
  main w =
  Raise (EncodeError c)
        (logged (stored w schema_path result)
                (events_before_write
                   ++ [EOpenW schema_path; EWrite schema_path result])) /\
  files (world_of (main w)) !! schema_path = Some result.
Proof.
  intros Hw Hf Hg Hro Hlo Hr Hfit Hc.
  assert (E : main w =
              Raise (EncodeError c)
                    (logged (stored w schema_path result)
                            (events_before_write
                               ++ [EOpenW schema_path;
                                   EWrite schema_path result]))).
  { unfold main.
    erewrite bind_ok by exact (before_write_calm _ _ _ Hw Hf Hg Hr).
    erewrite bind_ok.
    2:{ apply write_file_calm;
          [apply calm_logged, Hw | exact Hro
          | exact (rewrite_all_encodable _ _ _ Hlo Hr) | exact Hfit]. }
    rewrite after_write_narrow with (c := c); [| exact Hw | exact Hc].
    rewrite stored_logged, !logged_logged. reflexivity. }
  rewrite E. split; [reflexivity|]. simpl. apply lookup_insert_eq.
Qed.

Lemma main_narrow_console_witness :
  main narrow_world =
  Raise (EncodeError 226%N)
        (logged (stored narrow_world schema_path fixture_once)
                (events_before_write
                   ++ [EOpenW schema_path; EWrite schema_path fixture_once])).
Proof.
  apply (main_narrow_console narrow_world fixture fixture_once 226%N);
    first [reflexivity | vm_compute; discriminate | vm_compute; reflexivity
          | exact I].
Defined.



(** ** What each pass needs *)

Lemma literal_needed (X content l : str) (pat : pattern) (tmpl : list titem)
    (rest1 : list atom) :
  grp1 pat = header_atoms X ++ rest1 ->
  In (Lit l) (rest1 ++ grp2 pat) ->
  occursb l content = false ->
  re_sub pat tmpl content = content.
Proof.
  intros Hg Hin Hno.
  assert (Hh : headed X pat) by (exists rest1; exact Hg).
  apply (re_sub_pass_all X); [exact Hh|].
  intros x1 x2 E.
  destruct (re_match pat x2) as [m|] eqn:Hm; [|reflexivity].
  exfalso. apply re_match_sound in Hm as (Hs & H1 & H2).
  rewrite Hg in H1. apply seq_matches_header in H1 as (m' & E1 & H1).
  pose proof (seq_matches_app _ _ _ _ H1 H2) as H.
  destruct (seq_matches_literal _ _ _ Hin H) as (x & y & Exy).
  assert (Ec : content = (x1 ++ header X ++ x) ++ l ++ (y ++ after m)).
  { rewrite E, Hs, E1, <- !app_assoc. do 2 f_equal.
    rewrite (app_assoc m'), Exy, <- !app_assoc. reflexivity. }
  rewrite Ec, occursb_app in Hno. discriminate.
Qed.

(** X6: a pass changes nothing in a document that lacks one of the
    literals of its pattern: [createdById], [String] or the marker for
    the field pass; the marker, [createdBy] or [[]] for the relation
    pass; a closing brace for the index pass.  In a document without
    [createdBy] the call comes down to the index pass. *)
Theorem passes_need_their_literals (X content : str) :
  plain_name X = true ->
  (occursb (chars "createdById") content = false \/
   occursb (chars "String") content = false \/
   occursb marker content = false ->
   field_pass X content = content) /\
  (occursb marker content = false \/
   occursb (chars "createdBy") content = false \/
   occursb (chars "[]") content = false ->
   relation_pass X content = content) /\
  (occursb close content = false -> index_pass X content = content) /\
  (occursb (chars "createdBy") content = false ->
   add_organization_id_to_model content X = Some (index_pass X content)).
Proof.
  intros Hp.
  assert (Hfield : occursb (chars "createdById") content = false \/
                   occursb (chars "String") content = false \/
                   occursb marker content = false ->
                   field_pass X content = content).
  { intros [H|[H|H]];
      (eapply (literal_needed X content); [reflexivity | | exact H]);
      simpl; tauto. }
  assert (Hrel : occursb marker content = false \/
                 occursb (chars "createdBy") content = false \/
                 occursb (chars "[]") content = false ->
                 relation_pass X content = content).
  { intros [H|[H|H]];
      (eapply (literal_needed X content); [reflexivity | | exact H]);
      simpl; tauto. }
  repeat split; try assumption.
  - intros H. eapply (literal_needed X content); [reflexivity | | exact H].
    simpl. tauto.
  - intros H. unfold add_organization_id_to_model. rewrite Hp.
    rewrite Hfield, Hrel; [reflexivity | tauto |].
    left. exact (occursb_longer (chars "createdBy") (chars "Id") _ H).
Qed.

Lemma passes_need_their_literals_witness :
  add_organization_id_to_model bare_document (chars "Task") =
  Some (index_pass (chars "Task") bare_document).
Proof.
  apply (passes_need_their_literals (chars "Task") bare_document);
    vm_compute; reflexivity.
Defined.

(** ** A schema without the models of the list *)

(** X7: a schema in which none of the nineteen headers occurs comes out
    of the passes as it was read.  [main] still prints its line for
    every name and writes the file: with the text it read, which is the
    text the file had when that holds no [\r], and the text with other
    line ends when it does. *)
Theorem driver_without_targets (content : str) :
  (forall Y, In Y models_to_update ->
             occurrences (header Y) (universal_newlines content) = []) ->
  rewrite_all (universal_newlines content)
  = Some (universal_newlines content) /\
  (forall w,
     calm w ->
     files w !! schema_path = Some content ->
     schema_path ∉ garbled w ->
     schema_path ∉ read_only w ->
     unencodable (locale w) content = None ->
     unencodable (console w) [226; 339; 8230]%N = None ->
     fits w (universal_newlines content) ->
     main w =
     Ok tt (logged (stored w schema_path (universal_newlines content))
                   (events_before_write
                      ++ [EOpenW schema_path;
                          EWrite schema_path (universal_newlines content)]
                      ++ events_after_write)) /\
     (~ In 13%N content ->
      stored w schema_path (universal_newlines content) = w)).
Proof.
  intros Hnone.
  assert (Hr : rewrite_all (universal_newlines content)
               = Some (universal_newlines content)).
  { apply update_models_absent. intros Y HY. split.
    - apply (models_to_update_plain Y HY).
    - exact (occurrences_none _ _ (Hnone Y HY)). }
  split; [exact Hr|].
  intros w Hw Hf Hg Hro Hlo Hco Hfit. split.
  - exact (main_calm w content _ Hw Hf Hg Hro Hlo Hco Hr Hfit).
  - intros Hcr. rewrite (universal_newlines_id _ Hcr).
    apply stored_same; assumption.
Qed.

Lemma crlf_text_other_names (Y : str) :
  In Y models_to_update ->
  occurrences (header Y) (universal_newlines crlf_text) = [].
Proof.
  intros HY.
  repeat (destruct HY as [<-|HY]; [vm_compute; reflexivity|]).
  destruct HY.
Qed.

Lemma driver_without_targets_witness :
  main (world_with crlf_text) =
  Ok tt (logged (stored (world_with crlf_text) schema_path lf_text)
                (events_before_write
                   ++ [EOpenW schema_path; EWrite schema_path lf_text]
                   ++ events_after_write)) /\
  lf_text <> crlf_text.
Proof.
  split; [|vm_compute; discriminate].
  destruct (driver_without_targets crlf_text crlf_text_other_names)
    as [_ H].
  refine (proj1 (H (world_with crlf_text) _ _ _ _ _ _ _));
    first [reflexivity | vm_compute; discriminate | exact I].
Defined.

(** ** The index pass, stretch by stretch *)

(** X8: the index pass takes the text one stretch at a time, a stretch
    running up to the next closing brace.  The annotation goes in front
    of that brace exactly when [model X {] occurs somewhere in the
    stretch, so a block that is not closed hands its annotation to the
    brace that closes what follows it; text behind the last closing
    brace is never changed. *)
Theorem index_pass_by_stretch (X seg : str) :
  plain_name X = true ->
  forallb not_brace seg = true ->
  index_pass X seg = seg /\
  forall rest,
    index_pass X (seg ++ close ++ rest) =
    seg ++ (if occursb (header X) seg then (nl ++ nl ++ chars "  @@index([organizationId])") else [])
        ++ close ++ index_pass X rest.
Proof.
  change (nl ++ nl ++ chars "  @@index([organizationId])") with index_text.
  intros Hp Hseg. split.
  - apply index_pass_open. exact Hseg.
  - intros rest. apply index_pass_segment; assumption.
Qed.

Lemma index_pass_by_stretch_witness :
  index_pass (chars "Task") (unclosed_stretch ++ close ++ chars " model Task {") =
  unclosed_stretch ++ (nl ++ nl ++ chars "  @@index([organizationId])") ++ close ++ chars " model Task {".
Proof.
  change (nl ++ nl ++ chars "  @@index([organizationId])") with index_text.
  destruct (index_pass_by_stretch (chars "Task") unclosed_stretch
              ltac:(vm_compute; reflexivity) ltac:(vm_compute; reflexivity))
    as [_ H].
  rewrite H.
  destruct (index_pass_by_stretch (chars "Task") (chars " model Task {")
              ltac:(vm_compute; reflexivity) ltac:(vm_compute; reflexivity))
    as [H' _].
  rewrite H'. reflexivity.
Defined.

(** ** The index pass, run again *)

Lemma index_pass_not_brace_stretch (X seg : str) :
  forallb not_brace seg = true ->
  forallb not_brace
    (seg ++ (if occursb (header X) seg then index_text else [])) = true.
Proof.
  intros H. rewrite forallb_app, H.
  destruct (occursb (header X) seg); reflexivity.
Qed.

Lemma occursb_app_r (p s t : str) :
  occursb p s = true -> occursb p (s ++ t) = true.
Proof.
  intros H. apply occursb_true_split in H as (x & y & ->).
  rewrite <- !app_assoc. apply occursb_app.
Qed.

Lemma index_pass_growth (X d : str) :
  plain_name X = true ->
  2 * length (index_pass X d)
  <= length (index_pass X (index_pass X d)) + length d.
Proof.
  intros Hp. remember (length d) as n eqn:Hn. revert d Hn.
  induction n as [n IH] using lt_wf_ind. intros d Hn.
  destruct (first_brace d) as [Hd|(seg & rest & -> & Hseg)].
  - rewrite !(index_pass_open X d Hd). lia.
  - rewrite (index_pass_segment X seg rest Hp Hseg).
    rewrite (app_assoc seg).
    rewrite (index_pass_segment X _ _ Hp
               (index_pass_not_brace_stretch X seg Hseg)).
    assert (Hrest : 2 * length (index_pass X rest)
                    <= length (index_pass X (index_pass X rest))
                       + length rest).
    { apply (IH (length rest)); [|reflexivity].
      rewrite Hn, !length_app. simpl. lia. }
    destruct (occursb (header X) seg) eqn:Ho.
    + rewrite (occursb_app_r _ _ index_text Ho).
      rewrite Hn, !length_app. simpl length. lia.
    + rewrite app_nil_r, Ho.
      rewrite Hn, !length_app. simpl length. lia.
Qed.

Lemma sublist_same_length (s r : str) :
  s `sublist_of` r -> length r <= length s -> s = r.
Proof.
  induction 1 as [|c s r H IH|c s r H IH]; simpl; intros Hlen.
  - reflexivity.
  - f_equal. apply IH. lia.
  - apply sublist_length in H. lia.
Qed.

(** X9: the index pass never settles.  On any document a second run
    adds at least as many characters as the first did, so a document the
    pass changes once is changed again by every further run. *)
Theorem index_pass_never_settles (X d : str) :
  plain_name X = true ->
  length (index_pass X d) - length d
  <= length (index_pass X (index_pass X d)) - length (index_pass X d) /\
  (index_pass X d <> d ->
   index_pass X (index_pass X d) <> index_pass X d).
Proof.
  intros Hp. pose proof (index_pass_growth X d Hp) as Hg.
  assert (Hsub : d `sublist_of` index_pass X d)
    by apply sub_scan_sublist.
  pose proof (sublist_length _ _ Hsub) as Hlen.
  split; [lia|].
  intros Hne Heq.
  apply Hne. symmetry. apply sublist_same_length; [exact Hsub|].
  rewrite Heq in Hg. lia.
Qed.

Lemma index_pass_never_settles_witness :
  index_pass (chars "Task") (index_pass (chars "Task") bare_document)
  <> index_pass (chars "Task") bare_document.
Proof.
  apply (index_pass_never_settles (chars "Task") bare_document).
  - vm_compute. reflexivity.
  - vm_compute. congruence.
Defined.

(** ** Matches stay between closing braces *)

(** X10: the field pass and the relation pass never reach across a
    closing brace: the text in front of a closing brace and the text
    behind it are rewritten each on its own, whatever they are. *)
Theorem passes_stay_between_braces (X a b : str) :
  plain_name X = true ->
  field_pass X (a ++ close ++ b) =
    field_pass X a ++ close ++ field_pass X b /\
  relation_pass X (a ++ close ++ b) =
    relation_pass X a ++ close ++ relation_pass X b.
Proof.
  intros Hp. pose proof (plain_name_not_brace X Hp) as HX.
  split.
  - apply (re_sub_brace X); [apply model_pattern_headed | |];
      repeat constructor; exact HX.
  - apply (re_sub_brace X); [apply relation_pattern_headed | |];
      repeat constructor; exact HX.
Qed.

Lemma passes_stay_between_braces_witness :
  field_pass (chars "Segment") (fixture ++ close ++ fixture) =
  field_pass (chars "Segment") fixture ++ close
    ++ field_pass (chars "Segment") fixture.
Proof.
  apply (passes_stay_between_braces (chars "Segment") fixture fixture).
  vm_compute. reflexivity.
Defined.

(** ** Whole copies of three texts *)

(** X11: the result of [add_organization_id_to_model] is the document
    with whole copies of the three texts put in, and nothing else: first
    copies of the field line, then of the relation line, then of the
    index annotation.  Its length grows by the lengths of these copies,
    and it has the braces of the document, no more and no fewer. *)
Theorem add_organization_id_whole_copies (content X result : str) :
  add_organization_id_to_model content X = Some result ->
  exists n1 n2 n3 r1 r2,
    inserted field_text n1 content r1 /\
    inserted relation_text n2 r1 r2 /\
    inserted index_text n3 r2 result /\
    length result =
      length content + n1 * length field_text + n2 * length relation_text
        + n3 * length index_text /\
    count_char 123%N result = count_char 123%N content /\
    count_char 125%N result = count_char 125%N content.
Proof.
  unfold add_organization_id_to_model.
  destruct (plain_name X); [|discriminate]. intros H. injection H as <-.
  destruct (sub_scan_inserted (S (length content)) (model_pattern X)
              field_text content) as [n1 H1].
  change (inserted field_text n1 content (field_pass X content)) in H1.
  destruct (sub_scan_inserted (S (length (field_pass X content)))
              (relation_pattern X) relation_text (field_pass X content))
    as [n2 H2].
  change (inserted relation_text n2 (field_pass X content)
            (relation_pass X (field_pass X content))) in H2.
  destruct (sub_scan_inserted
              (S (length (relation_pass X (field_pass X content))))
              (index_pattern X) index_text
              (relation_pass X (field_pass X content))) as [n3 H3].
  change (inserted index_text n3 (relation_pass X (field_pass X content))
            (index_pass X (relation_pass X (field_pass X content)))) in H3.
  exists n1, n2, n3, (field_pass X content),
    (relation_pass X (field_pass X content)).
  repeat split; try assumption.
  - rewrite (inserted_length _ _ _ _ H3), (inserted_length _ _ _ _ H2),
      (inserted_length _ _ _ _ H1). lia.
  - rewrite (inserted_count index_text _ _ _ 123%N eq_refl H3),
      (inserted_count relation_text _ _ _ 123%N eq_refl H2),
      (inserted_count field_text _ _ _ 123%N eq_refl H1). reflexivity.
  - rewrite (inserted_count index_text _ _ _ 125%N eq_refl H3),
      (inserted_count relation_text _ _ _ 125%N eq_refl H2),
      (inserted_count field_text _ _ _ 125%N eq_refl H1). reflexivity.
Qed.

Lemma add_organization_id_whole_copies_witness :
  exists n1 n2 n3 r1 r2,
    inserted field_text n1 fixture r1 /\
    inserted relation_text n2 r1 r2 /\
    inserted index_text n3 r2 fixture_once /\
    length fixture_once =
      length fixture + n1 * length field_text + n2 * length relation_text
        + n3 * length index_text /\
    count_char 123%N fixture_once = count_char 123%N fixture /\
    count_char 125%N fixture_once = count_char 125%N fixture.
Proof.
  apply (add_organization_id_whole_copies fixture (chars "Segment")).
  vm_compute. reflexivity.
Defined.

(** ** The relation line without the field line *)

Section RelationAlone.
Variables (X front c d w3 : str) (f0 : char) (fld w4 e rest : str).

Hypothesis Hfront : forallb not_brace front = true.
Hypothesis Hfirst_marker : occurrences marker (front ++ marker) = [length front].
Hypothesis Hc : forallb not_brace c = true.
Hypothesis Hfirst_relation :
  occurrences (chars "createdBy") (c ++ chars "createdBy") = [length c].
Hypothesis Hd : forallb (fun ch => not_brace ch && negb (is_space ch)) d = true.
Hypothesis Hw3 : w3 <> [] /\ forallb is_space w3 = true.
Hypothesis Hf0 : ident_start f0 = true.
Hypothesis Hfld : forallb ident_char fld = true.
Hypothesis Hw4 : w4 <> [] /\ forallb is_space w4 = true.
Hypothesis He : forallb not_brace e = true.
Hypothesis He_start : stops is_space (e ++ chars "[]") = true.
Hypothesis Hfirst_list :
  occurrences (chars "[]") (e ++ chars "[]") = [length e].

Lemma relation_match_alone :
  re_match (relation_pattern X)
    (header X ++ front ++ marker ++ c ++ chars "createdBy"
       ++ d ++ w3 ++ (f0 :: fld) ++ w4 ++ e ++ chars "[]" ++ rest) =
  Some (RMatch
          (header X ++ front ++ marker ++ c ++ chars "createdBy" ++ d)
          (w3 ++ (f0 :: fld) ++ w4 ++ e ++ chars "[]")
          rest).
Proof using Hfront Hfirst_marker Hc Hfirst_relation Hd Hw3 Hf0 Hfld Hw4
    He He_start Hfirst_list.
  destruct Hw3 as [Hw3n Hw3s], Hw4 as [Hw4n Hw4s].
  unfold re_match. rewrite match_groups_k.
  cbn [relation_pattern grp1 grp2].
  rewrite match_k_header, strip_app_same.
  apply match_k_lazy_first; [exact Hfront | |].
  { intros x1 x2 E Hne. apply match_k_lit_fail.
    apply (first_occurrence_skip _ _ _ Hfirst_marker x1 x2 E Hne). }
  rewrite match_k_lit.
  apply match_k_lazy_first; [exact Hc | |].
  { intros x1 x2 E Hne. apply match_k_lit_fail.
    apply (first_occurrence_skip _ _ _ Hfirst_relation x1 x2 E Hne). }
  rewrite match_k_lit.
  apply match_k_lazy_first.
  { exact (tail_not_brace _ Hd). }
  { intros x1 x2 E Hne. rewrite match_k_nil, match_k_cons.
    destruct x2 as [|ch x2]; [congruence|].
    assert (Hch : is_space ch = false).
    { rewrite E, forallb_app in Hd. apply andb_true_iff in Hd as [_ Hx2].
      simpl in Hx2. apply andb_true_iff in Hx2 as [Hch _].
      apply andb_true_iff in Hch as [_ Hch].
      apply negb_true_iff in Hch. exact Hch. }
    cbn [match_atom app]. rewrite Hch. reflexivity. }
  rewrite match_k_nil.
  apply match_k_plus_first; [exact Hw3n | exact Hw3s | |].
  { cbn [app stops]. rewrite (ident_start_not_space _ Hf0). reflexivity. }
  change ((f0 :: fld) ++ w4 ++ e ++ chars "[]" ++ rest)
    with (f0 :: (fld ++ w4 ++ e ++ chars "[]" ++ rest)).
  rewrite match_k_one by exact Hf0.
  apply match_k_star_first; [exact Hfld | |].
  { apply stops_spaces; [exact Hw4n | exact Hw4s | apply space_not_ident]. }
  apply match_k_plus_first; [exact Hw4n | exact Hw4s | |].
  { apply stops_app; [discriminate | exact He_start]. }
  apply match_k_lazy_first; [exact He | |].
  { intros x1 x2 E Hne. apply match_k_lit_fail.
    apply (first_occurrence_skip _ _ _ Hfirst_list x1 x2 E Hne). }
  rewrite match_k_lit, match_k_nil.
  rewrite ?app_nil_r, <- ?app_assoc. reflexivity.
Qed.
End RelationAlone.


